(** * The Postgres data store of the blockchain sidecar

    A shallow embedding of [src/datastore/postgres-store.ts]: the write
    path ([update], [handleReorg], [restoreOrphanedChain],
    [markEntitiesCanonical], the [update*] inserts), the chain-tip query
    and the read queries ([getBlock], [getBlocks], [getTx], [getTxList],
    [getTxEvents], [getSmartContract], [getStxBalance],
    [getAddressAssetEvents], [getFungibleTokenBalances],
    [getNonFungibleTokenCounts], [getAddressTxs]), over a relational
    state whose tables are lists of rows in scan order.

    Hashes are kept in their 0x-prefixed hex form, so [hexToBuffer] and
    [bufferToHexPrefixString] of [src/helpers] are the identity here.
    The [logger] and [logError] calls write no store state and are left
    out. *)

From Stdlib Require Import ZArith String List Bool Lia Arith Sorted Permutation.
Import ListNotations.

(** ** Records of [src/datastore/common.ts] *)

Definition Hash := string.
Definition Address := string.
Bind Scope string_scope with Hash Address.

Inductive DbTxTypeId :=
| TokenTransfer | SmartContract | ContractCall | PoisonMicroblock | Coinbase.

Inductive DbTxStatus := Pending | Success | Failed.

Inductive DbAssetEventTypeId := Transfer | Mint | Burn.

Record DbBlock := mkDbBlock {
  block_hash : Hash;
  index_block_hash : Hash;
  parent_index_block_hash : Hash;
  parent_block_hash : Hash;
  parent_microblock : Hash;
  block_height : Z;
  burn_block_time : Z;
  block_canonical : bool
}.

Record DbTx := mkDbTx {
  tx_id : Hash;
  tx_index : Z;
  tx_index_block_hash : Hash;
  tx_block_hash : Hash;
  tx_block_height : Z;
  tx_burn_block_time : Z;
  type_id : DbTxTypeId;
  status : DbTxStatus;
  tx_canonical : bool;
  post_conditions : option string;
  fee_rate : Z;
  sponsored : bool;
  sender_address : Address;
  origin_hash_mode : Z;
  token_transfer_recipient_address : option Address;
  token_transfer_amount : option Z;
  token_transfer_memo : option string;
  smart_contract_contract_id : option string;
  smart_contract_source_code : option string;
  contract_call_contract_id : option string;
  contract_call_function_name : option string;
  contract_call_function_args : option string;
  poison_microblock_header_1 : option string;
  poison_microblock_header_2 : option string;
  coinbase_payload : option string
}.

Record DbStxEvent := mkDbStxEvent {
  stx_event_index : Z;
  stx_tx_id : Hash;
  stx_tx_index : Z;
  stx_block_height : Z;
  stx_canonical : bool;
  stx_asset_event_type_id : DbAssetEventTypeId;
  stx_sender : option Address;
  stx_recipient : option Address;
  stx_amount : Z
}.

Record DbFtEvent := mkDbFtEvent {
  ft_event_index : Z;
  ft_tx_id : Hash;
  ft_tx_index : Z;
  ft_block_height : Z;
  ft_canonical : bool;
  ft_asset_event_type_id : DbAssetEventTypeId;
  ft_sender : option Address;
  ft_recipient : option Address;
  ft_asset_identifier : string;
  ft_amount : Z
}.

Record DbNftEvent := mkDbNftEvent {
  nft_event_index : Z;
  nft_tx_id : Hash;
  nft_tx_index : Z;
  nft_block_height : Z;
  nft_canonical : bool;
  nft_asset_event_type_id : DbAssetEventTypeId;
  nft_sender : option Address;
  nft_recipient : option Address;
  nft_asset_identifier : string;
  nft_value : string
}.

Record DbSmartContractEvent := mkDbSmartContractEvent {
  log_event_index : Z;
  log_tx_id : Hash;
  log_tx_index : Z;
  log_block_height : Z;
  log_canonical : bool;
  log_contract_identifier : string;
  log_topic : string;
  log_value : string
}.

Record DbSmartContract := mkDbSmartContract {
  sc_tx_id : Hash;
  sc_contract_id : string;
  sc_block_height : Z;
  sc_source_code : string;
  sc_abi : string;
  sc_canonical : bool
}.

(** One entry of [DataStoreUpdateData.txs]. *)
Record DataStoreTxEntry := mkEntry {
  tx : DbTx;
  stxEvents : list DbStxEvent;
  ftEvents : list DbFtEvent;
  nftEvents : list DbNftEvent;
  contractLogEvents : list DbSmartContractEvent;
  smartContracts : list DbSmartContract
}.

Record DataStoreUpdateData := mkData {
  block : DbBlock;
  txs : list DataStoreTxEntry
}.

(** ** The [canonical] flag

    Every record above carries a [canonical] field that the store reads
    and overwrites; the class gives the field one name. *)

Class Entity (R : Type) := {
  canonical : R -> bool;
  with_canonical : bool -> R -> R;
  canonical_with : forall c r, canonical (with_canonical c r) = c;
  with_canonical_id : forall r, with_canonical (canonical r) r = r;
  with_canonical_twice :
    forall c c' r, with_canonical c (with_canonical c' r) = with_canonical c r
}.

#[export, refine] Instance DbBlock_Entity : Entity DbBlock := {
  canonical := block_canonical;
  with_canonical c b :=
    mkDbBlock (block_hash b) (index_block_hash b) (parent_index_block_hash b)
      (parent_block_hash b) (parent_microblock b) (block_height b)
      (burn_block_time b) c
}.
Proof. all: intros; try destruct r; reflexivity. Defined.

#[export, refine] Instance DbTx_Entity : Entity DbTx := {
  canonical := tx_canonical;
  with_canonical c t :=
    mkDbTx (tx_id t) (tx_index t) (tx_index_block_hash t) (tx_block_hash t)
      (tx_block_height t) (tx_burn_block_time t) (type_id t) (status t) c
      (post_conditions t) (fee_rate t) (sponsored t) (sender_address t)
      (origin_hash_mode t) (token_transfer_recipient_address t)
      (token_transfer_amount t) (token_transfer_memo t)
      (smart_contract_contract_id t) (smart_contract_source_code t)
      (contract_call_contract_id t) (contract_call_function_name t)
      (contract_call_function_args t) (poison_microblock_header_1 t)
      (poison_microblock_header_2 t) (coinbase_payload t)
}.
Proof. all: intros; try destruct r; reflexivity. Defined.

#[export, refine] Instance DbStxEvent_Entity : Entity DbStxEvent := {
  canonical := stx_canonical;
  with_canonical c e :=
    mkDbStxEvent (stx_event_index e) (stx_tx_id e) (stx_tx_index e)
      (stx_block_height e) c (stx_asset_event_type_id e) (stx_sender e)
      (stx_recipient e) (stx_amount e)
}.
Proof. all: intros; try destruct r; reflexivity. Defined.

#[export, refine] Instance DbFtEvent_Entity : Entity DbFtEvent := {
  canonical := ft_canonical;
  with_canonical c e :=
    mkDbFtEvent (ft_event_index e) (ft_tx_id e) (ft_tx_index e)
      (ft_block_height e) c (ft_asset_event_type_id e) (ft_sender e)
      (ft_recipient e) (ft_asset_identifier e) (ft_amount e)
}.
Proof. all: intros; try destruct r; reflexivity. Defined.

#[export, refine] Instance DbNftEvent_Entity : Entity DbNftEvent := {
  canonical := nft_canonical;
  with_canonical c e :=
    mkDbNftEvent (nft_event_index e) (nft_tx_id e) (nft_tx_index e)
      (nft_block_height e) c (nft_asset_event_type_id e) (nft_sender e)
      (nft_recipient e) (nft_asset_identifier e) (nft_value e)
}.
Proof. all: intros; try destruct r; reflexivity. Defined.

#[export, refine] Instance DbSmartContractEvent_Entity :
  Entity DbSmartContractEvent := {
  canonical := log_canonical;
  with_canonical c e :=
    mkDbSmartContractEvent (log_event_index e) (log_tx_id e) (log_tx_index e)
      (log_block_height e) c (log_contract_identifier e) (log_topic e)
      (log_value e)
}.
Proof. all: intros; try destruct r; reflexivity. Defined.

#[export, refine] Instance DbSmartContract_Entity : Entity DbSmartContract := {
  canonical := sc_canonical;
  with_canonical c s :=
    mkDbSmartContract (sc_tx_id s) (sc_contract_id s) (sc_block_height s)
      (sc_source_code s) (sc_abi s) c
}.
Proof. all: intros; try destruct r; reflexivity. Defined.

(** ** Tables

    The event and contract tables have an [index_block_hash] column that
    the in-memory records lack: the inserts fill it from the owning
    transaction. *)

Record Row (E : Type) := mkRow {
  row_index_block_hash : Hash;
  row_data : E
}.
Arguments mkRow {E} _ _.
Arguments row_index_block_hash {E} _.
Arguments row_data {E} _.

#[export, refine] Instance Row_Entity (E : Type) `{Entity E} : Entity (Row E) := {
  canonical r := canonical (row_data r);
  with_canonical c r :=
    mkRow (row_index_block_hash r) (with_canonical c (row_data r))
}.
Proof.
  - intros c r. apply canonical_with.
  - intros [h e]. cbn. now rewrite with_canonical_id.
  - intros c c' [h e]. cbn. now rewrite with_canonical_twice.
Defined.

(** The hash a row is stored under. *)
Class Stored (R : Type) `{Entity R} := {
  stored_under : R -> Hash;
  stored_under_with :
    forall c r, stored_under (with_canonical c r) = stored_under r
}.

#[export, refine] Instance DbBlock_Stored : Stored DbBlock :=
  { stored_under := index_block_hash }.
Proof. reflexivity. Defined.

#[export, refine] Instance DbTx_Stored : Stored DbTx :=
  { stored_under := tx_index_block_hash }.
Proof. reflexivity. Defined.

#[export, refine] Instance Row_Stored (E : Type) `{Entity E} : Stored (Row E) :=
  { stored_under := row_index_block_hash }.
Proof. reflexivity. Defined.

Record Db := mkDb {
  blocks : list DbBlock;
  txs_table : list DbTx;
  stx_events : list (Row DbStxEvent);
  ft_events : list (Row DbFtEvent);
  nft_events : list (Row DbNftEvent);
  contract_logs : list (Row DbSmartContractEvent);
  smart_contracts : list (Row DbSmartContract)
}.

Definition empty_db : Db := mkDb [] [] [] [] [] [] [].

Definition set_blocks (t : list DbBlock) (db : Db) : Db :=
  mkDb t (txs_table db) (stx_events db) (ft_events db) (nft_events db)
    (contract_logs db) (smart_contracts db).
Definition set_txs (t : list DbTx) (db : Db) : Db :=
  mkDb (blocks db) t (stx_events db) (ft_events db) (nft_events db)
    (contract_logs db) (smart_contracts db).
Definition set_stx_events (t : list (Row DbStxEvent)) (db : Db) : Db :=
  mkDb (blocks db) (txs_table db) t (ft_events db) (nft_events db)
    (contract_logs db) (smart_contracts db).
Definition set_ft_events (t : list (Row DbFtEvent)) (db : Db) : Db :=
  mkDb (blocks db) (txs_table db) (stx_events db) t (nft_events db)
    (contract_logs db) (smart_contracts db).
Definition set_nft_events (t : list (Row DbNftEvent)) (db : Db) : Db :=
  mkDb (blocks db) (txs_table db) (stx_events db) (ft_events db) t
    (contract_logs db) (smart_contracts db).
Definition set_contract_logs (t : list (Row DbSmartContractEvent)) (db : Db) : Db :=
  mkDb (blocks db) (txs_table db) (stx_events db) (ft_events db)
    (nft_events db) t (smart_contracts db).
Definition set_smart_contracts (t : list (Row DbSmartContract)) (db : Db) : Db :=
  mkDb (blocks db) (txs_table db) (stx_events db) (ft_events db)
    (nft_events db) (contract_logs db) t.

(** ** The SQL fragment the store uses *)

(** [SELECT ... FROM t WHERE w]: the matching rows in scan order. *)
Definition sql_select {R} (w : R -> bool) (t : list R) : list R := filter w t.

(** [UPDATE t SET ... WHERE w RETURNING ...]: the rows as updated, and
    the table afterwards. *)
Definition sql_update {R} (w : R -> bool) (set : R -> R) (t : list R)
  : list R * list R :=
  (map set (filter w t), map (fun r => if w r then set r else r) t).

(** [MAX(col)] and [sum(col)] are [NULL] over no rows. *)
Definition sql_max (l : list Z) : option Z :=
  match l with
  | [] => None
  | x :: tl => Some (fold_left Z.max tl x)
  end.

Definition sql_sum (l : list Z) : option Z :=
  match l with
  | [] => None
  | _ => Some (fold_left Z.add l 0%Z)
  end.

(** [col = $1] on a nullable text column: never true on [NULL]. *)
Definition sql_eq_text (col : option string) (v : string) : bool :=
  match col with
  | Some s => String.eqb s v
  | None => false
  end.

(** JavaScript's [x ?? d]. *)
Definition nullish {A} (x : option A) (d : A) : A :=
  match x with Some a => a | None => d end.

(** ** What a pooled connection does

    A [Client] is one leased connection: [persisted] is the committed
    state every other connection reads, [pending] the state this
    connection's statements see and write. What the connection and the
    emitter do is recorded as a list of [Effect]s, oldest first. *)

Inductive Table :=
| Txs | StxEvents | FtEvents | NftEvents | ContractLogs | SmartContracts.

Inductive Statement :=
| SelectChainTip
| MarkCanonical (t : Table) (indexBlockHash : Hash) (flag : bool)
| RestoreBlock (indexBlockHash : Hash)
| OrphanBlocks (height : Z) (indexBlockHash : Hash)
| SelectOrphanedParent (height : Z) (indexBlockHash : Hash)
| SelectParent (height : Z) (indexBlockHash : Hash)
| InsertBlock (b : DbBlock)
| InsertTx (t : DbTx)
| InsertStxEvent (r : Row DbStxEvent)
| InsertFtEvent (r : Row DbFtEvent)
| InsertNftEvent (r : Row DbNftEvent)
| InsertContractLog (r : Row DbSmartContractEvent)
| InsertSmartContract (r : Row DbSmartContract).

Inductive Notification :=
| blockUpdate (b : DbBlock)
| txUpdate (t : DbTx).

Inductive Effect :=
| Begin
| Commit
| Rollback
| Query (s : Statement) (rowCount : nat)
| Rejected (s : Statement)
| Emit (n : Notification).

(** The [Error]s the store throws, one constructor per [throw] site, and
    the database's own refusal of a statement. *)
Inductive StoreError :=
| OrphanedBlockNotFound (indexBlockHash : Hash)
| MultipleOrphanedBlocks (indexBlockHash : Hash)
| MultipleOrphanedParents
| MultipleParents (height : Z) (indexBlockHash : Hash)
| ParentMissing (height : Z) (indexBlockHash : Hash)
| QueryFailed (s : Statement).

(** How a piece of store code ends: it returns, or it throws. The third
    outcome belongs to the bounded recursion that stands for
    [restoreOrphanedChain]; the store never ends with it
    ([returns_restoreOrphanedChain] below). *)
Inductive Outcome (A : Type) :=
| Ok (a : A)
| Throw (e : StoreError)
| OutOfFuel.
Arguments Ok {A} a.
Arguments Throw {A} e.
Arguments OutOfFuel {A}.

Record Client := mkClient {
  persisted : Db;
  pending : Db
}.

(** One run of a piece of store code: how it ended, the connection
    afterwards, and what it did. *)
Record Res (A : Type) := mkRes {
  res : Outcome A;
  conn : Client;
  events : list Effect
}.
Arguments mkRes {A} _ _ _.
Arguments res {A} _.
Arguments conn {A} _.
Arguments events {A} _.

Definition M (A : Type) : Type := Client -> Res A.

Definition ret {A} (a : A) : M A := fun c => mkRes (Ok a) c [].

Definition bind {A B} (m : M A) (k : A -> M B) : M B :=
  fun c =>
    let r := m c in
    match res r with
    | Ok a =>
        let r' := k a (conn r) in
        mkRes (res r') (conn r') (events r ++ events r')
    | Throw e => mkRes (Throw e) (conn r) (events r)
    | OutOfFuel => mkRes OutOfFuel (conn r) (events r)
    end.

Definition throw {A} (e : StoreError) : M A := fun c => mkRes (Throw e) c [].

Declare Scope store_scope.
Delimit Scope store_scope with store.
Notation "x <- m ;; k" := (bind m (fun x => k))
  (at level 100, m at next level, right associativity) : store_scope.
Notation "m ;;; k" := (bind m (fun _ => k))
  (at level 100, right associativity) : store_scope.
Open Scope store_scope.

(** [client.query] of a [SELECT] or of an [UPDATE ... RETURNING]: the
    rows; [rowCount] is their number. *)
Definition query_rows {R} (s : Statement) (run : Db -> list R * Db) : M (list R) :=
  fun c =>
    let (rows, db) := run (pending c) in
    mkRes (Ok rows) (mkClient (persisted c) db) [Query s (length rows)].

(** [client.query] of a statement without rows: its [rowCount]. *)
Definition query_count (s : Statement) (run : Db -> nat * Db) : M nat :=
  fun c =>
    let (n, db) := run (pending c) in
    mkRes (Ok n) (mkClient (persisted c) db) [Query s n].

Definition query_begin : M unit := fun c => mkRes (Ok tt) c [Begin].

Definition query_commit : M unit :=
  fun c => mkRes (Ok tt) (mkClient (pending c) (pending c)) [Commit].

Definition query_rollback : M unit :=
  fun c => mkRes (Ok tt) (mkClient (persisted c) (persisted c)) [Rollback].

Definition emit (n : Notification) : M unit :=
  fun c => mkRes (Ok tt) c [Emit n].

Fixpoint for_each {A} (l : list A) (f : A -> M unit) : M unit :=
  match l with
  | [] => ret tt
  | x :: tl => f x ;;; for_each tl f
  end.

(** [pool.connect()]: a connection outside any transaction. *)
Definition connect (db : Db) : Client := mkClient db db.

(** ** [getChainTipHeight] *)

Record ChainTip := mkChainTip {
  blockHeight : Z;
  blockHash : Hash;
  indexBlockHash : Hash
}.

(** [Buffer.from([])] in 0x-prefixed hex. *)
Definition empty_buffer : Hash := "0x"%string.

Definition chain_tip_rows (db : Db) : list DbBlock :=
  sql_select
    (fun b =>
       canonical b &&
       match sql_max (map block_height (blocks db)) with
       | Some m => Z.eqb (block_height b) m
       | None => false
       end)
    (blocks db).

Definition getChainTipHeight : M ChainTip :=
  currentTipBlock <- query_rows SelectChainTip (fun db => (chain_tip_rows db, db)) ;;
  let row0 := hd_error currentTipBlock in
  let height := nullish (option_map block_height row0) 0%Z in
  ret (mkChainTip height
         (nullish (option_map block_hash row0) empty_buffer)
         (nullish (option_map index_block_hash row0) empty_buffer)).

(** ** [markEntitiesCanonical] *)

Record UpdatedEntities := mkUpdated {
  upd_blocks : nat;
  upd_txs : nat;
  upd_stxEvents : nat;
  upd_ftEvents : nat;
  upd_nftEvents : nat;
  upd_contractLogs : nat;
  upd_smartContracts : nat
}.

Definition no_updates : UpdatedEntities := mkUpdated 0 0 0 0 0 0 0.

(** [updatedEntities.blocks++] *)
Definition incr_blocks (u : UpdatedEntities) : UpdatedEntities :=
  mkUpdated (S (upd_blocks u)) (upd_txs u) (upd_stxEvents u) (upd_ftEvents u)
    (upd_nftEvents u) (upd_contractLogs u) (upd_smartContracts u).

(** [UPDATE t SET canonical = $2 WHERE index_block_hash = $1 AND
    canonical != $2] on one table. *)
Definition mark_table {R} `{Stored R} (h : Hash) (flag : bool) (t : list R)
  : nat * list R :=
  let (rows, t') :=
    sql_update
      (fun r => String.eqb (stored_under r) h && negb (Bool.eqb (canonical r) flag))
      (with_canonical flag) t in
  (length rows, t').

Definition markEntitiesCanonical (indexBlockHash : Hash) (flag : bool)
    (updatedEntities : UpdatedEntities) : M UpdatedEntities :=
  txResult <- query_count (MarkCanonical Txs indexBlockHash flag)
    (fun db => let (n, t) := mark_table indexBlockHash flag (txs_table db) in
               (n, set_txs t db)) ;;
  stxResults <- query_count (MarkCanonical StxEvents indexBlockHash flag)
    (fun db => let (n, t) := mark_table indexBlockHash flag (stx_events db) in
               (n, set_stx_events t db)) ;;
  ftResult <- query_count (MarkCanonical FtEvents indexBlockHash flag)
    (fun db => let (n, t) := mark_table indexBlockHash flag (ft_events db) in
               (n, set_ft_events t db)) ;;
  nftResult <- query_count (MarkCanonical NftEvents indexBlockHash flag)
    (fun db => let (n, t) := mark_table indexBlockHash flag (nft_events db) in
               (n, set_nft_events t db)) ;;
  contractLogResult <- query_count (MarkCanonical ContractLogs indexBlockHash flag)
    (fun db => let (n, t) := mark_table indexBlockHash flag (contract_logs db) in
               (n, set_contract_logs t db)) ;;
  smartContractResult <- query_count (MarkCanonical SmartContracts indexBlockHash flag)
    (fun db => let (n, t) := mark_table indexBlockHash flag (smart_contracts db) in
               (n, set_smart_contracts t db)) ;;
  ret (mkUpdated (upd_blocks updatedEntities)
         (upd_txs updatedEntities + txResult)
         (upd_stxEvents updatedEntities + stxResults)
         (upd_ftEvents updatedEntities + ftResult)
         (upd_nftEvents updatedEntities + nftResult)
         (upd_contractLogs updatedEntities + contractLogResult)
         (upd_smartContracts updatedEntities + smartContractResult)).

(** ** [restoreOrphanedChain] *)

(** The three statements on [blocks]. *)
Definition restore_block (h : Hash) (db : Db) : list DbBlock * Db :=
  let (rows, t) :=
    sql_update
      (fun b => String.eqb (index_block_hash b) h && negb (canonical b))
      (with_canonical true) (blocks db) in
  (rows, set_blocks t db).

Definition orphan_blocks (height : Z) (h : Hash) (db : Db) : list DbBlock * Db :=
  let (rows, t) :=
    sql_update
      (fun b => Z.eqb (block_height b) height
                && negb (String.eqb (index_block_hash b) h)
                && canonical b)
      (with_canonical false) (blocks db) in
  (rows, set_blocks t db).

Definition orphaned_parent (height : Z) (h : Hash) (db : Db) : list DbBlock * Db :=
  (sql_select
     (fun b => Z.eqb (block_height b) height
               && String.eqb (index_block_hash b) h
               && negb (canonical b))
     (blocks db),
   db).

(** The recursion of the source runs on the rows it finds; [fuel] bounds
    its depth here, and [restoreOrphanedChain] below supplies enough. *)
Fixpoint restoreOrphanedChain_rec (fuel : nat) (indexBlockHash : Hash)
    (updatedEntities : UpdatedEntities) : M UpdatedEntities :=
  match fuel with
  | O => fun c => mkRes OutOfFuel c []
  | S fuel' =>
    blockResult <- query_rows (RestoreBlock indexBlockHash)
                     (restore_block indexBlockHash) ;;
    match blockResult with
    | [] => throw (OrphanedBlockNotFound indexBlockHash)
    | _ :: _ :: _ => throw (MultipleOrphanedBlocks indexBlockHash)
    | [row0] =>
      orphanedBlockResult <- query_rows
        (OrphanBlocks (block_height row0) indexBlockHash)
        (orphan_blocks (block_height row0) indexBlockHash) ;;
      updatedEntities <-
        match orphanedBlockResult with
        | orphan :: _ =>
            markEntitiesCanonical (index_block_hash orphan) false updatedEntities
        | [] => ret updatedEntities
        end ;;
      updatedEntities <- markEntitiesCanonical indexBlockHash true updatedEntities ;;
      parentResult <- query_rows
        (SelectOrphanedParent (block_height row0 - 1) (parent_index_block_hash row0))
        (orphaned_parent (block_height row0 - 1) (parent_index_block_hash row0)) ;;
      match parentResult with
      | _ :: _ :: _ => throw MultipleOrphanedParents
      | [parent] =>
          restoreOrphanedChain_rec fuel' (index_block_hash parent)
            (incr_blocks updatedEntities)
      | [] => ret updatedEntities
      end
    end
  end.

Definition restoreOrphanedChain (indexBlockHash : Hash)
    (updatedEntities : UpdatedEntities) : M UpdatedEntities :=
  fun c =>
    restoreOrphanedChain_rec (S (length (blocks (pending c))))
      indexBlockHash updatedEntities c.

(** ** [handleReorg] *)

Definition select_parent (height : Z) (h : Hash) (db : Db) : list DbBlock * Db :=
  (sql_select
     (fun b => Z.eqb (block_height b) height && String.eqb (index_block_hash b) h)
     (blocks db),
   db).

Definition handleReorg (blk : DbBlock) (chainTipHeight : Z) : M UpdatedEntities :=
  let updateEntities := no_updates in
  if (1 <? block_height blk)%Z then
    parentResult <- query_rows
      (SelectParent (block_height blk - 1) (parent_index_block_hash blk))
      (select_parent (block_height blk - 1) (parent_index_block_hash blk)) ;;
    match parentResult with
    | _ :: _ :: _ =>
        throw (MultipleParents (block_height blk - 1) (parent_index_block_hash blk))
    | [] =>
        throw (ParentMissing (block_height blk - 1) (parent_index_block_hash blk))
    | [parent] =>
        if negb (canonical parent) && (chainTipHeight <? block_height blk)%Z then
          restoreOrphanedChain (index_block_hash parent) (incr_blocks updateEntities)
        else ret updateEntities
    end
  else ret updateEntities.

(** ** The inserts and [update]

    The migrations that declare the tables are not part of the sources
    at hand, so whatever else the schema refuses (a key on an event
    table, a [NOT NULL] column) is the parameter [rejects]: a statement
    it rejects in the state it runs in makes [client.query] throw. The
    two conflict targets the statements themselves name are modelled as
    written. *)

Section Store.

Variable rejects : Statement -> Db -> bool.

(** [INSERT ... ON CONFLICT ... DO NOTHING] when [conflict] holds of the
    table, a plain [INSERT] when [conflict] is constantly false; the new
    row goes to the end of the table. *)
Definition query_insert (s : Statement) (conflict : Db -> bool) (ins : Db -> Db)
  : M nat :=
  fun c =>
    if conflict (pending c) then
      mkRes (Ok 0) c [Query s 0]
    else if rejects s (pending c) then
      mkRes (Throw (QueryFailed s)) c [Rejected s]
    else
      mkRes (Ok 1) (mkClient (persisted c) (ins (pending c))) [Query s 1].

Definition updateBlock (blk : DbBlock) : M nat :=
  query_insert (InsertBlock blk)
    (fun db =>
       existsb (fun b => String.eqb (index_block_hash b) (index_block_hash blk))
         (blocks db))
    (fun db => set_blocks (blocks db ++ [blk]) db).

Definition updateTx (t : DbTx) : M nat :=
  query_insert (InsertTx t)
    (fun db =>
       existsb (fun r => String.eqb (tx_id r) (tx_id t)
                         && String.eqb (tx_index_block_hash r) (tx_index_block_hash t))
         (txs_table db))
    (fun db => set_txs (txs_table db ++ [t]) db).

Definition updateStxEvent (t : DbTx) (event : DbStxEvent) : M unit :=
  let r := mkRow (tx_index_block_hash t) event in
  query_insert (InsertStxEvent r) (fun _ => false)
    (fun db => set_stx_events (stx_events db ++ [r]) db) ;;; ret tt.

Definition updateFtEvent (t : DbTx) (event : DbFtEvent) : M unit :=
  let r := mkRow (tx_index_block_hash t) event in
  query_insert (InsertFtEvent r) (fun _ => false)
    (fun db => set_ft_events (ft_events db ++ [r]) db) ;;; ret tt.

Definition updateNftEvent (t : DbTx) (event : DbNftEvent) : M unit :=
  let r := mkRow (tx_index_block_hash t) event in
  query_insert (InsertNftEvent r) (fun _ => false)
    (fun db => set_nft_events (nft_events db ++ [r]) db) ;;; ret tt.

Definition updateSmartContractEvent (t : DbTx) (event : DbSmartContractEvent)
  : M unit :=
  let r := mkRow (tx_index_block_hash t) event in
  query_insert (InsertContractLog r) (fun _ => false)
    (fun db => set_contract_logs (contract_logs db ++ [r]) db) ;;; ret tt.

Definition updateSmartContract (t : DbTx) (smartContract : DbSmartContract)
  : M unit :=
  let r := mkRow (tx_index_block_hash t) smartContract in
  query_insert (InsertSmartContract r) (fun _ => false)
    (fun db => set_smart_contracts (smart_contracts db ++ [r]) db) ;;; ret tt.

(** The assignments [canonical = false] of [update]: they write into the
    caller's batch, which is why [update] hands the batch back. *)
Definition mark_entry_non_canonical (e : DataStoreTxEntry) : DataStoreTxEntry :=
  mkEntry (with_canonical false (tx e))
    (map (with_canonical false) (stxEvents e))
    (map (with_canonical false) (ftEvents e))
    (map (with_canonical false) (nftEvents e))
    (map (with_canonical false) (contractLogEvents e))
    (map (with_canonical false) (smartContracts e)).

Definition mark_non_canonical (data : DataStoreUpdateData) : DataStoreUpdateData :=
  mkData (with_canonical false (block data))
    (map mark_entry_non_canonical (txs data)).

(** The body of the loop over [data.txs]. *)
Definition insert_entry (entry : DataStoreTxEntry) : M unit :=
  updateTx (tx entry) ;;;
  for_each (stxEvents entry) (updateStxEvent (tx entry)) ;;;
  for_each (ftEvents entry) (updateFtEvent (tx entry)) ;;;
  for_each (nftEvents entry) (updateNftEvent (tx entry)) ;;;
  for_each (contractLogEvents entry) (updateSmartContractEvent (tx entry)) ;;;
  for_each (smartContracts entry) (updateSmartContract (tx entry)).

(** What [update] does with the batch once the reorg check is through. *)
Definition write_batch (data : DataStoreUpdateData) : M unit :=
  blocksUpdated <- updateBlock (block data) ;;
  (if Nat.eqb blocksUpdated 0 then ret tt
   else for_each (txs data) insert_entry) ;;;
  query_commit ;;;
  emit (blockUpdate (block data)) ;;;
  for_each (txs data) (fun entry => emit (txUpdate (tx entry))).

Record Run := mkRun {
  outcome : Outcome unit;
  client : Client;
  trace : list Effect;
  batch : DataStoreUpdateData
}.

(** The [try] block. *)
Definition update_try (data : DataStoreUpdateData) (c : Client) : Run :=
  let r :=
    (query_begin ;;;
     chainTip <- getChainTipHeight ;;
     handleReorg (block data) (blockHeight chainTip) ;;;
     ret chainTip) c in
  match res r with
  | Ok chainTip =>
      let data :=
        if (block_height (block data) <=? blockHeight chainTip)%Z
        then mark_non_canonical data else data in
      let w := write_batch data (conn r) in
      mkRun (res w) (conn w) (events r ++ events w) data
  | Throw e => mkRun (Throw e) (conn r) (events r) data
  | OutOfFuel => mkRun OutOfFuel (conn r) (events r) data
  end.

(** [update]: the [try] block, and [ROLLBACK] and rethrow in [catch]. *)
Definition update (data : DataStoreUpdateData) (db : Db) : Run :=
  let r := update_try data (connect db) in
  match outcome r with
  | Throw e =>
      let rb := query_rollback (client r) in
      mkRun (Throw e) (conn rb) (trace r ++ events rb) (batch r)
  | _ => r
  end.

End Store.

(** ** [getStxBalance] *)

Record StxBalance := mkStxBalance {
  balance : Z;
  totalSent : Z;
  totalReceived : Z
}.

Definition getStxBalance (db : Db) (stxAddress : Address) : StxBalance :=
  let transfers :=
    sql_select
      (fun e => canonical e
                && (sql_eq_text (stx_sender (row_data e)) stxAddress
                    || sql_eq_text (stx_recipient (row_data e)) stxAddress))
      (stx_events db) in
  let credit_total :=
    sql_sum (map (fun e => stx_amount (row_data e))
               (sql_select
                  (fun e => sql_eq_text (stx_recipient (row_data e)) stxAddress)
                  transfers)) in
  let debit_total :=
    sql_sum (map (fun e => stx_amount (row_data e))
               (sql_select
                  (fun e => sql_eq_text (stx_sender (row_data e)) stxAddress)
                  transfers)) in
  let totalSent := nullish debit_total 0%Z in
  let totalReceived := nullish credit_total 0%Z in
  let balanceTotal := (totalReceived - totalSent)%Z in
  mkStxBalance balanceTotal totalSent totalReceived.

(** * The read queries

    The read methods go through [pool.query], or through a connection
    that opens no transaction: every statement of theirs sees the
    committed state, which is the [Db] they take here. The order of the
    rows that tie under an [ORDER BY] is the database's choice; here
    they stay in scan order, and the statements below say what holds of
    any choice. *)

(** What makes a read method throw: Postgres refuses a negative [LIMIT]
    or [OFFSET], and [BigInt(null)] is a [TypeError]. *)
Inductive ReadError :=
| NegativePaging
| BigIntOfNull.

Inductive Read (A : Type) :=
| Got (a : A)
| Fails (e : ReadError).
Arguments Got {A} a.
Arguments Fails {A} e.

Definition read_bind {A B} (m : Read A) (k : A -> Read B) : Read B :=
  match m with
  | Got a => k a
  | Fails e => Fails e
  end.

Declare Scope read_scope.
Delimit Scope read_scope with read.
Notation "x <- m ;; k" := (read_bind m (fun x => k))
  (at level 100, m at next level, right associativity) : read_scope.

(** [rows.map(f)] with an [f] that may throw: the first throw ends it. *)
Fixpoint read_all {A B} (f : A -> Read B) (rows : list A) : Read (list B) :=
  match rows with
  | [] => Got []
  | r :: tl => (b <- f r ;; bs <- read_all f tl ;; Got (b :: bs))%read
  end.

(** [{ found: true, result }] and [{ found: false }]. *)
Inductive Lookup (A : Type) :=
| found (result : A)
| not_found.
Arguments found {A} result.
Arguments not_found {A}.

(** [{ results, total }]. *)
Record Page (A : Type) := mkPage {
  results : list A;
  total : nat
}.
Arguments mkPage {A} _ _.
Arguments results {A} _.
Arguments total {A} _.

(** ** Sorting and paging *)

Fixpoint insert_by {R} (before : R -> R -> bool) (x : R) (l : list R) : list R :=
  match l with
  | [] => [x]
  | y :: tl => if before x y then x :: y :: tl else y :: insert_by before x tl
  end.

(** A stable sort: [before x y] says that [x] need not come after [y]. *)
Definition stable_sort {R} (before : R -> R -> bool) (l : list R) : list R :=
  fold_right (insert_by before) [] l.

(** [ORDER BY k1 DESC, k2 DESC, ...] *)
Fixpoint desc_by {R} (keys : list (R -> Z)) (x y : R) : bool :=
  match keys with
  | [] => true
  | k :: ks => (k y <? k x)%Z || ((k x =? k y)%Z && desc_by ks x y)
  end.

Definition sql_order_by_desc {R} (keys : list (R -> Z)) (t : list R) : list R :=
  stable_sort (desc_by keys) t.

(** A boolean column as a sort key: [false] sorts below [true]. *)
Definition rank (b : bool) : Z := if b then 1%Z else 0%Z.

(** [LIMIT $1 OFFSET $2] with integer parameters. *)
Definition sql_limit_offset {R} (limit offset : Z) (rows : list R) : Read (list R) :=
  if ((limit <? 0) || (offset <? 0))%Z then Fails NegativePaging
  else Got (firstn (Z.to_nat limit) (skipn (Z.to_nat offset) rows)).

(** [Array.prototype.sort(cmp)] for a consistent comparator: stable. *)
Definition js_sort {A} (cmp : A -> A -> Z) (l : list A) : list A :=
  stable_sort (fun a b => (cmp a b <=? 0)%Z) l.

(** ** Blocks *)

Definition parseBlockQueryResult (row : DbBlock) : DbBlock :=
  mkDbBlock (block_hash row) (index_block_hash row) (parent_index_block_hash row)
    (parent_block_hash row) (parent_microblock row) (block_height row)
    (burn_block_time row) (block_canonical row).

Definition getBlock (blockHash : Hash) (db : Db) : Lookup DbBlock :=
  let result :=
    firstn 1
      (sql_order_by_desc [fun b => rank (canonical b); block_height]
         (sql_select (fun b => String.eqb (block_hash b) blockHash) (blocks db))) in
  match result with
  | [] => not_found
  | row :: _ => found (parseBlockQueryResult row)
  end.

Definition getBlocks (limit offset : Z) (db : Db) : Read (Page DbBlock) :=
  let totalQuery := length (sql_select canonical (blocks db)) in
  (rows <- sql_limit_offset limit offset
                (sql_order_by_desc [block_height]
                   (sql_select canonical (blocks db))) ;;
   Got (mkPage (map parseBlockQueryResult rows) totalQuery))%read.

(** ** Transactions *)

(** A row of [txs] holds what [updateTx] wrote, so its [type_id] is one
    of the five and the last [else] of the source is not reached. *)
Definition parseTxQueryResult (result : DbTx) : Read DbTx :=
  let tx (recipient : option Address) (amount : option Z)
         (memo contract_id source_code call_contract_id function_name
          function_args header_1 header_2 payload : option string) :=
    mkDbTx (tx_id result) (tx_index result) (tx_index_block_hash result)
      (tx_block_hash result) (tx_block_height result) (tx_burn_block_time result)
      (type_id result) (status result) (tx_canonical result)
      (post_conditions result) (fee_rate result) (sponsored result)
      (sender_address result) (origin_hash_mode result)
      recipient amount memo contract_id source_code call_contract_id
      function_name function_args header_1 header_2 payload in
  match type_id result with
  | TokenTransfer =>
      match token_transfer_amount result with
      | Some amount =>
          Got (tx (token_transfer_recipient_address result) (Some amount)
                 (token_transfer_memo result)
                 None None None None None None None None)
      | None => Fails BigIntOfNull
      end
  | SmartContract =>
      Got (tx None None None
             (smart_contract_contract_id result) (smart_contract_source_code result)
             None None None None None None)
  | ContractCall =>
      Got (tx None None None None None
             (contract_call_contract_id result) (contract_call_function_name result)
             (contract_call_function_args result)
             None None None)
  | PoisonMicroblock =>
      Got (tx None None None None None None None None
             (poison_microblock_header_1 result) (poison_microblock_header_2 result)
             None)
  | Coinbase =>
      Got (tx None None None None None None None None None None
             (coinbase_payload result))
  end.

Definition getTx (txId : Hash) (db : Db) : Read (Lookup DbTx) :=
  let result :=
    firstn 1
      (sql_order_by_desc [fun t => rank (canonical t); tx_block_height]
         (sql_select (fun t => String.eqb (tx_id t) txId) (txs_table db))) in
  match result with
  | [] => Got not_found
  | row :: _ => (tx <- parseTxQueryResult row ;; Got (found tx))%read
  end.

Definition DbTxTypeId_eqb (a b : DbTxTypeId) : bool :=
  match a, b with
  | TokenTransfer, TokenTransfer
  | SmartContract, SmartContract
  | ContractCall, ContractCall
  | PoisonMicroblock, PoisonMicroblock
  | Coinbase, Coinbase => true
  | _, _ => false
  end.

(** [getTxTypeId] of [src/api/controllers/db-controller] maps the API's
    transaction types to [DbTxTypeId]. *)
Section TxList.

Variable TransactionType : Type.
Variable getTxTypeId : TransactionType -> DbTxTypeId.

Definition getTxList (limit offset : Z) (txTypeFilter : list TransactionType)
    (db : Db) : Read (Page DbTx) :=
  let queries (wanted : DbTx -> bool) :=
    let totalQuery := length (sql_select wanted (txs_table db)) in
    (resultQuery <- sql_limit_offset limit offset
                      (sql_order_by_desc [tx_block_height; tx_index]
                         (sql_select wanted (txs_table db))) ;;
     Got (totalQuery, resultQuery))%read in
  (q <- (if Nat.eqb (length txTypeFilter) 0 then queries canonical
         else
           let txTypeIds := map getTxTypeId txTypeFilter in
           queries (fun t => canonical t
                             && existsb (DbTxTypeId_eqb (type_id t)) txTypeIds)) ;;
   parsed <- read_all parseTxQueryResult (snd q) ;;
   Got (mkPage parsed (fst q)))%read.

End TxList.

(** ** Events *)

(** [DbEvent], tagged by its [event_type]. *)
Inductive DbEvent :=
| SmartContractLog (e : DbSmartContractEvent)
| StxAsset (e : DbStxEvent)
| FungibleTokenAsset (e : DbFtEvent)
| NonFungibleTokenAsset (e : DbNftEvent).

Definition event_index (e : DbEvent) : Z :=
  match e with
  | SmartContractLog e => log_event_index e
  | StxAsset e => stx_event_index e
  | FungibleTokenAsset e => ft_event_index e
  | NonFungibleTokenAsset e => nft_event_index e
  end.

(** The event objects the read methods build from a row. *)
Definition stx_event_of (result : Row DbStxEvent) : DbEvent :=
  let r := row_data result in
  StxAsset
    (mkDbStxEvent (stx_event_index r) (stx_tx_id r) (stx_tx_index r)
       (stx_block_height r) (stx_canonical r) (stx_asset_event_type_id r)
       (stx_sender r) (stx_recipient r) (stx_amount r)).

Definition ft_event_of (result : Row DbFtEvent) : DbEvent :=
  let r := row_data result in
  FungibleTokenAsset
    (mkDbFtEvent (ft_event_index r) (ft_tx_id r) (ft_tx_index r)
       (ft_block_height r) (ft_canonical r) (ft_asset_event_type_id r)
       (ft_sender r) (ft_recipient r) (ft_asset_identifier r) (ft_amount r)).

Definition nft_event_of (result : Row DbNftEvent) : DbEvent :=
  let r := row_data result in
  NonFungibleTokenAsset
    (mkDbNftEvent (nft_event_index r) (nft_tx_id r) (nft_tx_index r)
       (nft_block_height r) (nft_canonical r) (nft_asset_event_type_id r)
       (nft_sender r) (nft_recipient r) (nft_asset_identifier r) (nft_value r)).

Definition log_event_of (result : Row DbSmartContractEvent) : DbEvent :=
  let r := row_data result in
  SmartContractLog
    (mkDbSmartContractEvent (log_event_index r) (log_tx_id r) (log_tx_index r)
       (log_block_height r) (log_canonical r) (log_contract_identifier r)
       (log_topic r) (log_value r)).

(** [WHERE tx_id = $1 AND index_block_hash = $2] *)
Definition of_tx {E} (id : E -> Hash) (txId indexBlockHash : Hash) (r : Row E)
  : bool :=
  String.eqb (id (row_data r)) txId
  && String.eqb (row_index_block_hash r) indexBlockHash.

Definition getTxEvents (txId indexBlockHash : Hash) (db : Db) : list DbEvent :=
  let stxResults := sql_select (of_tx stx_tx_id txId indexBlockHash) (stx_events db) in
  let ftResults := sql_select (of_tx ft_tx_id txId indexBlockHash) (ft_events db) in
  let nftResults := sql_select (of_tx nft_tx_id txId indexBlockHash) (nft_events db) in
  let logResults :=
    sql_select (of_tx log_tx_id txId indexBlockHash) (contract_logs db) in
  let events :=
    map stx_event_of stxResults ++ map ft_event_of ftResults
    ++ map nft_event_of nftResults ++ map log_event_of logResults in
  js_sort (fun a b => (event_index a - event_index b)%Z) events.

(** ** Smart contracts *)

Definition getSmartContract (contractId : string) (db : Db)
  : Lookup DbSmartContract :=
  let result :=
    firstn 1
      (sql_order_by_desc
         [fun r => rank (canonical r); fun r => sc_block_height (row_data r)]
         (sql_select (fun r => String.eqb (sc_contract_id (row_data r)) contractId)
            (smart_contracts db))) in
  match result with
  | [] => not_found
  | result :: _ =>
      let row := row_data result in
      found (mkDbSmartContract (sc_tx_id row) (sc_contract_id row)
               (sc_block_height row) (sc_source_code row) (sc_abi row)
               (sc_canonical row))
  end.

(** ** What an address holds and did *)

(** [WHERE canonical = true AND (sender = $1 OR recipient = $1)] *)
Definition transfers_of {E} `{Entity E} (sender recipient : E -> option Address)
    (stxAddress : Address) (t : list (Row E)) : list (Row E) :=
  sql_select
    (fun e => canonical e
              && (sql_eq_text (sender (row_data e)) stxAddress
                  || sql_eq_text (recipient (row_data e)) stxAddress))
    t.

Definition event_block_height (e : DbEvent) : Z :=
  match e with
  | SmartContractLog e => log_block_height e
  | StxAsset e => stx_block_height e
  | FungibleTokenAsset e => ft_block_height e
  | NonFungibleTokenAsset e => nft_block_height e
  end.

Definition event_tx_index (e : DbEvent) : Z :=
  match e with
  | SmartContractLog e => log_tx_index e
  | StxAsset e => stx_tx_index e
  | FungibleTokenAsset e => ft_tx_index e
  | NonFungibleTokenAsset e => nft_tx_index e
  end.

(** The rows of the three selects carry their [asset_type]; the method
    turns each into the event of that type, which is what the rows are
    here from the start. *)
Definition getAddressAssetEvents (stxAddress : Address) (limit offset : Z)
    (db : Db) : Read (Page DbEvent) :=
  let asset_events :=
    map stx_event_of (transfers_of stx_sender stx_recipient stxAddress (stx_events db))
    ++ map ft_event_of (transfers_of ft_sender ft_recipient stxAddress (ft_events db))
    ++ map nft_event_of
         (transfers_of nft_sender nft_recipient stxAddress (nft_events db)) in
  (rows <- sql_limit_offset limit offset
                (sql_order_by_desc [event_block_height; event_tx_index; event_index]
                   asset_events) ;;
   Got (mkPage rows 0))%read.

(** [SELECT key, agg(...) FROM rows GROUP BY key]: one row per key. *)
Definition sql_group_by {R} (key : R -> string) (agg : list R -> Z)
    (rows : list R) : list (string * Z) :=
  map (fun k => (k, agg (filter (fun r => String.eqb (key r) k) rows)))
    (nodup string_dec (map key rows)).

Definition sql_lookup {V} (k : string) (rows : list (string * V)) : option V :=
  option_map snd (find (fun r => String.eqb (fst r) k) rows).

(** [credit FULL JOIN debit USING (key)], with the key coalesced. *)
Definition sql_full_join (credit debit : list (string * Z))
  : list (string * (option Z * option Z)) :=
  map (fun c => (fst c, (Some (snd c), sql_lookup (fst c) debit))) credit
  ++ map (fun d => (fst d, (None, Some (snd d))))
       (filter (fun d => match sql_lookup (fst d) credit with
                         | Some _ => false
                         | None => true
                         end) debit).

(** [new Map(pairs)] and [Map.prototype.get]: a later pair replaces the
    value of an earlier one with its key, in the earlier one's place. *)
Fixpoint map_set {V} (k : string) (v : V) (m : list (string * V))
  : list (string * V) :=
  match m with
  | [] => [(k, v)]
  | (k', v') :: tl =>
      if String.eqb k' k then (k, v) :: tl else (k', v') :: map_set k v tl
  end.

Definition js_Map {V} (pairs : list (string * V)) : list (string * V) :=
  fold_left (fun m kv => map_set (fst kv) (snd kv) m) pairs [].

Definition map_get {V} (k : string) (m : list (string * V)) : option V :=
  sql_lookup k m.

Record NftCount := mkNftCount {
  count : Z;
  nft_totalSent : Z;
  nft_totalReceived : Z
}.

Section Balances.

(** [String.prototype.localeCompare] *)
Variable localeCompare : string -> string -> Z.

Definition getFungibleTokenBalances (stxAddress : Address) (db : Db)
  : list (string * StxBalance) :=
  let transfers := transfers_of ft_sender ft_recipient stxAddress (ft_events db) in
  let total (g : list (Row DbFtEvent)) :=
    fold_left Z.add (map (fun e => ft_amount (row_data e)) g) 0%Z in
  let credit :=
    sql_group_by (fun e => ft_asset_identifier (row_data e)) total
      (sql_select (fun e => sql_eq_text (ft_recipient (row_data e)) stxAddress)
         transfers) in
  let debit :=
    sql_group_by (fun e => ft_asset_identifier (row_data e)) total
      (sql_select (fun e => sql_eq_text (ft_sender (row_data e)) stxAddress)
         transfers) in
  let rows :=
    js_sort (fun r1 r2 => localeCompare (fst r1) (fst r2))
      (sql_full_join credit debit) in
  js_Map
    (map (fun r =>
            let totalSent := nullish (snd (snd r)) 0%Z in
            let totalReceived := nullish (fst (snd r)) 0%Z in
            let balance := (totalReceived - totalSent)%Z in
            (fst r, mkStxBalance balance totalSent totalReceived))
       rows).

Definition getNonFungibleTokenCounts (stxAddress : Address) (db : Db)
  : list (string * NftCount) :=
  let transfers := transfers_of nft_sender nft_recipient stxAddress (nft_events db) in
  let number (g : list (Row DbNftEvent)) := Z.of_nat (length g) in
  let credit :=
    sql_group_by (fun e => nft_asset_identifier (row_data e)) number
      (sql_select (fun e => sql_eq_text (nft_recipient (row_data e)) stxAddress)
         transfers) in
  let debit :=
    sql_group_by (fun e => nft_asset_identifier (row_data e)) number
      (sql_select (fun e => sql_eq_text (nft_sender (row_data e)) stxAddress)
         transfers) in
  let rows :=
    js_sort (fun r1 r2 => localeCompare (fst r1) (fst r2))
      (sql_full_join credit debit) in
  js_Map
    (map (fun r =>
            let totalSent := nullish (snd (snd r)) 0%Z in
            let totalReceived := nullish (fst (snd r)) 0%Z in
            let count := (totalReceived - totalSent)%Z in
            (fst r, mkNftCount count totalSent totalReceived))
       rows).

End Balances.

(** The window count of [getAddressTxs] is the number of rows the inner
    select matches, on every row of the page. *)
Definition getAddressTxs (stxAddress : Address) (limit offset : Z) (db : Db)
  : Read (Page DbTx) :=
  let transactions :=
    sql_select
      (fun t => canonical t
                && (String.eqb (sender_address t) stxAddress
                    || sql_eq_text (token_transfer_recipient_address t) stxAddress))
      (txs_table db) in
  (resultQuery <- sql_limit_offset limit offset
                    (sql_order_by_desc [tx_block_height; tx_index] transactions) ;;
   let count :=
     if Nat.ltb 0 (length resultQuery) then length transactions else 0 in
   parsed <- read_all parseTxQueryResult resultQuery ;;
   Got (mkPage parsed count))%read.

(** * Vocabulary of the statements *)

Definition sum_Z (l : list Z) : Z := fold_right Z.add 0%Z l.

(** The amounts of the canonical STX events in which the address plays
    the given role. *)
Definition canonical_amounts (role : DbStxEvent -> option Address)
    (a : Address) (db : Db) : list Z :=
  map (fun e => stx_amount (row_data e))
    (filter (fun e => canonical e && sql_eq_text (role (row_data e)) a)
       (stx_events db)).

(** The greatest height among the canonical blocks, if there is one. *)
Definition canonical_tip_height (db : Db) : option Z :=
  sql_max (map block_height (filter canonical (blocks db))).

(** The rows [handleReorg] looks the parent up in. *)
Definition parents_of (blk : DbBlock) (db : Db) : list DbBlock :=
  filter
    (fun b => Z.eqb (block_height b) (block_height blk - 1)
              && String.eqb (index_block_hash b) (parent_index_block_hash blk))
    (blocks db).

Definition is_restore (e : Effect) : bool :=
  match e with
  | Query (RestoreBlock _) _ => true
  | _ => false
  end.

(** A run put in front of another one's record. *)
Definition after_events {A} (evs : list Effect) (r : Res A) : Res A :=
  mkRes (res r) (conn r) (evs ++ events r).

Definition is_statement (e : Effect) : bool :=
  match e with
  | Query _ _ | Rejected _ => true
  | _ => false
  end.

(** A piece of store code that only issues statements: it leaves the
    committed state alone and neither commits, rolls back nor emits. *)
Definition statements_only {A} (m : M A) : Prop :=
  forall c,
    persisted (conn (m c)) = persisted c
    /\ forallb is_statement (events (m c)) = true.

(** The notifications of a record, in the order they were emitted. *)
Definition notifications (evs : list Effect) : list Notification :=
  flat_map (fun e => match e with Emit n => [n] | _ => [] end) evs.

(** The heights [restoreOrphanedChain] visits: the height argument of
    its orphaning statement, one per block it restores. *)
Definition visited (evs : list Effect) : list Z :=
  flat_map
    (fun e => match e with Query (OrphanBlocks k _) _ => [k] | _ => [] end)
    evs.

(** The number of calls of [restoreOrphanedChain]: each starts with one
    restore statement. *)
Definition calls (evs : list Effect) : nat := length (filter is_restore evs).

Fixpoint descending_by_one (l : list Z) : Prop :=
  match l with
  | a :: (b :: _) as tl => b = (a - 1)%Z /\ descending_by_one tl
  | _ => True
  end.

(** ** The statements of [restoreOrphanedChain] as changes of the tables

    What the statements of one call leave, written without their
    [canonical] guards and row counts; the proofs below run on it. *)

(** Give the flag to every row that satisfies [w]. *)
Definition flag_where {R} `{Entity R} (w : R -> bool) (flag : bool)
    (t : list R) : list R :=
  map (fun r => if w r then with_canonical flag r else r) t.

(** Give the flag to the transactions, events, contract logs and smart
    contracts stored under a block. *)
Definition flag_entities (h : Hash) (flag : bool) (db : Db) : Db :=
  let under {R} `{Stored R} (r : R) := String.eqb (stored_under r) h in
  mkDb (blocks db)
    (flag_where under flag (txs_table db))
    (flag_where under flag (stx_events db))
    (flag_where under flag (ft_events db))
    (flag_where under flag (nft_events db))
    (flag_where under flag (contract_logs db))
    (flag_where under flag (smart_contracts db)).

Definition flag_block (h : Hash) (db : Db) : Db :=
  set_blocks
    (flag_where (fun b => String.eqb (index_block_hash b) h) true (blocks db))
    db.

Definition is_sibling (height : Z) (h : Hash) (b : DbBlock) : bool :=
  Z.eqb (block_height b) height && negb (String.eqb (index_block_hash b) h).

Definition orphan_siblings (height : Z) (h : Hash) (db : Db) : Db :=
  set_blocks (flag_where (is_sibling height h) false (blocks db)) db.

(** The other blocks of that height that are canonical. *)
Definition canonical_siblings (height : Z) (h : Hash) (db : Db) : list DbBlock :=
  filter (fun b => is_sibling height h b && canonical b) (blocks db).

(** The tables after the statements of one call: the block canonical,
    its canonical siblings orphaned, [markEntitiesCanonical] run on the
    first row the orphaning statement returned, and the block's own
    entities canonical. *)
Definition restore_one (h : Hash) (b : DbBlock) (db : Db) : Db :=
  let db := flag_block h db in
  let orphaned := canonical_siblings (block_height b) h db in
  let db := orphan_siblings (block_height b) h db in
  let db :=
    match orphaned with
    | orphan :: _ => flag_entities (index_block_hash orphan) false db
    | [] => db
    end in
  flag_entities h true db.

(** The non-canonical blocks with a given hash, and the non-canonical
    blocks in the place of a block's parent. *)
Definition orphaned_with (h : Hash) (db : Db) : list DbBlock :=
  filter (fun b => String.eqb (index_block_hash b) h && negb (canonical b))
    (blocks db).

Definition orphaned_parents (b : DbBlock) (db : Db) : list DbBlock :=
  filter
    (fun p => Z.eqb (block_height p) (block_height b - 1)
              && String.eqb (index_block_hash p) (parent_index_block_hash b)
              && negb (canonical p))
    (blocks db).

Inductive restores : Db -> Hash -> Outcome Db -> Prop :=
| restores_not_found db h :
    orphaned_with h db = [] ->
    restores db h (Throw (OrphanedBlockNotFound h))
| restores_several db h b b' l :
    orphaned_with h db = b :: b' :: l ->
    restores db h (Throw (MultipleOrphanedBlocks h))
| restores_last db h b :
    orphaned_with h db = [b] ->
    orphaned_parents b (restore_one h b db) = [] ->
    restores db h (Ok (restore_one h b db))
| restores_parent db h b p r :
    orphaned_with h db = [b] ->
    orphaned_parents b (restore_one h b db) = [p] ->
    restores (restore_one h b db) (index_block_hash p) r ->
    restores db h r
| restores_several_parents db h b p p' l :
    orphaned_with h db = [b] ->
    orphaned_parents b (restore_one h b db) = p :: p' :: l ->
    restores db h (Throw MultipleOrphanedParents).

(** How a run ended, with the state it left when it returned. *)
Definition state_after {A} (r : Res A) : Outcome Db :=
  match res r with
  | Ok _ => Ok (pending (conn r))
  | Throw e => Throw e
  | OutOfFuel => OutOfFuel
  end.

(** The number of stored blocks below a height, and the depth that
    restoring a hash can reach at most. *)
Definition below (k : Z) (t : list DbBlock) : nat :=
  length (filter (fun x => (x <? k)%Z) (map block_height t)).

Definition need (h : Hash) (db : Db) : nat :=
  match orphaned_with h db with
  | [b] => S (below (block_height b + 1) (blocks db))
  | _ => 1
  end.

(** The part of [restoreOrphanedChain] before it looks at the parent
    rows. *)
Definition restore_step (h : Hash) (u : UpdatedEntities)
  : M (UpdatedEntities * list DbBlock) :=
  blockResult <- query_rows (RestoreBlock h) (restore_block h) ;;
  match blockResult with
  | [] => throw (OrphanedBlockNotFound h)
  | _ :: _ :: _ => throw (MultipleOrphanedBlocks h)
  | [row0] =>
    orphanedBlockResult <- query_rows (OrphanBlocks (block_height row0) h)
                             (orphan_blocks (block_height row0) h) ;;
    u <- match orphanedBlockResult with
         | orphan :: _ => markEntitiesCanonical (index_block_hash orphan) false u
         | [] => ret u
         end ;;
    u <- markEntitiesCanonical h true u ;;
    parentResult <- query_rows
      (SelectOrphanedParent (block_height row0 - 1) (parent_index_block_hash row0))
      (orphaned_parent (block_height row0 - 1) (parent_index_block_hash row0)) ;;
    ret (u, parentResult)
  end.

Definition restore_parents (fuel : nat) (r : UpdatedEntities * list DbBlock)
  : M UpdatedEntities :=
  match snd r with
  | _ :: _ :: _ => throw MultipleOrphanedParents
  | [parent] =>
      restoreOrphanedChain_rec fuel (index_block_hash parent)
        (incr_blocks (fst r))
  | [] => ret (fst r)
  end.

Definition is_mark (e : Effect) : bool :=
  match e with
  | Query (MarkCanonical _ _ _) _ => true
  | _ => false
  end.

(** A table with its [canonical] column blanked: what no statement of
    the reorg path changes. *)
Definition shape {R} `{Entity R} (t : list R) : list R :=
  map (with_canonical false) t.

Definition same_shape (db db' : Db) : Prop :=
  shape (blocks db') = shape (blocks db)
  /\ shape (txs_table db') = shape (txs_table db)
  /\ shape (stx_events db') = shape (stx_events db)
  /\ shape (ft_events db') = shape (ft_events db)
  /\ shape (nft_events db') = shape (nft_events db)
  /\ shape (contract_logs db') = shape (contract_logs db)
  /\ shape (smart_contracts db') = shape (smart_contracts db).

(** ** The steps as first described

    The same steps read without the guard of the first statement and
    with every orphaned sibling's entities flagged; a failure is any
    error. *)

Definition blocks_with (h : Hash) (db : Db) : list DbBlock :=
  filter (fun b => String.eqb (index_block_hash b) h) (blocks db).

Definition described_restore_one (h : Hash) (b : DbBlock) (db : Db) : Db :=
  let db := flag_block h db in
  let orphaned := canonical_siblings (block_height b) h db in
  let db := orphan_siblings (block_height b) h db in
  let db :=
    fold_left (fun d orphan => flag_entities (index_block_hash orphan) false d)
      orphaned db in
  flag_entities h true db.

Inductive described_restores : Db -> Hash -> Outcome Db -> Prop :=
| described_not_found db h e :
    blocks_with h db = [] ->
    described_restores db h (Throw e)
| described_several db h b b' l e :
    blocks_with h db = b :: b' :: l ->
    described_restores db h (Throw e)
| described_last db h b :
    blocks_with h db = [b] ->
    orphaned_parents b (described_restore_one h b db) = [] ->
    described_restores db h (Ok (described_restore_one h b db))
| described_parent db h b p l r :
    blocks_with h db = [b] ->
    orphaned_parents b (described_restore_one h b db) = p :: l ->
    described_restores (described_restore_one h b db) (index_block_hash p) r ->
    described_restores db h r.

(** ** The steps as amended

    The steps with the guard of the first statement and the failure on
    several orphaned parents, on states in which no two canonical blocks
    share a height; every orphaned block's entities are flagged, as
    first described. *)

(** The canonical blocks of a height. *)
Definition canonical_at (k : Z) (t : list DbBlock) : list DbBlock :=
  filter (fun b => Z.eqb (block_height b) k && canonical b) t.

(** No two canonical blocks share a height. *)
Definition one_canonical_per_height (db : Db) : bool :=
  forallb
    (fun b => Nat.leb (length (canonical_at (block_height b) (blocks db))) 1)
    (blocks db).

(** At most one canonical block at each height up to [top]. *)
Definition sparse_upto (top : Z) (db : Db) : Prop :=
  forall k, (k <= top)%Z -> length (canonical_at k (blocks db)) <= 1.

Inductive amended_restores : Db -> Hash -> Outcome Db -> Prop :=
| amended_not_found db h :
    orphaned_with h db = [] ->
    amended_restores db h (Throw (OrphanedBlockNotFound h))
| amended_several db h b b' l :
    orphaned_with h db = b :: b' :: l ->
    amended_restores db h (Throw (MultipleOrphanedBlocks h))
| amended_last db h b :
    orphaned_with h db = [b] ->
    orphaned_parents b (described_restore_one h b db) = [] ->
    amended_restores db h (Ok (described_restore_one h b db))
| amended_parent db h b p r :
    orphaned_with h db = [b] ->
    orphaned_parents b (described_restore_one h b db) = [p] ->
    amended_restores (described_restore_one h b db) (index_block_hash p) r ->
    amended_restores db h r
| amended_several_parents db h b p p' l :
    orphaned_with h db = [b] ->
    orphaned_parents b (described_restore_one h b db) = p :: p' :: l ->
    amended_restores db h (Throw MultipleOrphanedParents).

(** ** What [update] leaves behind *)

(** The value [getChainTipHeight] computes in a state. *)
Definition chain_tip (db : Db) : ChainTip :=
  let row0 := hd_error (chain_tip_rows db) in
  mkChainTip (nullish (option_map block_height row0) 0%Z)
    (nullish (option_map block_hash row0) empty_buffer)
    (nullish (option_map index_block_hash row0) empty_buffer).

(** A block is known when a stored block has its [index_block_hash]. *)
Definition block_known (db : Db) (blk : DbBlock) : bool :=
  existsb (fun b => String.eqb (index_block_hash b) (index_block_hash blk))
    (blocks db).

Definition tx_known (db : Db) (t : DbTx) : bool :=
  existsb (fun r => String.eqb (tx_id r) (tx_id t)
                    && String.eqb (tx_index_block_hash r) (tx_index_block_hash t))
    (txs_table db).

(** The tables once a batch is written: the block, and entry by entry
    the transaction, unless one with its key is stored, and all its
    events and contracts; each new row at the end of its table. *)
Definition store_block (blk : DbBlock) (db : Db) : Db :=
  set_blocks (blocks db ++ [blk]) db.

Definition store_tx (t : DbTx) (db : Db) : Db :=
  if tx_known db t then db else set_txs (txs_table db ++ [t]) db.

Definition store_entry (db : Db) (e : DataStoreTxEntry) : Db :=
  let under {E} (ev : E) := mkRow (tx_index_block_hash (tx e)) ev in
  let db := store_tx (tx e) db in
  mkDb (blocks db) (txs_table db)
    (stx_events db ++ map under (stxEvents e))
    (ft_events db ++ map under (ftEvents e))
    (nft_events db ++ map under (nftEvents e))
    (contract_logs db ++ map under (contractLogEvents e))
    (smart_contracts db ++ map under (smartContracts e)).

Definition written (data : DataStoreUpdateData) (db : Db) : Db :=
  fold_left store_entry (txs data) (store_block (block data) db).

(** A table that kept its rows in place and gained only non-canonical
    ones. *)
Definition added_non_canonical {R} `{Entity R} (t t' : list R) : Prop :=
  exists new,
    t' = t ++ new /\ forallb (fun r => negb (canonical r)) new = true.

Definition grows_non_canonical (db db' : Db) : Prop :=
  added_non_canonical (blocks db) (blocks db')
  /\ added_non_canonical (txs_table db) (txs_table db')
  /\ added_non_canonical (stx_events db) (stx_events db')
  /\ added_non_canonical (ft_events db) (ft_events db')
  /\ added_non_canonical (nft_events db) (nft_events db')
  /\ added_non_canonical (contract_logs db) (contract_logs db')
  /\ added_non_canonical (smart_contracts db) (smart_contracts db').

(** The rows a record says were inserted. *)
Definition rows_inserted (e : Effect) : nat :=
  match e with
  | Query (InsertBlock _) n | Query (InsertTx _) n
  | Query (InsertStxEvent _) n | Query (InsertFtEvent _) n
  | Query (InsertNftEvent _) n | Query (InsertContractLog _) n
  | Query (InsertSmartContract _) n => n
  | _ => 0
  end.

Definition total_inserted (evs : list Effect) : nat :=
  list_sum (map rows_inserted evs).

(** The notifications [update] sends for a batch. *)
Definition batch_notifications (data : DataStoreUpdateData) : list Notification :=
  blockUpdate (block data) :: map (fun entry => txUpdate (tx entry)) (txs data).

Definition tx_index_of (n : Notification) : list Z :=
  match n with
  | txUpdate t => [tx_index t]
  | blockUpdate _ => []
  end.

(** The stored blocks from a height upwards. *)
Definition upper (k : Z) (t : list DbBlock) : list DbBlock :=
  filter (fun b => (k <=? block_height b)%Z) t.

(** A piece of store code that never runs out of fuel. *)
Definition returns {A} (m : M A) : Prop := forall c, res (m c) <> OutOfFuel.

(** [update] up to the reorg check. *)
Definition prelude (data : DataStoreUpdateData) : M ChainTip :=
  query_begin ;;;
  chainTip <- getChainTipHeight ;;
  handleReorg (block data) (blockHeight chainTip) ;;;
  ret chainTip.

(** A piece of store code whose record shows no inserted row. *)
Definition inserts_nothing {A} (m : M A) : Prop :=
  forall c, total_inserted (events (m c)) = 0.

(** ** What the read queries answer *)

(** A comparison that orders any two rows, and does so transitively. *)
Definition orders {R} (before : R -> R -> bool) : Prop :=
  (forall x y, before x y = true \/ before y x = true)
  /\ (forall x y z, before x y = true -> before y z = true -> before x z = true).

Definition differing {R} `{Stored R} (h : Hash) (flag : bool) (t : list R) : nat :=
  length (filter (fun r => String.eqb (stored_under r) h
                           && negb (Bool.eqb (canonical r) flag)) t).

(** A piece of store code that always returns. *)
Definition succeeds {A} (m : M A) : Prop := forall c, exists a, res (m c) = Ok a.

(** The reorg check of a block that needs no chain restored. *)
Definition settled (blk : DbBlock) (tip : Z) (db : Db) : Prop :=
  (block_height blk <= 1)%Z
  \/ exists p,
       parents_of blk db = [p]
       /\ (canonical p = true \/ (block_height blk <= tip)%Z).

Definition is_restore_error (e : StoreError) : bool :=
  match e with
  | OrphanedBlockNotFound _ | MultipleOrphanedBlocks _ | MultipleOrphanedParents =>
      true
  | _ => false
  end.

(** A piece of store code whose errors all satisfy [P]. *)
Definition throws_only {A} (P : StoreError -> Prop) (m : M A) : Prop :=
  forall c e, res (m c) = Throw e -> P e.

(** The error of a statement the schema refused. *)
Definition refusal (rejects : Statement -> Db -> bool) (e : StoreError) : Prop :=
  match e with
  | QueryFailed s => exists d, rejects s d = true
  | _ => False
  end.

(** What an error of the reorg check says of the stored blocks. *)
Definition reorg_error (blk : DbBlock) (tip : Z) (db : Db) (e : StoreError) : Prop :=
  (1 < block_height blk)%Z
  /\ match e with
     | ParentMissing height hash =>
         parents_of blk db = []
         /\ height = (block_height blk - 1)%Z
         /\ hash = parent_index_block_hash blk
     | MultipleParents height hash =>
         2 <= length (parents_of blk db)
         /\ height = (block_height blk - 1)%Z
         /\ hash = parent_index_block_hash blk
     | QueryFailed _ => False
     | _ =>
         (tip < block_height blk)%Z
         /\ exists p, parents_of blk db = [p] /\ canonical p = false
     end.

(** A table that kept every row in its place, the flags apart, and may
    have gained rows at its end. *)
Definition kept {R} `{Entity R} (t t' : list R) : Prop :=
  exists new, shape t' = shape t ++ new.

Definition keeps_rows (db db' : Db) : Prop :=
  kept (blocks db) (blocks db')
  /\ kept (txs_table db) (txs_table db')
  /\ kept (stx_events db) (stx_events db')
  /\ kept (ft_events db) (ft_events db')
  /\ kept (nft_events db) (nft_events db')
  /\ kept (contract_logs db) (contract_logs db')
  /\ kept (smart_contracts db) (smart_contracts db').

(** The rows a batch adds to an event or contract table. *)
Definition batch_rows {E} (get : DataStoreTxEntry -> list E)
    (data : DataStoreUpdateData) : list (Row E) :=
  flat_map (fun e => map (mkRow (tx_index_block_hash (tx e))) (get e)) (txs data).

(** The state with its non-canonical rows left out. *)
Definition canonical_rows (db : Db) : Db :=
  mkDb (filter canonical (blocks db)) (filter canonical (txs_table db))
    (filter canonical (stx_events db)) (filter canonical (ft_events db))
    (filter canonical (nft_events db)) (filter canonical (contract_logs db))
    (filter canonical (smart_contracts db)).

(** The amounts of the canonical STX events of a batch in which the
    address plays the given role. *)
Definition batch_amounts (role : DbStxEvent -> option Address) (a : Address)
    (data : DataStoreUpdateData) : list Z :=
  map stx_amount
    (filter (fun ev => canonical ev && sql_eq_text (role ev) a)
       (flat_map stxEvents (txs data))).

(** [page] holds the rows [offset + 1] to [offset + limit] of [all] put
    in some order that [before] accepts. *)
Definition is_page {R} (before : R -> R -> Prop) (all page : list R)
    (limit offset : nat) : Prop :=
  exists above below,
    Permutation (above ++ page ++ below) all
    /\ StronglySorted before (above ++ page ++ below)
    /\ length above = min offset (length all)
    /\ length page = min limit (length all - offset).

(** Two keys, the second one breaking the ties of the first. *)
Definition lex_ge (a b a' b' : Z) : Prop :=
  (a' < a)%Z \/ (a = a' /\ (b' <= b)%Z).

Definition is_none {A} (x : option A) : bool :=
  match x with None => true | Some _ => false end.

(** A transaction that fills no column of another transaction type. *)
Definition only_own_columns (t : DbTx) : bool :=
  let transfer :=
    is_none (token_transfer_recipient_address t)
    && is_none (token_transfer_amount t) && is_none (token_transfer_memo t) in
  let contract :=
    is_none (smart_contract_contract_id t)
    && is_none (smart_contract_source_code t) in
  let call :=
    is_none (contract_call_contract_id t)
    && is_none (contract_call_function_name t)
    && is_none (contract_call_function_args t) in
  let poison :=
    is_none (poison_microblock_header_1 t)
    && is_none (poison_microblock_header_2 t) in
  let coinbase := is_none (coinbase_payload t) in
  match type_id t with
  | TokenTransfer => contract && call && poison && coinbase
  | SmartContract => transfer && call && poison && coinbase
  | ContractCall => transfer && contract && poison && coinbase
  | PoisonMicroblock => transfer && contract && call && coinbase
  | Coinbase => transfer && contract && call && poison
  end.

(** The columns every transaction has. *)
Definition required_columns (t : DbTx)
  : Hash * Z * Hash * Hash * Z * Z * DbTxTypeId * DbTxStatus * bool
    * option string * Z * bool * Address * Z :=
  (tx_id t, tx_index t, tx_index_block_hash t, tx_block_hash t, tx_block_height t,
   tx_burn_block_time t, type_id t, status t, tx_canonical t, post_conditions t,
   fee_rate t, sponsored t, sender_address t, origin_hash_mode t).

(** The row that [ORDER BY canonical DESC, block_height DESC LIMIT 1]
    may pick among the rows that satisfy [w]. *)
Definition first_choice {R} `{Entity R} (height : R -> Z) (w : R -> bool)
    (t : list R) (row : R) : Prop :=
  In row t /\ w row = true
  /\ forall r, In r t -> w r = true ->
       (canonical r = true -> canonical row = true)
       /\ (canonical r = canonical row -> (height r <= height row)%Z).

(** The order of a transaction listing: descending height, and
    descending index within a block. *)
Definition tx_order (t t' : DbTx) : Prop :=
  lex_ge (tx_block_height t) (tx_index t) (tx_block_height t') (tx_index t').


(** What a listing of the transactions that satisfy [w] answers. *)
Definition tx_listing (w : DbTx -> bool) (limit offset : Z) (db : Db)
    (r : Read (list DbTx)) : Prop :=
  match r with
  | Fails NegativePaging => (limit < 0)%Z \/ (offset < 0)%Z
  | Fails BigIntOfNull =>
      (0 <= limit)%Z /\ (0 <= offset)%Z
      /\ exists row,
           In row (txs_table db) /\ w row = true
           /\ type_id row = TokenTransfer /\ token_transfer_amount row = None
  | Got parsed =>
      (0 <= limit)%Z /\ (0 <= offset)%Z
      /\ exists rows,
           is_page tx_order (filter w (txs_table db)) rows
             (Z.to_nat limit) (Z.to_nat offset)
           /\ Forall2 (fun row t => parseTxQueryResult row = Got t) rows parsed
  end.

(** The canonical transactions an address sent or, as a token transfer,
    received. *)
Definition sent_or_received (a : Address) (t : DbTx) : bool :=
  canonical t
  && (String.eqb (sender_address t) a
      || sql_eq_text (token_transfer_recipient_address t) a).

(** The events stored for a transaction of a block, table by table. *)
Definition events_of_tx (txId indexBlockHash : Hash) (db : Db) : list DbEvent :=
  map (fun r => StxAsset (row_data r))
    (filter (of_tx stx_tx_id txId indexBlockHash) (stx_events db))
  ++ map (fun r => FungibleTokenAsset (row_data r))
       (filter (of_tx ft_tx_id txId indexBlockHash) (ft_events db))
  ++ map (fun r => NonFungibleTokenAsset (row_data r))
       (filter (of_tx nft_tx_id txId indexBlockHash) (nft_events db))
  ++ map (fun r => SmartContractLog (row_data r))
       (filter (of_tx log_tx_id txId indexBlockHash) (contract_logs db)).



(** The stored STX, FT and NFT events. *)
Definition asset_events (db : Db) : list DbEvent :=
  map (fun r => StxAsset (row_data r)) (stx_events db)
  ++ map (fun r => FungibleTokenAsset (row_data r)) (ft_events db)
  ++ map (fun r => NonFungibleTokenAsset (row_data r)) (nft_events db).


(** The canonical rows of a table in which the address plays the given
    role for the asset. *)
Definition moved {E} `{Entity E} (asset_of : E -> string)
    (role : E -> option Address) (a : Address) (asset : string)
    (t : list (Row E)) : list (Row E) :=
  filter (fun e => canonical e
                   && String.eqb (asset_of (row_data e)) asset
                   && sql_eq_text (role (row_data e)) a) t.

Definition ft_moved (role : DbFtEvent -> option Address) (a : Address)
    (asset : string) (db : Db) : list Z :=
  map (fun e => ft_amount (row_data e))
    (moved ft_asset_identifier role a asset (ft_events db)).

Definition nft_moved (role : DbNftEvent -> option Address) (a : Address)
    (asset : string) (db : Db) : Z :=
  Z.of_nat (length (moved nft_asset_identifier role a asset (nft_events db))).

(** ** Sample rows and states *)

Definition sample_block (h parent : Hash) (height : Z) (flag : bool) : DbBlock :=
  mkDbBlock h h parent parent "0x" height 0%Z flag.

Definition sample_tx (id h : Hash) (index : Z) (flag : bool) : DbTx :=
  mkDbTx id index h h 1%Z 0%Z Coinbase Success flag None 0%Z false
    "ST000" 0%Z None None None None None None None None None None None.

Definition sample_stx (id : Hash) (index : Z) (sender recipient : option Address)
    (amount : Z) (flag : bool) : DbStxEvent :=
  mkDbStxEvent index id 0%Z 1%Z flag Transfer sender recipient amount.

Definition sample_db (bs : list DbBlock) (ts : list DbTx) : Db :=
  mkDb bs ts [] [] [] [] [].

(** A lone canonical block. *)
Definition lone_canonical : Db :=
  sample_db [sample_block "0xa1" "0xa0" 1 true] [].

(** An orphan with two canonical blocks at its height, each with one
    transaction. *)
Definition two_canonical_siblings : Db :=
  sample_db
    [sample_block "0xb1" "0xb0" 2 false;
     sample_block "0xb2" "0xb0" 2 true;
     sample_block "0xb3" "0xb0" 2 true]
    [sample_tx "0x72" "0xb2" 0 true; sample_tx "0x73" "0xb3" 0 true].

(** A canonical block at height 1 under an orphan at height 2. *)
Definition orphan_on_top : Db :=
  sample_db
    [sample_block "0x01" "0x00" 1 true; sample_block "0x02" "0x01" 2 false] [].

(** An orphaned chain that reaches down to height -1. *)
Definition chain_below_one : Db :=
  sample_db
    [sample_block "0xd9" "0xd8" (-1) false;
     sample_block "0xd0" "0xd9" 0 false;
     sample_block "0xd1" "0xd0" 1 false] [].

(** Two canonical blocks, with an orphaned sibling at height 2. *)
Definition forked : Db :=
  sample_db
    [sample_block "0x01" "0x00" 1 true;
     sample_block "0x02" "0x01" 2 true;
     sample_block "0xf2" "0x01" 2 false]
    [sample_tx "0x71" "0x01" 0 true; sample_tx "0x72" "0x02" 0 true;
     sample_tx "0x7f" "0xf2" 0 false].

Definition sample_entry (id h : Hash) (index : Z) : DataStoreTxEntry :=
  mkEntry (sample_tx id h index true)
    [sample_stx id 0 (Some "ST000"%string) (Some "ST111"%string) 100 true]
    [] [] [] [].

Definition sample_batch (h parent : Hash) (height : Z)
    (entries : list DataStoreTxEntry) : DataStoreUpdateData :=
  mkData (sample_block h parent height true) entries.

(** A batch on top of [forked] that lists its transactions with the
    greater [tx_index] first. *)
Definition out_of_order_batch : DataStoreUpdateData :=
  sample_batch "0x03" "0x02" 3
    [sample_entry "0x7b" "0x03" 1; sample_entry "0x7a" "0x03" 0].

(** The canonical height-2 block of [forked], delivered again. *)
Definition redelivered_batch : DataStoreUpdateData :=
  sample_batch "0x02" "0x01" 2 [sample_entry "0x72" "0x02" 0].

(** A batch whose parent is not stored. *)
Definition parentless_batch : DataStoreUpdateData :=
  sample_batch "0x09" "0x08" 9 [sample_entry "0x79" "0x09" 0].

(** A new sibling of the tip of [forked]. *)
Definition sibling_batch : DataStoreUpdateData :=
  sample_batch "0xe2" "0x01" 2 [sample_entry "0x7e" "0xe2" 0].

(** The two deliveries that leave [orphan_on_top] in an empty store, the
    second one with its [canonical] field false; and a block of height 1
    delivered afterwards. *)
Definition first_delivery : DataStoreUpdateData :=
  mkData (sample_block "0x01" "0x00" 1 true) [].

Definition orphan_delivery : DataStoreUpdateData :=
  mkData (sample_block "0x02" "0x01" 2 false) [].

Definition late_sibling_batch : DataStoreUpdateData :=
  sample_batch "0xe1" "0x00" 1 [sample_entry "0x7e" "0xe1" 0].

(** Two states with the same canonical transfer of 100 to ST111; the
    first also holds a non-canonical transfer of 7 to ST111. *)
Definition with_orphaned_transfer : Db :=
  mkDb [] []
    [mkRow "0x01" (sample_stx "0x71" 0 (Some "ST000"%string)
                     (Some "ST111"%string) 100 true);
     mkRow "0x0f" (sample_stx "0x7f" 0 (Some "ST000"%string)
                     (Some "ST111"%string) 7 false)]
    [] [] [] [].

Definition without_orphaned_transfer : Db :=
  mkDb [] []
    [mkRow "0x01" (sample_stx "0x71" 0 (Some "ST000"%string)
                     (Some "ST111"%string) 100 true)]
    [] [] [] [].

(** A canonical chain of three blocks with an orphaned fork of two on
    top of its first block; every block but the first has one
    transaction. *)
Definition deep_fork : Db :=
  sample_db
    [sample_block "0x01" "0x00" 1 true;
     sample_block "0x02" "0x01" 2 true;
     sample_block "0x03" "0x02" 3 true;
     sample_block "0xf2" "0x01" 2 false;
     sample_block "0xf3" "0xf2" 3 false]
    [sample_tx "0x72" "0x02" 0 true; sample_tx "0x73" "0x03" 0 true;
     sample_tx "0x7e" "0xf2" 0 false; sample_tx "0x7f" "0xf3" 0 false].

(** [deep_fork] with the fork restored. *)
Definition deep_fork_restored : Db :=
  sample_db
    [sample_block "0x01" "0x00" 1 true;
     sample_block "0x02" "0x01" 2 false;
     sample_block "0x03" "0x02" 3 false;
     sample_block "0xf2" "0x01" 2 true;
     sample_block "0xf3" "0xf2" 3 true]
    [sample_tx "0x72" "0x02" 0 false; sample_tx "0x73" "0x03" 0 false;
     sample_tx "0x7e" "0xf2" 0 true; sample_tx "0x7f" "0xf3" 0 true].

(** A batch on top of [forked] that lists its two transactions in
    ascending [tx_index]. *)
Definition in_order_batch : DataStoreUpdateData :=
  sample_batch "0x03" "0x02" 3
    [sample_entry "0x7a" "0x03" 0; sample_entry "0x7b" "0x03" 1].

(** A block of height 1 with one transaction and one STX event. *)
Definition genesis_batch : DataStoreUpdateData :=
  sample_batch "0x01" "0x00" 1 [sample_entry "0x71" "0x01" 0].

(** A schema without further constraints. *)
Definition accepts_all : Statement -> Db -> bool := fun _ _ => false.

(** A schema that refuses every STX event. *)
Definition rejects_stx_events : Statement -> Db -> bool :=
  fun s _ => match s with InsertStxEvent _ => true | _ => false end.

(** The deliveries of the balance scenario: a block at height 1, a block
    [X] at height 2 whose transaction sends 100 to ST111, a sibling [X']
    of [X] without transactions, and a block at height 3 on top of
    [X']. *)
Definition balance_scenario : list DataStoreUpdateData :=
  [sample_batch "0x01" "0x00" 1 [];
   sample_batch "0x02" "0x01" 2 [sample_entry "0x72" "0x02" 0];
   sample_batch "0xf2" "0x01" 2 [];
   sample_batch "0xf3" "0xf2" 3 []].

(** The committed state after a run of deliveries. *)
Definition ingest_all (batches : list DataStoreUpdateData) (db : Db) : Db :=
  fold_left (fun d data => persisted (client (update accepts_all data d)))
    batches db.

(** * Proofs *)

(** ** Sums and filters *)

Lemma fold_left_add_acc (l : list Z) (a : Z) :
  fold_left Z.add l a = (a + sum_Z l)%Z.
Proof.
  unfold sum_Z. revert a. induction l as [|x l IH]; intro a; cbn.
  - lia.
  - rewrite IH. lia.
Qed.

Lemma nullish_sql_sum (l : list Z) : nullish (sql_sum l) 0%Z = sum_Z l.
Proof.
  destruct l as [|x l]; [reflexivity|].
  unfold sql_sum, nullish. now rewrite fold_left_add_acc.
Qed.

Lemma filter_filter {A} (p q : A -> bool) (l : list A) :
  filter p (filter q l) = filter (fun x => q x && p x) l.
Proof.
  induction l as [|x l IH]; cbn; [reflexivity|].
  destruct (q x); cbn; [destruct (p x)|]; now rewrite IH.
Qed.

Lemma canonical_amounts_filter (role : DbStxEvent -> option Address)
    (a : Address) (db : Db) :
  canonical_amounts role a db
  = map (fun e => stx_amount (row_data e))
      (filter (fun e => sql_eq_text (role (row_data e)) a)
         (filter canonical (stx_events db))).
Proof. unfold canonical_amounts. now rewrite filter_filter. Qed.

Lemma getStxBalance_totals (db : Db) (a : Address) :
  totalReceived (getStxBalance db a) = sum_Z (canonical_amounts stx_recipient a db)
  /\ totalSent (getStxBalance db a) = sum_Z (canonical_amounts stx_sender a db).
Proof.
  unfold getStxBalance, sql_select, canonical_amounts; cbn [totalReceived totalSent].
  rewrite !nullish_sql_sum, !filter_filter. split; do 2 f_equal;
    apply filter_ext; intro e;
    destruct (canonical e), (sql_eq_text (stx_sender (row_data e)) a),
      (sql_eq_text (stx_recipient (row_data e)) a); reflexivity.
Qed.

(** C5. For every address and every state, [getStxBalance] returns as
    [totalReceived] the sum of the amounts of the canonical [stx_events]
    rows whose recipient is the address, as [totalSent] the sum over the
    canonical rows whose sender is the address, and as [balance] their
    difference; the three values are the same in any two states that
    agree on their canonical rows, so a non-canonical event never
    contributes. *)
Theorem getStxBalance_canonical_only (db : Db) (a : Address) :
  totalReceived (getStxBalance db a) = sum_Z (canonical_amounts stx_recipient a db)
  /\ totalSent (getStxBalance db a) = sum_Z (canonical_amounts stx_sender a db)
  /\ balance (getStxBalance db a)
     = (totalReceived (getStxBalance db a) - totalSent (getStxBalance db a))%Z
  /\ forall db',
       filter canonical (stx_events db') = filter canonical (stx_events db) ->
       getStxBalance db' a = getStxBalance db a.
Proof.
  destruct (getStxBalance_totals db a) as [Hr Hs].
  repeat split; try assumption.
  intros db' Heq.
  destruct (getStxBalance_totals db' a) as [Hr' Hs'].
  assert (Hb : forall d, getStxBalance d a
                = mkStxBalance (totalReceived (getStxBalance d a)
                                - totalSent (getStxBalance d a))
                    (totalSent (getStxBalance d a))
                    (totalReceived (getStxBalance d a))) by reflexivity.
  rewrite (Hb db'), (Hb db), Hr, Hs, Hr', Hs'.
  now rewrite !canonical_amounts_filter, Heq.
Qed.

Lemma getStxBalance_canonical_only_witness :
  getStxBalance with_orphaned_transfer "ST111"
  = getStxBalance without_orphaned_transfer "ST111".
Proof.
  apply (getStxBalance_canonical_only without_orphaned_transfer "ST111").
  reflexivity.
Defined.

(** ** Running the store code one statement at a time *)

Lemma client_eta (c : Client) : mkClient (persisted c) (pending c) = c.
Proof. now destruct c. Qed.

Lemma after_events_nil {A} (r : Res A) : after_events [] r = r.
Proof. now destruct r. Qed.

Lemma after_events_app {A} (e1 e2 : list Effect) (r : Res A) :
  after_events e1 (after_events e2 r) = after_events (e1 ++ e2) r.
Proof. unfold after_events; cbn. now rewrite app_assoc. Qed.

Lemma bind_run {A B} (m : M A) (k : A -> M B) (c : Client) :
  bind m k c =
  match res (m c) with
  | Ok a => after_events (events (m c)) (k a (conn (m c)))
  | Throw e => mkRes (Throw e) (conn (m c)) (events (m c))
  | OutOfFuel => mkRes OutOfFuel (conn (m c)) (events (m c))
  end.
Proof. reflexivity. Qed.

Lemma bind_ret {A B} (a : A) (k : A -> M B) (c : Client) :
  bind (ret a) k c = k a c.
Proof. rewrite bind_run. cbn. apply after_events_nil. Qed.

Lemma bind_query_rows {R B} (s : Statement) (run : Db -> list R * Db)
    (k : list R -> M B) (c : Client) :
  bind (query_rows s run) k c =
  after_events [Query s (length (fst (run (pending c))))]
    (k (fst (run (pending c)))
       (mkClient (persisted c) (snd (run (pending c))))).
Proof.
  rewrite bind_run. unfold query_rows.
  now destruct (run (pending c)).
Qed.

Lemma bind_query_count {B} (s : Statement) (run : Db -> nat * Db)
    (k : nat -> M B) (c : Client) :
  bind (query_count s run) k c =
  after_events [Query s (fst (run (pending c)))]
    (k (fst (run (pending c)))
       (mkClient (persisted c) (snd (run (pending c))))).
Proof.
  rewrite bind_run. unfold query_count.
  now destruct (run (pending c)).
Qed.

Lemma bind_assoc {A B C} (m : M A) (k : A -> M B) (k' : B -> M C) (c : Client) :
  bind (bind m k) k' c = bind m (fun a => bind (k a) k') c.
Proof.
  unfold bind. cbv zeta. cbn [res conn events].
  destruct (res (m c)); cbn [res conn events]; try reflexivity.
  destruct (res (k a (conn (m c)))); cbn [res conn events];
    try reflexivity.
  now rewrite app_assoc.
Qed.

(** ** [handleReorg] *)

Lemma restoreOrphanedChain_rec_first (fuel : nat) (h : Hash)
    (u : UpdatedEntities) (c : Client) :
  exists n rest,
    events (restoreOrphanedChain_rec (S fuel) h u c)
    = Query (RestoreBlock h) n :: rest.
Proof.
  cbn [restoreOrphanedChain_rec]. rewrite bind_query_rows.
  cbn [after_events events app]. eexists; eexists; reflexivity.
Qed.

Lemma restoreOrphanedChain_first (h : Hash) (u : UpdatedEntities) (c : Client) :
  existsb is_restore (events (restoreOrphanedChain h u c)) = true.
Proof.
  unfold restoreOrphanedChain.
  destruct (restoreOrphanedChain_rec_first (length (blocks (pending c))) h u c)
    as (n & rest & ->).
  reflexivity.
Qed.

Lemma handleReorg_run (blk : DbBlock) (chainTipHeight : Z) (c : Client) :
  (1 < block_height blk)%Z ->
  let r := handleReorg blk chainTipHeight c in
  let height := (block_height blk - 1)%Z in
  let hash := parent_index_block_hash blk in
  let lookup := Query (SelectParent height hash)
                  (length (parents_of blk (pending c))) in
  match parents_of blk (pending c) with
  | [] => r = mkRes (Throw (ParentMissing height hash)) c [lookup]
  | [parent] =>
      if canonical parent then r = mkRes (Ok no_updates) c [lookup]
      else if (chainTipHeight <? block_height blk)%Z then
        r = after_events [lookup]
              (restoreOrphanedChain (index_block_hash parent)
                 (incr_blocks no_updates) c)
      else r = mkRes (Ok no_updates) c [lookup]
  | _ :: _ :: _ => r = mkRes (Throw (MultipleParents height hash)) c [lookup]
  end.
Proof.
  intros Hh r height hash lookup. subst r lookup height hash.
  unfold handleReorg.
  apply Z.ltb_lt in Hh. rewrite Hh.
  rewrite bind_query_rows. unfold select_parent, sql_select.
  cbn [fst snd]. fold (parents_of blk (pending c)). rewrite client_eta.
  destruct (parents_of blk (pending c)) as [|parent [|p2 ps]];
    unfold after_events, throw, ret; cbn [res conn events app length];
    try reflexivity.
  destruct (canonical parent) eqn:Hc; cbn [negb andb]; [reflexivity|].
  destruct (chainTipHeight <? block_height blk)%Z; reflexivity.
Qed.

Lemma handleReorg_genesis (blk : DbBlock) (chainTipHeight : Z) (c : Client) :
  (block_height blk <= 1)%Z ->
  handleReorg blk chainTipHeight c = mkRes (Ok no_updates) c [].
Proof.
  intro Hh. unfold handleReorg.
  apply Z.ltb_ge in Hh. now rewrite Hh.
Qed.

(** C2. For an incoming block of height greater than 1, [handleReorg]
    throws the parent-missing error when no stored block matches
    (block_height - 1, parent_index_block_hash), throws when more than
    one matches, returns without touching the connection's state when
    the parent is canonical or the block does not rise above the chain
    tip, and otherwise is [restoreOrphanedChain] on the parent; a restore
    statement is issued if and only if exactly one parent matches, it is
    non-canonical and the block's height exceeds the chain tip height. *)
Theorem handleReorg_cases (blk : DbBlock) (chainTipHeight : Z) (c : Client) :
  (1 < block_height blk)%Z ->
  let r := handleReorg blk chainTipHeight c in
  let height := (block_height blk - 1)%Z in
  let hash := parent_index_block_hash blk in
  let lookup := Query (SelectParent height hash)
                  (length (parents_of blk (pending c))) in
  match parents_of blk (pending c) with
  | [] => r = mkRes (Throw (ParentMissing height hash)) c [lookup]
  | [parent] =>
      if canonical parent then r = mkRes (Ok no_updates) c [lookup]
      else if (chainTipHeight <? block_height blk)%Z then
        r = after_events [lookup]
              (restoreOrphanedChain (index_block_hash parent)
                 (incr_blocks no_updates) c)
      else r = mkRes (Ok no_updates) c [lookup]
  | _ :: _ :: _ => r = mkRes (Throw (MultipleParents height hash)) c [lookup]
  end
  /\ (existsb is_restore (events r) = true <->
      exists parent,
        parents_of blk (pending c) = [parent]
        /\ canonical parent = false
        /\ (chainTipHeight < block_height blk)%Z).
Proof.
  intros Hh r height hash lookup.
  pose proof (handleReorg_run blk chainTipHeight c Hh) as Hrun.
  cbv zeta in Hrun. fold r in Hrun. split; [exact Hrun|].
  destruct (parents_of blk (pending c)) as [|parent [|p2 ps]].
  - rewrite Hrun. split; [discriminate|]. intros (p & Hp & _). discriminate.
  - destruct (canonical parent) eqn:Hc.
    + rewrite Hrun. split; [discriminate|].
      intros (p & Hp & Hn & _). injection Hp as <-. congruence.
    + destruct (chainTipHeight <? block_height blk)%Z eqn:Ht.
      * rewrite Hrun. cbn [after_events events app existsb is_restore orb].
        rewrite restoreOrphanedChain_first. split; [|reflexivity].
        intros _. exists parent. apply Z.ltb_lt in Ht. auto.
      * rewrite Hrun. split; [discriminate|].
        intros (p & _ & _ & Hlt). apply Z.ltb_ge in Ht. lia.
  - rewrite Hrun. split; [discriminate|]. intros (p & Hp & _). discriminate.
Qed.

Lemma handleReorg_cases_witness :
  existsb is_restore
    (events (handleReorg (sample_block "0xf3" "0xf2" 3 true) 2 (connect forked)))
  = true.
Proof.
  apply (handleReorg_cases (sample_block "0xf3" "0xf2" 3 true) 2 (connect forked)).
  - reflexivity.
  - exists (sample_block "0xf2" "0x01" 2 false). repeat split.
Defined.

(** ** [getChainTipHeight] *)

Lemma fold_left_max_ge (l : list Z) (a : Z) :
  (a <= fold_left Z.max l a)%Z
  /\ (forall x, In x l -> (x <= fold_left Z.max l a)%Z)
  /\ (fold_left Z.max l a = a \/ In (fold_left Z.max l a) l).
Proof.
  revert a. induction l as [|y l IH]; intro a; cbn [fold_left].
  - repeat split; [lia|contradiction|now left].
  - destruct (IH (Z.max a y)) as (H1 & H2 & H3). repeat split.
    + lia.
    + intros x [->|Hx]; [lia|auto].
    + destruct H3 as [E|Hin]; [|right; now right].
      rewrite E. destruct (Z.max_spec a y) as [[_ ->]|[_ ->]];
        [right; now left|now left].
Qed.

Lemma sql_max_greatest (l : list Z) (m : Z) :
  sql_max l = Some m -> In m l /\ forall x, In x l -> (x <= m)%Z.
Proof.
  destruct l as [|a l]; [discriminate|]. cbn [sql_max].
  intro E. injection E as <-.
  destruct (fold_left_max_ge l a) as (H1 & H2 & H3). split.
  - destruct H3 as [->|Hin]; [now left|now right].
  - intros x [->|Hx]; auto.
Qed.

Lemma sql_max_of_greatest (l : list Z) (m : Z) :
  In m l -> (forall x, In x l -> (x <= m)%Z) -> sql_max l = Some m.
Proof.
  intros Hin Hle. destruct (sql_max l) as [m'|] eqn:E.
  - destruct (sql_max_greatest _ _ E) as [Hin' Hle'].
    specialize (Hle _ Hin'). specialize (Hle' _ Hin). f_equal. lia.
  - destruct l; [contradiction|discriminate].
Qed.

(** Where a canonical block holds the greatest stored height,
    [getChainTipHeight] returns the greatest canonical height, with the
    hashes of the first canonical block of that height; in an empty
    store it returns height 0. *)
Lemma getChainTipHeight_canonical_top (db : Db) (b : DbBlock) :
  In b (blocks db) -> canonical b = true ->
  (forall x, In x (blocks db) -> (block_height x <= block_height b)%Z) ->
  canonical_tip_height db = Some (block_height b)
  /\ exists b0,
       hd_error (filter (fun x => canonical x
                                  && Z.eqb (block_height x) (block_height b))
                   (blocks db)) = Some b0
       /\ chain_tip db
          = mkChainTip (block_height b) (block_hash b0) (index_block_hash b0).
Proof.
  intros Hin Hc Hmax. split.
  - unfold canonical_tip_height. apply sql_max_of_greatest.
    + apply in_map. apply filter_In. auto.
    + intros x Hx. apply in_map_iff in Hx as (y & <- & Hy).
      apply filter_In in Hy as [Hy _]. auto.
  - assert (Em : sql_max (map block_height (blocks db)) = Some (block_height b)).
    { apply sql_max_of_greatest; [now apply in_map|].
      intros x Hx. apply in_map_iff in Hx as (y & <- & Hy). auto. }
    unfold chain_tip, chain_tip_rows, sql_select. rewrite Em.
    destruct (filter _ (blocks db)) as [|b0 rows] eqn:Ef.
    + assert (Hb : In b (filter (fun x => canonical x
                                          && Z.eqb (block_height x) (block_height b))
                           (blocks db))).
      { apply filter_In. split; [exact Hin|]. now rewrite Hc, Z.eqb_refl. }
      rewrite Ef in Hb. contradiction.
    + exists b0. split; [reflexivity|].
      assert (Hb0 : In b0 (filter (fun x => canonical x
                                           && Z.eqb (block_height x) (block_height b))
                            (blocks db))) by (rewrite Ef; now left).
      apply filter_In in Hb0 as [_ Hb0]. apply andb_prop in Hb0 as [_ Hb0].
      apply Z.eqb_eq in Hb0. cbn [hd_error option_map nullish].
      now rewrite Hb0.
Qed.

Lemma getChainTipHeight_empty (db : Db) :
  blocks db = [] -> chain_tip db = mkChainTip 0 empty_buffer empty_buffer.
Proof. intro E. unfold chain_tip, chain_tip_rows. now rewrite E. Qed.

(** C6 at the state with a canonical block at height 1 under an orphan
    at height 2, which two calls of [update] leave in an empty store:
    the greatest height among the canonical blocks is 1, and
    [getChainTipHeight] returns height 0 and two empty hashes. *)
Theorem getChainTipHeight_misses_canonical_tip :
  persisted
    (client
       (update accepts_all orphan_delivery
          (persisted (client (update accepts_all first_delivery empty_db)))))
  = orphan_on_top
  /\ canonical_tip_height orphan_on_top = Some 1%Z
  /\ res (getChainTipHeight (connect orphan_on_top))
     = Ok (mkChainTip 0 empty_buffer empty_buffer).
Proof. repeat split. Qed.

(** ** Code that only issues statements *)

Lemma statements_only_ret {A} (a : A) : statements_only (ret a).
Proof. intro c. now split. Qed.

Lemma statements_only_throw {A} (e : StoreError) : statements_only (@throw A e).
Proof. intro c. now split. Qed.

Lemma statements_only_bind {A B} (m : M A) (k : A -> M B) :
  statements_only m -> (forall a, statements_only (k a)) ->
  statements_only (bind m k).
Proof.
  intros Hm Hk c. rewrite bind_run. destruct (Hm c) as [Hp He].
  destruct (res (m c)) as [a| |]; cbn [after_events res conn events]; auto.
  destruct (Hk a (conn (m c))) as [Hp' He']. split.
  - congruence.
  - rewrite forallb_app. now rewrite He, He'.
Qed.

Lemma statements_only_query_rows {R} (s : Statement) (run : Db -> list R * Db) :
  statements_only (query_rows s run).
Proof. intro c. unfold query_rows. now destruct (run (pending c)). Qed.

Lemma statements_only_query_count (s : Statement) (run : Db -> nat * Db) :
  statements_only (query_count s run).
Proof. intro c. unfold query_count. now destruct (run (pending c)). Qed.

Lemma statements_only_query_insert (rejects : Statement -> Db -> bool)
    (s : Statement) (conflict : Db -> bool) (ins : Db -> Db) :
  statements_only (query_insert rejects s conflict ins).
Proof.
  intro c. unfold query_insert.
  destruct (conflict (pending c)); [now split|].
  destruct (rejects s (pending c)); now split.
Qed.

Lemma statements_only_for_each {A} (l : list A) (f : A -> M unit) :
  (forall a, statements_only (f a)) -> statements_only (for_each l f).
Proof.
  intro Hf. induction l as [|x l IH]; cbn [for_each].
  - apply statements_only_ret.
  - apply statements_only_bind; auto.
Qed.

Create HintDb statements.
#[local] Hint Resolve statements_only_ret statements_only_throw
  statements_only_query_rows statements_only_query_count
  statements_only_query_insert : statements.

Ltac statements :=
  repeat first
    [ apply statements_only_bind; [|intro]
    | apply statements_only_for_each; intro
    | solve [auto with statements] ].

Lemma statements_only_markEntitiesCanonical (h : Hash) (flag : bool)
    (u : UpdatedEntities) :
  statements_only (markEntitiesCanonical h flag u).
Proof. unfold markEntitiesCanonical. statements. Qed.
#[local] Hint Resolve statements_only_markEntitiesCanonical : statements.

Lemma statements_only_restoreOrphanedChain_rec (fuel : nat) :
  forall h u, statements_only (restoreOrphanedChain_rec fuel h u).
Proof.
  induction fuel as [|fuel IH]; intros h u; cbn [restoreOrphanedChain_rec].
  - intro c. now split.
  - apply statements_only_bind; [auto with statements|].
    intros [|row0 [|row1 rows]]; [auto with statements| |auto with statements].
    apply statements_only_bind; [auto with statements|]. intro orphaned.
    apply statements_only_bind.
    { destruct orphaned; auto with statements. }
    intro u1. apply statements_only_bind; [auto with statements|]. intro u2.
    apply statements_only_bind; [auto with statements|].
    intros [|parent [|p2 ps]]; auto with statements.
Qed.

Lemma statements_only_restoreOrphanedChain (h : Hash) (u : UpdatedEntities) :
  statements_only (restoreOrphanedChain h u).
Proof.
  intro c. unfold restoreOrphanedChain.
  apply statements_only_restoreOrphanedChain_rec.
Qed.
#[local] Hint Resolve statements_only_restoreOrphanedChain : statements.

Lemma statements_only_handleReorg (blk : DbBlock) (tip : Z) :
  statements_only (handleReorg blk tip).
Proof.
  unfold handleReorg. destruct (1 <? block_height blk)%Z; [|auto with statements].
  apply statements_only_bind; [auto with statements|].
  intros [|parent [|p2 ps]]; auto with statements.
  destruct (negb (canonical parent) && (tip <? block_height blk)%Z);
    auto with statements.
Qed.

Lemma statements_only_getChainTipHeight : statements_only getChainTipHeight.
Proof. unfold getChainTipHeight. statements. Qed.

Lemma statements_only_insert_entry (rejects : Statement -> Db -> bool)
    (entry : DataStoreTxEntry) :
  statements_only (insert_entry rejects entry).
Proof.
  unfold insert_entry, updateTx, updateStxEvent, updateFtEvent, updateNftEvent,
    updateSmartContractEvent, updateSmartContract.
  statements.
Qed.
#[local] Hint Resolve statements_only_handleReorg
  statements_only_getChainTipHeight statements_only_insert_entry : statements.

(** ** The guarded updates flag whole groups of rows *)

Lemma sql_update_flag {R} `{Entity R} (w : R -> bool) (flag : bool) (t : list R) :
  snd (sql_update
         (fun r => w r && negb (Bool.eqb (canonical r) flag))
         (with_canonical flag) t)
  = flag_where w flag t.
Proof.
  unfold sql_update, flag_where. cbn [snd]. apply map_ext. intro r.
  destruct (w r); cbn [andb]; [|reflexivity].
  destruct (Bool.eqb (canonical r) flag) eqn:E; cbn [negb]; [|reflexivity].
  apply eqb_prop in E. rewrite <- E. symmetry. apply with_canonical_id.
Qed.

Lemma mark_table_flag {R} `{Stored R} (h : Hash) (flag : bool) (t : list R) :
  snd (mark_table h flag t)
  = flag_where (fun r => String.eqb (stored_under r) h) flag t.
Proof.
  unfold mark_table.
  rewrite <- (sql_update_flag (fun r => String.eqb (stored_under r) h)).
  now destruct (sql_update _ _ t).
Qed.

Lemma restore_block_flag (h : Hash) (db : Db) :
  fst (restore_block h db) = map (with_canonical true) (orphaned_with h db)
  /\ snd (restore_block h db) = flag_block h db.
Proof.
  unfold restore_block, flag_block, orphaned_with.
  pose proof (sql_update_flag
                (fun b => String.eqb (index_block_hash b) h) true (blocks db)) as E.
  unfold sql_update in *. cbn [fst snd] in *. split; [reflexivity|].
  f_equal. rewrite <- E. apply map_ext. intro b.
  now destruct (canonical b).
Qed.

Lemma orphan_blocks_flag (height : Z) (h : Hash) (db : Db) :
  fst (orphan_blocks height h db)
  = map (with_canonical false) (canonical_siblings height h db)
  /\ snd (orphan_blocks height h db) = orphan_siblings height h db.
Proof.
  unfold orphan_blocks, orphan_siblings, canonical_siblings.
  pose proof (sql_update_flag (is_sibling height h) false (blocks db)) as E.
  unfold sql_update in *. cbn [fst snd] in *. split; [reflexivity|].
  f_equal. rewrite <- E. apply map_ext. intro b.
  now destruct (canonical b).
Qed.

Lemma let_pair_snd {A B C} (p : A * B) (f : B -> C) :
  snd (let (n, t) := p in (n, f t)) = f (snd p).
Proof. now destruct p. Qed.

Lemma markEntitiesCanonical_run (h : Hash) (flag : bool) (u : UpdatedEntities)
    (c : Client) :
  exists u' marks,
    markEntitiesCanonical h flag u c
    = mkRes (Ok u') (mkClient (persisted c) (flag_entities h flag (pending c)))
        marks
    /\ forallb is_mark marks = true
    /\ upd_blocks u' = upd_blocks u.
Proof.
  unfold markEntitiesCanonical.
  rewrite bind_query_count, let_pair_snd, mark_table_flag.
  cbn [persisted pending]. rewrite bind_query_count, let_pair_snd, mark_table_flag.
  cbn [persisted pending]. rewrite bind_query_count, let_pair_snd, mark_table_flag.
  cbn [persisted pending]. rewrite bind_query_count, let_pair_snd, mark_table_flag.
  cbn [persisted pending]. rewrite bind_query_count, let_pair_snd, mark_table_flag.
  cbn [persisted pending]. rewrite bind_query_count, let_pair_snd, mark_table_flag.
  cbn [persisted pending]. rewrite !after_events_app.
  unfold ret, after_events. cbn [res conn events].
  eexists. eexists. split; [|split].
  - f_equal.
  - reflexivity.
  - reflexivity.
Qed.

(** ** One level of [restoreOrphanedChain] *)

Lemma bind_ext {A B} (m : M A) (k k' : A -> M B) (c : Client) :
  (forall a c', k a c' = k' a c') -> bind m k c = bind m k' c.
Proof.
  intro E. rewrite !bind_run. destruct (res (m c)); try reflexivity.
  now rewrite E.
Qed.

Lemma bind_throw {A B} (e : StoreError) (k : A -> M B) (c : Client) :
  bind (throw e) k c = throw e c.
Proof. reflexivity. Qed.

Lemma restoreOrphanedChain_rec_step (fuel : nat) (h : Hash)
    (u : UpdatedEntities) (c : Client) :
  restoreOrphanedChain_rec (S fuel) h u c
  = bind (restore_step h u) (restore_parents fuel) c.
Proof.
  cbn [restoreOrphanedChain_rec]. unfold restore_step.
  rewrite bind_assoc. apply bind_ext. intros [|row0 [|row1 rows]] c1.
  - now rewrite bind_throw.
  - rewrite bind_assoc. apply bind_ext. intros orphaned c2.
    rewrite bind_assoc. apply bind_ext. intros u1 c3.
    rewrite bind_assoc. apply bind_ext. intros u2 c4.
    rewrite bind_assoc. apply bind_ext. intros parents c5.
    rewrite bind_ret. reflexivity.
  - now rewrite bind_throw.
Qed.

Lemma restore_step_none (h : Hash) (u : UpdatedEntities) (c : Client) :
  orphaned_with h (pending c) = [] ->
  res (restore_step h u c) = Throw (OrphanedBlockNotFound h)
  /\ events (restore_step h u c) = [Query (RestoreBlock h) 0].
Proof.
  intro E. unfold restore_step. rewrite bind_query_rows.
  destruct (restore_block_flag h (pending c)) as [E1 _].
  rewrite E1, E. now split.
Qed.

Lemma restore_step_several (h : Hash) (u : UpdatedEntities) (c : Client)
    (b b' : DbBlock) (l : list DbBlock) :
  orphaned_with h (pending c) = b :: b' :: l ->
  res (restore_step h u c) = Throw (MultipleOrphanedBlocks h)
  /\ events (restore_step h u c) = [Query (RestoreBlock h) (S (S (length l)))].
Proof.
  intro E. unfold restore_step. rewrite bind_query_rows.
  destruct (restore_block_flag h (pending c)) as [E1 _].
  rewrite E1, E. cbn. now rewrite length_map.
Qed.

Lemma restore_step_one (h : Hash) (u : UpdatedEntities) (c : Client)
    (b : DbBlock) :
  orphaned_with h (pending c) = [b] ->
  exists u' n marks,
    restore_step h u c
    = mkRes (Ok (u', orphaned_parents b (restore_one h b (pending c))))
        (mkClient (persisted c) (restore_one h b (pending c)))
        (Query (RestoreBlock h) 1
         :: Query (OrphanBlocks (block_height b) h) n
         :: marks
         ++ [Query (SelectOrphanedParent (block_height b - 1)
                      (parent_index_block_hash b))
               (length (orphaned_parents b (restore_one h b (pending c))))])
    /\ forallb is_mark marks = true
    /\ upd_blocks u' = upd_blocks u.
Proof.
  intro E. unfold restore_step. rewrite bind_query_rows.
  destruct (restore_block_flag h (pending c)) as [E1 E2].
  rewrite E1, E2, E. cbn [map length persisted pending].
  change (block_height (with_canonical true b)) with (block_height b).
  change (parent_index_block_hash (with_canonical true b))
    with (parent_index_block_hash b).
  rewrite bind_query_rows. cbn [persisted pending].
  destruct (orphan_blocks_flag (block_height b) h (flag_block h (pending c)))
    as [E3 E4].
  rewrite E3, E4. cbn [persisted pending]. unfold restore_one.
  set (db1 := flag_block h (pending c)).
  set (db2 := orphan_siblings (block_height b) h db1).
  destruct (canonical_siblings (block_height b) h db1) as [|orphan others];
    cbn [map length].
  - rewrite bind_ret.
    destruct (markEntitiesCanonical_run h true u (mkClient (persisted c) db2))
      as (u1 & marks & Em & Hm & Hu).
    rewrite bind_run, Em. cbn [res conn events persisted pending].
    rewrite bind_query_rows. cbn [orphaned_parent fst snd persisted pending].
    unfold ret, after_events. cbn [res conn events app].
    exists u1, 0, marks. repeat split; auto.
  - change (index_block_hash (with_canonical false orphan))
      with (index_block_hash orphan).
    destruct (markEntitiesCanonical_run (index_block_hash orphan) false u
                (mkClient (persisted c) db2))
      as (u1 & marks1 & Em1 & Hm1 & Hu1).
    rewrite bind_run, Em1. cbn [res conn events persisted pending].
    set (db3 := flag_entities (index_block_hash orphan) false db2).
    destruct (markEntitiesCanonical_run h true u1 (mkClient (persisted c) db3))
      as (u2 & marks2 & Em2 & Hm2 & Hu2).
    rewrite bind_run, Em2. cbn [res conn events persisted pending].
    rewrite bind_query_rows. cbn [orphaned_parent fst snd persisted pending].
    unfold ret, after_events. cbn [res conn events app].
    exists u2, (S (length others)), (marks1 ++ marks2). repeat split.
    + rewrite length_map, <- !app_assoc. reflexivity.
    + now rewrite forallb_app, Hm1, Hm2.
    + congruence.
Qed.

(** ** Flags change, rows stay *)

Lemma shape_flag_where {R} `{Entity R} (w : R -> bool) (flag : bool) (t : list R) :
  shape (flag_where w flag t) = shape t.
Proof.
  unfold shape, flag_where. rewrite map_map. apply map_ext. intro r.
  destruct (w r); [apply with_canonical_twice|reflexivity].
Qed.

Lemma same_shape_refl (db : Db) : same_shape db db.
Proof. unfold same_shape. repeat split. Qed.

Lemma same_shape_trans (db1 db2 db3 : Db) :
  same_shape db1 db2 -> same_shape db2 db3 -> same_shape db1 db3.
Proof.
  unfold same_shape. intros (A1 & A2 & A3 & A4 & A5 & A6 & A7)
    (B1 & B2 & B3 & B4 & B5 & B6 & B7).
  repeat split; congruence.
Qed.

Ltac db_fields :=
  cbn [blocks txs_table stx_events ft_events nft_events contract_logs
       smart_contracts].

Lemma same_shape_flag_entities (h : Hash) (flag : bool) (db : Db) :
  same_shape db (flag_entities h flag db).
Proof.
  unfold same_shape, flag_entities. db_fields.
  repeat split; apply shape_flag_where.
Qed.

Lemma same_shape_flag_blocks (w : DbBlock -> bool) (flag : bool) (db : Db) :
  same_shape db (set_blocks (flag_where w flag (blocks db)) db).
Proof.
  unfold same_shape, set_blocks. db_fields.
  repeat split. apply shape_flag_where.
Qed.

Lemma same_shape_restore_one (h : Hash) (b : DbBlock) (db : Db) :
  same_shape db (restore_one h b db).
Proof.
  unfold restore_one.
  apply same_shape_trans with (flag_block h db);
    [apply same_shape_flag_blocks|].
  apply same_shape_trans
    with (orphan_siblings (block_height b) h (flag_block h db));
    [apply same_shape_flag_blocks|].
  eapply same_shape_trans; [|apply same_shape_flag_entities].
  destruct (canonical_siblings _ _ _);
    [apply same_shape_refl|apply same_shape_flag_entities].
Qed.

Lemma restores_same_shape (db : Db) (h : Hash) (r : Outcome Db) :
  restores db h r -> forall db', r = Ok db' -> same_shape db db'.
Proof.
  induction 1; intros db' E; try discriminate.
  - injection E as <-. apply same_shape_restore_one.
  - eapply same_shape_trans; [apply same_shape_restore_one|]. now apply IHrestores.
Qed.

Lemma heights_of_shape (t : list DbBlock) :
  map block_height (shape t) = map block_height t.
Proof. unfold shape. rewrite map_map. now apply map_ext. Qed.

Lemma same_shape_heights (db db' : Db) :
  same_shape db db' ->
  map block_height (blocks db') = map block_height (blocks db).
Proof.
  intros [E _]. rewrite <- (heights_of_shape (blocks db')), E.
  apply heights_of_shape.
Qed.

Lemma same_shape_below (db db' : Db) (k : Z) :
  same_shape db db' -> below k (blocks db') = below k (blocks db).
Proof. intro Hs. unfold below. now rewrite (same_shape_heights _ _ Hs). Qed.

Lemma same_shape_length (db db' : Db) :
  same_shape db db' -> length (blocks db') = length (blocks db).
Proof.
  intro Hs. rewrite <- (length_map block_height (blocks db')),
    (same_shape_heights _ _ Hs). apply length_map.
Qed.

(** ** The recursion has fuel enough *)

Lemma below_le_length (k : Z) (t : list DbBlock) : below k t <= length t.
Proof.
  unfold below. rewrite <- (length_map block_height t). apply filter_length_le.
Qed.

Lemma below_mono (k : Z) (t : list DbBlock) : below k t <= below (k + 1) t.
Proof.
  unfold below. induction t as [|x t IH]; cbn; [lia|].
  destruct (block_height x <? k)%Z eqn:E1, (block_height x <? k + 1)%Z eqn:E2;
    cbn; lia.
Qed.

Lemma below_lt (b : DbBlock) (t : list DbBlock) :
  In b t -> below (block_height b) t < below (block_height b + 1) t.
Proof.
  induction t as [|x t IH]; [contradiction|]. intros [->|Hin].
  - pose proof (below_mono (block_height b) t) as Hm. unfold below in *. cbn.
    rewrite Z.ltb_irrefl.
    replace (block_height b <? block_height b + 1)%Z with true
      by (symmetry; apply Z.ltb_lt; lia).
    cbn. lia.
  - specialize (IH Hin). unfold below in *. cbn.
    destruct (block_height x <? block_height b)%Z eqn:E1,
      (block_height x <? block_height b + 1)%Z eqn:E2; cbn; lia.
Qed.

Lemma filter_singleton {A} (p : A -> bool) (l : list A) (a x : A) :
  filter p l = [a] -> In x l -> p x = true -> x = a.
Proof.
  intros E Hin Hp.
  assert (H : In x (filter p l)) by (apply filter_In; auto).
  rewrite E in H. destruct H as [H|[]]. now symmetry.
Qed.

Lemma filter_singleton_In {A} (p : A -> bool) (l : list A) (a : A) :
  filter p l = [a] -> In a l /\ p a = true.
Proof.
  intro E. apply filter_In. rewrite E. now left.
Qed.

Lemma need_positive (h : Hash) (db : Db) : 1 <= need h db.
Proof. unfold need. destruct (orphaned_with h db) as [|b [|b' l]]; lia. Qed.

Lemma need_top (h : Hash) (db : Db) : need h db <= S (length (blocks db)).
Proof.
  unfold need. pose proof (below_le_length 0 (blocks db)).
  destruct (orphaned_with h db) as [|b [|b' l]]; try lia.
  pose proof (below_le_length (block_height b + 1) (blocks db)). lia.
Qed.

Lemma orphaned_parent_facts (b p : DbBlock) (db : Db) :
  orphaned_parents b db = [p] ->
  In p (blocks db)
  /\ block_height p = (block_height b - 1)%Z
  /\ index_block_hash p = parent_index_block_hash b
  /\ canonical p = false.
Proof.
  intro E. apply filter_singleton_In in E as [Hin Hp].
  apply andb_prop in Hp as [Hp Hc]. apply andb_prop in Hp as [Hh Hi].
  apply Z.eqb_eq in Hh. apply String.eqb_eq in Hi.
  apply negb_true_iff in Hc. auto.
Qed.

Lemma orphaned_with_self (p : DbBlock) (db : Db) :
  In p (blocks db) -> canonical p = false ->
  forall b, orphaned_with (index_block_hash p) db = [b] -> b = p.
Proof.
  intros Hin Hc b E. symmetry. unfold orphaned_with in E.
  apply (filter_singleton _ _ _ _ E Hin).
  now rewrite String.eqb_refl, Hc.
Qed.

Lemma need_step (h : Hash) (b p : DbBlock) (db : Db) (fuel : nat) :
  orphaned_with h db = [b] ->
  orphaned_parents b (restore_one h b db) = [p] ->
  need h db <= S fuel ->
  need (index_block_hash p) (restore_one h b db) <= fuel.
Proof.
  intros Eb Ep Hn. unfold need in Hn. rewrite Eb in Hn.
  apply filter_singleton_In in Eb as [Hb _].
  pose proof (below_lt b (blocks db) Hb) as Hlt.
  destruct (orphaned_parent_facts _ _ _ Ep) as (Hin & Hh & _ & Hc).
  unfold need.
  destruct (orphaned_with (index_block_hash p) (restore_one h b db))
    as [|b1 [|b2 l]] eqn:E; try lia.
  apply (orphaned_with_self _ _ Hin Hc) in E. subst b1.
  rewrite (same_shape_below _ _ _ (same_shape_restore_one h b db)).
  rewrite Hh. replace (block_height b - 1 + 1)%Z with (block_height b) by lia.
  lia.
Qed.

(** ** [restoreOrphanedChain] against the steps it stands for *)

Lemma state_after_events {A} (evs : list Effect) (r : Res A) :
  state_after (after_events evs r) = state_after r.
Proof. reflexivity. Qed.

Lemma restoreOrphanedChain_rec_restores (fuel : nat) :
  forall h u c,
    need h (pending c) <= fuel ->
    restores (pending c) h (state_after (restoreOrphanedChain_rec fuel h u c)).
Proof.
  induction fuel as [|fuel IH]; intros h u c Hn.
  - pose proof (need_positive h (pending c)). lia.
  - rewrite restoreOrphanedChain_rec_step, bind_run.
    destruct (orphaned_with h (pending c)) as [|b [|b' l]] eqn:E.
    + destruct (restore_step_none h u c E) as [-> _].
      now apply restores_not_found.
    + destruct (restore_step_one h u c b E) as (u' & n & marks & -> & _ & _).
      cbn [res conn events]. rewrite state_after_events.
      unfold restore_parents. cbn [fst snd].
      destruct (orphaned_parents b (restore_one h b (pending c)))
        as [|p [|p' ps]] eqn:Ep.
      * now apply restores_last.
      * eapply restores_parent; eauto.
        apply (IH (index_block_hash p) (incr_blocks u')
                 (mkClient (persisted c) (restore_one h b (pending c)))).
        cbn [pending]. eapply need_step; eauto.
      * eapply restores_several_parents; eauto.
    + destruct (restore_step_several h u c b b' l E) as [-> _].
      eapply restores_several; eauto.
Qed.

Lemma restores_functional (db : Db) (h : Hash) (r1 r2 : Outcome Db) :
  restores db h r1 -> restores db h r2 -> r1 = r2.
Proof.
  intro H1. revert r2.
  induction H1 as [db h E|db h b b' l E|db h b E Ep|db h b p r E Ep Hr IH
                   |db h b p p' l E Ep];
    intros r2 H2; inversion H2; subst;
    repeat match goal with
           | H : orphaned_with ?h ?db = _, H' : orphaned_with ?h ?db = _ |- _ =>
               rewrite H in H'; first [discriminate H' | injection H' as <-]
           | H : orphaned_parents ?b ?db = _, H' : orphaned_parents ?b ?db = _ |- _ =>
               rewrite H in H'; first [discriminate H' | injection H' as <-]
           end;
    try reflexivity.
  now apply IH.
Qed.

Lemma restores_returns (db : Db) (h : Hash) (r : Outcome Db) :
  restores db h r -> r <> OutOfFuel.
Proof. induction 1; auto; discriminate. Qed.

(** ** The steps as amended, where no two canonical blocks share a height *)

Lemma blocks_restore_one (h : Hash) (b : DbBlock) (db : Db) :
  blocks (restore_one h b db)
  = flag_where (is_sibling (block_height b) h) false
      (flag_where (fun x => String.eqb (index_block_hash x) h) true (blocks db)).
Proof.
  unfold restore_one. now destruct (canonical_siblings _ _ _).
Qed.

Lemma canonical_at_filter (k : Z) (t : list DbBlock) :
  canonical_at k t
  = filter canonical (filter (fun b => Z.eqb (block_height b) k) t).
Proof. unfold canonical_at. now rewrite filter_filter. Qed.

Lemma flag_where_elsewhere (q w : DbBlock -> bool) (flag : bool)
    (t : list DbBlock) :
  (forall b, q (with_canonical flag b) = q b) ->
  (forall b, In b t -> w b = true -> q b = true -> with_canonical flag b = b) ->
  filter q (flag_where w flag t) = filter q t.
Proof.
  intros Hq. unfold flag_where. induction t as [|b t IH]; intro H; [reflexivity|].
  cbn [map filter]. rewrite IH by (intros; apply H; auto; now right).
  destruct (w b) eqn:Ew; [|reflexivity].
  rewrite Hq. destruct (q b) eqn:Eq; [|reflexivity].
  rewrite H; auto. now left.
Qed.

Lemma canonical_at_restore_one (h : Hash) (b : DbBlock) (db : Db) (k : Z) :
  orphaned_with h db = [b] -> k <> block_height b ->
  canonical_at k (blocks (restore_one h b db)) = canonical_at k (blocks db).
Proof.
  intros E Hk. rewrite !canonical_at_filter, blocks_restore_one. f_equal.
  rewrite flag_where_elsewhere.
  - apply flag_where_elsewhere; [reflexivity|].
    intros x Hin Hw Hx. apply Z.eqb_eq in Hx.
    destruct (canonical x) eqn:Hc.
    + rewrite <- Hc. apply with_canonical_id.
    + assert (x = b).
      { apply (filter_singleton _ _ _ _ E Hin). now rewrite Hw, Hc. }
      subst x. now destruct Hk.
  - reflexivity.
  - intros x _ Hw Hx. unfold is_sibling in Hw.
    apply andb_prop in Hw as [Hw _]. apply Z.eqb_eq in Hw, Hx.
    destruct Hk. congruence.
Qed.

Lemma one_canonical_sparse (db : Db) :
  one_canonical_per_height db = true -> forall top, sparse_upto top db.
Proof.
  intros H top k _.
  destruct (canonical_at k (blocks db)) as [|x l] eqn:E; [cbn; lia|].
  assert (Hx : In x (canonical_at k (blocks db))) by (rewrite E; now left).
  apply filter_In in Hx as [Hin Hx]. apply andb_prop in Hx as [Hx _].
  apply Z.eqb_eq in Hx.
  unfold one_canonical_per_height in H. rewrite forallb_forall in H.
  specialize (H x Hin). rewrite Hx, E in H. now apply Nat.leb_le in H.
Qed.

Lemma canonical_siblings_sparse (k : Z) (h : Hash) (db : Db) :
  length (canonical_siblings k h (flag_block h db))
  <= length (canonical_at k (blocks db)).
Proof.
  unfold canonical_siblings, canonical_at, flag_block, set_blocks, flag_where,
    is_sibling.
  cbn [blocks]. induction (blocks db) as [|x t IH]; [reflexivity|].
  cbn [map filter]. destruct (String.eqb (index_block_hash x) h) eqn:Eh.
  - change (index_block_hash (with_canonical true x)) with (index_block_hash x).
    rewrite Eh, andb_false_r. cbn [andb].
    destruct (Z.eqb (block_height x) k && canonical x); cbn [length]; lia.
  - rewrite Eh. cbn [negb]. rewrite andb_true_r.
    destruct (Z.eqb (block_height x) k && canonical x); cbn [length]; lia.
Qed.

Lemma restore_one_described (h : Hash) (b : DbBlock) (db : Db) :
  sparse_upto (block_height b) db ->
  restore_one h b db = described_restore_one h b db.
Proof.
  intro Hs. unfold restore_one, described_restore_one.
  pose proof (canonical_siblings_sparse (block_height b) h db) as Hl.
  specialize (Hs (block_height b) (Z.le_refl _)).
  destruct (canonical_siblings (block_height b) h (flag_block h db))
    as [|x [|y l]]; try reflexivity.
  cbn [length] in Hl. lia.
Qed.

Lemma restores_amended (db : Db) (h : Hash) (r : Outcome Db) :
  restores db h r ->
  (forall b, orphaned_with h db = [b] -> sparse_upto (block_height b) db) ->
  amended_restores db h r.
Proof.
  induction 1 as [db h E|db h b b' l E|db h b E Ep|db h b p r E Ep Hr IH
                  |db h b p p' l E Ep];
    intro Hs.
  - now apply amended_not_found.
  - eapply amended_several; eauto.
  - rewrite (restore_one_described h b db (Hs b E)) in *.
    now apply amended_last.
  - pose proof (restore_one_described h b db (Hs b E)) as Ed.
    eapply amended_parent; [exact E|rewrite <- Ed; exact Ep|].
    rewrite <- Ed. apply IH. intros b0 E0.
    destruct (orphaned_parent_facts _ _ _ Ep) as (Hin & Hh & _ & Hc).
    apply (orphaned_with_self _ _ Hin Hc) in E0. subst b0.
    intros k Hk. rewrite canonical_at_restore_one; [|exact E|lia].
    apply (Hs b E). lia.
  - rewrite (restore_one_described h b db (Hs b E)) in *.
    eapply amended_several_parents; eauto.
Qed.

Lemma amended_functional (db : Db) (h : Hash) (r1 r2 : Outcome Db) :
  amended_restores db h r1 -> amended_restores db h r2 -> r1 = r2.
Proof.
  intro H1. revert r2.
  induction H1 as [db h E|db h b b' l E|db h b E Ep|db h b p r E Ep Hr IH
                   |db h b p p' l E Ep];
    intros r2 H2; inversion H2; subst;
    repeat match goal with
           | H : orphaned_with ?h ?db = _, H' : orphaned_with ?h ?db = _ |- _ =>
               rewrite H in H'; first [discriminate H' | injection H' as <-]
           | H : orphaned_parents ?b ?db = _, H' : orphaned_parents ?b ?db = _ |- _ =>
               rewrite H in H'; first [discriminate H' | injection H' as <-]
           end;
    try reflexivity.
  now apply IH.
Qed.

(** C1 (as amended). In every state in which no two canonical blocks
    share a height and for every hash h, [restoreOrphanedChain] fails
    when no non-canonical block has hash h (so also when the block is
    stored but already canonical) or when several have; otherwise it
    makes that block canonical, makes any other canonical block of the
    same height non-canonical together with that block's transactions,
    events, contract logs and smart contracts, makes the entities
    stored under h canonical, and then, when exactly one non-canonical
    block sits at (block_height - 1, parent_index_block_hash), does the
    same for that block, failing when several sit there; these steps
    determine how the call ends and the state it leaves, and it never
    touches the committed state. *)
Theorem restoreOrphanedChain_restores (h : Hash) (u : UpdatedEntities)
    (c : Client) :
  one_canonical_per_height (pending c) = true ->
  amended_restores (pending c) h (state_after (restoreOrphanedChain h u c))
  /\ (forall r, amended_restores (pending c) h r ->
                r = state_after (restoreOrphanedChain h u c))
  /\ persisted (conn (restoreOrphanedChain h u c)) = persisted c.
Proof.
  intro Hone.
  assert (H : amended_restores (pending c) h
                (state_after (restoreOrphanedChain h u c))).
  { apply restores_amended.
    - unfold restoreOrphanedChain.
      apply restoreOrphanedChain_rec_restores, need_top.
    - intros b _. now apply one_canonical_sparse. }
  split; [exact H|]. split.
  - intros r Hr. exact (amended_functional _ _ _ _ Hr H).
  - apply statements_only_restoreOrphanedChain.
Qed.

(** On [deep_fork] the call restores the fork's top, orphans the
    canonical block of height 3 with its transaction, goes on to the
    fork's block of height 2 and does the same there, and stops at the
    canonical block of height 1. *)
Lemma restoreOrphanedChain_restores_witness :
  state_after (restoreOrphanedChain "0xf3" no_updates (connect deep_fork))
  = Ok deep_fork_restored
  /\ amended_restores deep_fork "0xf3"
       (state_after (restoreOrphanedChain "0xf3" no_updates (connect deep_fork)))
  /\ calls (events (restoreOrphanedChain "0xf3" no_updates (connect deep_fork)))
     = 2.
Proof.
  split; [reflexivity|]. split; [|reflexivity].
  apply (restoreOrphanedChain_restores "0xf3" no_updates (connect deep_fork)).
  reflexivity.
Defined.

(** C1 as first stated fails on the code: on a lone block that is
    already canonical the steps as described succeed, and
    [restoreOrphanedChain] throws. *)
Lemma restoreOrphanedChain_not_as_described :
  one_canonical_per_height lone_canonical = true
  /\ state_after (restoreOrphanedChain "0xa1" no_updates (connect lone_canonical))
     = Throw (OrphanedBlockNotFound "0xa1")
  /\ ~ described_restores lone_canonical "0xa1"
         (state_after
            (restoreOrphanedChain "0xa1" no_updates (connect lone_canonical))).
Proof.
  split; [reflexivity|]. split; [reflexivity|].
  assert (E : state_after
                (restoreOrphanedChain "0xa1" no_updates (connect lone_canonical))
              = Throw (OrphanedBlockNotFound "0xa1")) by reflexivity.
  rewrite E. intro H. inversion H; subst;
    match goal with
    | Hb : blocks_with _ _ = _ |- _ =>
        vm_compute in Hb; first [discriminate Hb | injection Hb as <-]
    end.
  match goal with
  | Hp : orphaned_parents _ _ = _ |- _ => vm_compute in Hp; discriminate Hp
  end.
Qed.

(** Where two canonical blocks share the height of the restored block,
    both are orphaned and [markEntitiesCanonical] runs for the first
    row only: the transaction of the second stays canonical under its
    orphaned block. *)
Example restoreOrphanedChain_two_canonical_siblings :
  let r := restoreOrphanedChain "0xb1" no_updates (connect two_canonical_siblings) in
  one_canonical_per_height two_canonical_siblings = false
  /\ map canonical (blocks (pending (conn r))) = [true; false; false]
  /\ map canonical (txs_table (pending (conn r))) = [false; true].
Proof. cbv zeta. repeat split. Qed.

(** ** The heights [restoreOrphanedChain] visits *)

Lemma visited_app (a b : list Effect) : visited (a ++ b) = visited a ++ visited b.
Proof. apply flat_map_app. Qed.

Lemma calls_app (a b : list Effect) : calls (a ++ b) = calls a + calls b.
Proof. unfold calls. now rewrite filter_app, length_app. Qed.

Lemma marks_visit_nothing (marks : list Effect) :
  forallb is_mark marks = true -> visited marks = [] /\ calls marks = 0.
Proof.
  induction marks as [|e marks IH]; [now split|]. cbn [forallb].
  intro H. apply andb_prop in H as [He Hm]. destruct (IH Hm) as [IHv IHc].
  destruct e as [| | |[]| |]; try discriminate He.
  split; [exact IHv|exact IHc].
Qed.

Lemma heights_at_least (db db' : Db) (k : Z) :
  same_shape db db' ->
  (forall x, In x (blocks db) -> (k <= block_height x)%Z) ->
  forall x, In x (blocks db') -> (k <= block_height x)%Z.
Proof.
  intros Hs Hall x Hin.
  apply (in_map block_height) in Hin.
  rewrite (same_shape_heights _ _ Hs) in Hin.
  apply in_map_iff in Hin as (y & <- & Hy). auto.
Qed.

Lemma restore_parents_nothing (fuel : nat) (u : UpdatedEntities)
    (parents : list DbBlock) (c : Client) :
  (parents = [] \/ exists p p' l, parents = p :: p' :: l) ->
  events (restore_parents fuel (u, parents) c) = [].
Proof.
  intros [->|(p & p' & l & ->)]; reflexivity.
Qed.

(** The record of one call that finds its block, in terms of what the
    calls below it record. *)
Lemma restoreOrphanedChain_rec_events (fuel : nat) (h : Hash)
    (u : UpdatedEntities) (c : Client) (b : DbBlock) :
  orphaned_with h (pending c) = [b] ->
  exists u' below_events,
    below_events
    = events (restore_parents fuel
                (u', orphaned_parents b (restore_one h b (pending c)))
                (mkClient (persisted c) (restore_one h b (pending c))))
    /\ visited (events (restoreOrphanedChain_rec (S fuel) h u c))
       = block_height b :: visited below_events
    /\ calls (events (restoreOrphanedChain_rec (S fuel) h u c))
       = S (calls below_events).
Proof.
  intro E. rewrite restoreOrphanedChain_rec_step, bind_run.
  destruct (restore_step_one h u c b E) as (u' & n & marks & -> & Hm & _).
  cbn [res conn events after_events].
  destruct (marks_visit_nothing marks Hm) as [Hv Hc].
  exists u'. eexists. split; [reflexivity|].
  split.
  - change (?a :: ?b :: ?l ++ ?m) with ([a; b] ++ l ++ m).
    rewrite !visited_app, Hv. reflexivity.
  - change (?a :: ?b :: ?l ++ ?m) with ([a; b] ++ l ++ m).
    rewrite !calls_app, Hc. reflexivity.
Qed.

Lemma restoreOrphanedChain_rec_no_block (fuel : nat) (h : Hash)
    (u : UpdatedEntities) (c : Client) :
  (orphaned_with h (pending c) = []
   \/ exists b b' l, orphaned_with h (pending c) = b :: b' :: l) ->
  visited (events (restoreOrphanedChain_rec (S fuel) h u c)) = []
  /\ calls (events (restoreOrphanedChain_rec (S fuel) h u c)) = 1.
Proof.
  intro H. rewrite restoreOrphanedChain_rec_step, bind_run.
  destruct H as [E|(b & b' & l & E)].
  - destruct (restore_step_none h u c E) as [-> ->]. now split.
  - destruct (restore_step_several h u c b b' l E) as [-> ->]. now split.
Qed.

Lemma restoreOrphanedChain_rec_descends (fuel : nat) :
  forall h u c b,
    orphaned_with h (pending c) = [b] ->
    need h (pending c) <= fuel ->
    let evs := events (restoreOrphanedChain_rec fuel h u c) in
    descending_by_one (visited evs)
    /\ hd_error (visited evs) = Some (block_height b)
    /\ calls evs <= below (block_height b + 1) (blocks (pending c))
    /\ ((forall x, In x (blocks (pending c)) -> (1 <= block_height x)%Z) ->
        (Z.of_nat (calls evs) <= block_height b)%Z).
Proof.
  induction fuel as [|fuel IH]; intros h u c b E Hn evs; subst evs.
  - pose proof (need_positive h (pending c)). lia.
  - destruct (restoreOrphanedChain_rec_events fuel h u c b E)
      as (u' & evs & Hevs & -> & ->).
    destruct (filter_singleton_In _ _ _ E) as [Hb _].
    pose proof (below_lt b (blocks (pending c)) Hb) as Hlt.
    set (db1 := restore_one h b (pending c)) in *.
    pose proof (same_shape_restore_one h b (pending c)) as Hs. fold db1 in Hs.
    destruct (orphaned_parents b db1) as [|p [|p' ps]] eqn:Ep.
    + rewrite restore_parents_nothing in Hevs by now left. subst evs.
      cbn. (split; [|split; [|split]]); try lia; try exact I; try reflexivity. intro Hall. specialize (Hall b Hb). lia.
    + destruct (orphaned_parent_facts _ _ _ Ep) as (Hin & Hh & _ & Hc).
      pose proof (below_lt p (blocks db1) Hin) as Hltp.
      rewrite Hh in Hltp.
      replace (block_height b - 1 + 1)%Z with (block_height b) in Hltp by lia.
      rewrite !(same_shape_below _ _ _ Hs) in Hltp.
      unfold restore_parents in Hevs. cbn [fst snd] in Hevs.
      destruct (orphaned_with (index_block_hash p) db1) as [|b1 [|b2 l]] eqn:E1.
      * destruct fuel as [|fuel].
        { pose proof (need_step h b p (pending c) 0 E Ep Hn) as Hz.
          pose proof (need_positive (index_block_hash p) (restore_one h b (pending c))).
          lia. }
        destruct (restoreOrphanedChain_rec_no_block fuel (index_block_hash p)
                    (incr_blocks u') (mkClient (persisted c) db1)) as [Hv Hcl];
          [now left|].
        rewrite <- Hevs in Hv, Hcl. rewrite Hv, Hcl. cbn.
        (split; [|split; [|split]]); try lia; try exact I; try reflexivity. intro Hall.
        pose proof (heights_at_least _ _ 1 Hs Hall p Hin). lia.
      * pose proof (orphaned_with_self p db1 Hin Hc b1 E1). subst b1.
        destruct (IH (index_block_hash p) (incr_blocks u')
                    (mkClient (persisted c) db1) p E1
                    (need_step h b p (pending c) fuel E Ep Hn))
          as (Hd & Hhd & Hcl & Hone).
        rewrite <- Hevs in Hd, Hhd, Hcl, Hone. cbn [pending] in Hcl, Hone.
        rewrite Hh in Hhd, Hcl, Hone.
        replace (block_height b - 1 + 1)%Z with (block_height b) in Hcl by lia.
        rewrite (same_shape_below _ _ _ Hs) in Hcl.
        (split; [|split; [|split]]); cbn [hd_error]; try lia; try reflexivity.
        -- destruct (visited evs) as [|k ks]; [exact I|].
           injection Hhd as ->. split; [reflexivity|exact Hd].
        -- intro Hall.
           specialize (Hone (heights_at_least _ _ 1 Hs Hall)). lia.
      * destruct fuel as [|fuel].
        { pose proof (need_step h b p (pending c) 0 E Ep Hn) as Hz.
          pose proof (need_positive (index_block_hash p) (restore_one h b (pending c))).
          lia. }
        destruct (restoreOrphanedChain_rec_no_block fuel (index_block_hash p)
                    (incr_blocks u') (mkClient (persisted c) db1)) as [Hv Hcl];
          [right; eauto|].
        rewrite <- Hevs in Hv, Hcl. rewrite Hv, Hcl. cbn.
        (split; [|split; [|split]]); try lia; try exact I; try reflexivity. intro Hall.
        pose proof (heights_at_least _ _ 1 Hs Hall p Hin). lia.
    + rewrite restore_parents_nothing in Hevs by (right; eauto). subst evs.
      cbn. (split; [|split; [|split]]); try lia; try exact I; try reflexivity. intro Hall. specialize (Hall b Hb). lia.
Qed.

Lemma restoreOrphanedChain_rec_fuel (fuel : nat) :
  forall h u c,
    need h (pending c) <= fuel ->
    restoreOrphanedChain_rec (S fuel) h u c = restoreOrphanedChain_rec fuel h u c.
Proof.
  induction fuel as [|fuel IH]; intros h u c Hn.
  - pose proof (need_positive h (pending c)). lia.
  - rewrite (restoreOrphanedChain_rec_step (S fuel)),
      (restoreOrphanedChain_rec_step fuel), !bind_run.
    destruct (orphaned_with h (pending c)) as [|b [|b' l]] eqn:E.
    + now destruct (restore_step_none h u c E) as [-> _].
    + destruct (restore_step_one h u c b E) as (u' & n & marks & -> & _ & _).
      cbn [res conn events]. f_equal. unfold restore_parents. cbn [fst snd].
      destruct (orphaned_parents b (restore_one h b (pending c)))
        as [|p [|p' ps]] eqn:Ep; try reflexivity.
      apply IH. cbn [pending]. eapply need_step; eauto.
    + now destruct (restore_step_several h u c b b' l E) as [-> _].
Qed.

Lemma restoreOrphanedChain_more_fuel (extra : nat) (h : Hash)
    (u : UpdatedEntities) (c : Client) :
  restoreOrphanedChain_rec (extra + S (length (blocks (pending c)))) h u c
  = restoreOrphanedChain h u c.
Proof.
  induction extra as [|extra IH]; [reflexivity|].
  cbn [Nat.add]. rewrite restoreOrphanedChain_rec_fuel; [exact IH|].
  pose proof (need_top h (pending c)). lia.
Qed.

Lemma restoreOrphanedChain_rec_stored_heights (fuel : nat) :
  forall h u c k,
    need h (pending c) <= fuel ->
    In k (visited (events (restoreOrphanedChain_rec fuel h u c))) ->
    In k (map block_height (blocks (pending c))).
Proof.
  induction fuel as [|fuel IH]; intros h u c k Hn Hk.
  - pose proof (need_positive h (pending c)). lia.
  - destruct (orphaned_with h (pending c)) as [|b [|b' l]] eqn:E.
    + destruct (restoreOrphanedChain_rec_no_block fuel h u c) as [Hv _];
        [now left|]. rewrite Hv in Hk. destruct Hk.
    + destruct (restoreOrphanedChain_rec_events fuel h u c b E)
        as (u' & evs & Hevs & Hv & _).
      rewrite Hv in Hk. destruct Hk as [<-|Hk].
      * apply in_map. now apply (filter_singleton_In _ _ _ E).
      * pose proof (same_shape_restore_one h b (pending c)) as Hs.
        rewrite <- (same_shape_heights _ _ Hs).
        destruct (orphaned_parents b (restore_one h b (pending c)))
          as [|p [|p' ps]] eqn:Ep.
        -- rewrite restore_parents_nothing in Hevs by now left.
           subst evs. destruct Hk.
        -- subst evs. unfold restore_parents in Hk. cbn [fst snd] in Hk.
           exact (IH (index_block_hash p) (incr_blocks u')
                    (mkClient (persisted c) (restore_one h b (pending c))) k
                    (need_step h b p (pending c) fuel E Ep Hn) Hk).
        -- rewrite restore_parents_nothing in Hevs by (right; eauto).
           subst evs. destruct Hk.
    + destruct (restoreOrphanedChain_rec_no_block fuel h u c) as [Hv _];
        [right; eauto|]. rewrite Hv in Hk. destruct Hk.
Qed.

(** C10 (as amended). [restoreOrphanedChain] returns on every state, and
    more fuel than it takes changes nothing; the heights it visits go
    down by exactly one from call to call, and each is the height of a
    stored block, so none is below the least stored height; when no
    non-canonical block or more than one has the hash, it makes one
    call and visits nothing; when it finds its starting block, it
    starts at that block's height, makes at most as many calls as
    there are stored blocks no higher than the starting block and,
    when every stored block has height at least 1, at most as many
    calls as the starting block's height. *)
Theorem restoreOrphanedChain_terminates (h : Hash) (u : UpdatedEntities)
    (c : Client) :
  let r := restoreOrphanedChain h u c in
  res r <> OutOfFuel
  /\ (forall extra,
        restoreOrphanedChain_rec (extra + S (length (blocks (pending c)))) h u c
        = r)
  /\ descending_by_one (visited (events r))
  /\ (forall k, In k (visited (events r)) ->
                exists x, In x (blocks (pending c)) /\ block_height x = k)
  /\ (orphaned_with h (pending c) = []
      \/ (exists b b' l, orphaned_with h (pending c) = b :: b' :: l) ->
      visited (events r) = [] /\ calls (events r) = 1)
  /\ forall b,
       orphaned_with h (pending c) = [b] ->
       hd_error (visited (events r)) = Some (block_height b)
       /\ calls (events r) <= below (block_height b + 1) (blocks (pending c))
       /\ ((forall x, In x (blocks (pending c)) -> (1 <= block_height x)%Z) ->
           (Z.of_nat (calls (events r)) <= block_height b)%Z).
Proof.
  intro r. subst r.
  assert (Hret : res (restoreOrphanedChain h u c) <> OutOfFuel).
  { pose proof (restoreOrphanedChain_rec_restores _ h u c (need_top h (pending c)))
      as Hr.
    apply restores_returns in Hr. unfold state_after in Hr.
    fold (restoreOrphanedChain h u c) in Hr.
    intro E. rewrite E in Hr. now apply Hr. }
  split; [exact Hret|]. split.
  { intro extra. apply restoreOrphanedChain_more_fuel. }
  assert (Hstored : forall k,
             In k (visited (events (restoreOrphanedChain h u c))) ->
             exists x, In x (blocks (pending c)) /\ block_height x = k).
  { intros k Hk. unfold restoreOrphanedChain in Hk.
    apply restoreOrphanedChain_rec_stored_heights in Hk; [|apply need_top].
    apply in_map_iff in Hk as (x & Hx & Hin). eauto. }
  unfold restoreOrphanedChain in *.
  destruct (orphaned_with h (pending c)) as [|b [|b' l]] eqn:E.
  - destruct (restoreOrphanedChain_rec_no_block (length (blocks (pending c)))
                h u c) as [Hv Hc]; [now left|].
    split; [rewrite Hv; exact I|]. split; [exact Hstored|].
    split; [now intros _|]. intros b Hb. discriminate Hb.
  - destruct (restoreOrphanedChain_rec_descends _ h u c b E
                (need_top h (pending c))) as (Hd & Hhd & Hcl & Hone).
    split; [exact Hd|]. split; [exact Hstored|]. split.
    + intros [H|(b1 & b2 & l & H)]; discriminate H.
    + intros b0 Hb. injection Hb as <-. repeat split; assumption.
  - destruct (restoreOrphanedChain_rec_no_block (length (blocks (pending c)))
                h u c) as [Hv Hc]; [right; eauto|].
    split; [rewrite Hv; exact I|]. split; [exact Hstored|].
    split; [now intros _|]. intros b0 Hb. discriminate Hb.
Qed.

(** Restoring the top of the fork of [deep_fork], a block of height 3,
    takes two calls, one of them recursive, at the heights 3 and 2. *)
Lemma restoreOrphanedChain_terminates_witness :
  visited (events (restoreOrphanedChain "0xf3" no_updates (connect deep_fork)))
  = [3; 2]%Z
  /\ calls (events (restoreOrphanedChain "0xf3" no_updates (connect deep_fork)))
     = 2
  /\ (Z.of_nat
        (calls (events (restoreOrphanedChain "0xf3" no_updates (connect deep_fork))))
      <= 3)%Z.
Proof.
  split; [reflexivity|]. split; [reflexivity|].
  apply (restoreOrphanedChain_terminates "0xf3" no_updates (connect deep_fork))
    with (b := sample_block "0xf3" "0xf2" 3 false).
  - reflexivity.
  - intros x Hin. cbn in Hin.
    destruct Hin as [<-|[<-|[<-|[<-|[<-|[]]]]]]; cbn; lia.
Defined.

(** C10 as first stated fails on the code: restoring the top of an
    orphaned chain that reaches from height 1 down to height -1 takes
    three calls, two of them recursive, from a starting block of height
    1. *)
Lemma restoreOrphanedChain_deeper_than_height :
  let r := restoreOrphanedChain "0xd1" no_updates (connect chain_below_one) in
  orphaned_with "0xd1" chain_below_one = [sample_block "0xd1" "0xd0" 1 false]
  /\ visited (events r) = [1; 0; -1]%Z
  /\ option_map upd_blocks
       (match res r with Ok u => Some u | _ => None end) = Some 2
  /\ ~ (Z.of_nat (calls (events r)) <= 1)%Z
  /\ ~ (Z.of_nat (calls (events r) - 1) <= 1)%Z.
Proof.
  cbv zeta. split; [reflexivity|]. split; [reflexivity|].
  split; [reflexivity|].
  assert (E : calls (events (restoreOrphanedChain "0xd1" no_updates
                               (connect chain_below_one))) = 3)
    by reflexivity.
  rewrite E. split; lia.
Qed.

(** ** Code that returns *)

Lemma returns_ret {A} (a : A) : returns (ret a).
Proof. intro c. discriminate. Qed.

Lemma returns_throw {A} (e : StoreError) : returns (@throw A e).
Proof. intro c. discriminate. Qed.

Lemma returns_bind {A B} (m : M A) (k : A -> M B) :
  returns m -> (forall a, returns (k a)) -> returns (bind m k).
Proof.
  intros Hm Hk c. rewrite bind_run. specialize (Hm c).
  destruct (res (m c)) as [a| |]; cbn [after_events res]; try discriminate.
  - apply Hk.
  - now destruct Hm.
Qed.

Lemma returns_for_each {A} (l : list A) (f : A -> M unit) :
  (forall a, returns (f a)) -> returns (for_each l f).
Proof.
  intro Hf. induction l as [|x l IH]; cbn [for_each].
  - apply returns_ret.
  - apply returns_bind; auto.
Qed.

Lemma returns_query_insert (rejects : Statement -> Db -> bool) (s : Statement)
    (conflict : Db -> bool) (ins : Db -> Db) :
  returns (query_insert rejects s conflict ins).
Proof.
  intro c. unfold query_insert.
  destruct (conflict (pending c)); [discriminate|].
  destruct (rejects s (pending c)); discriminate.
Qed.

Lemma returns_insert_entry (rejects : Statement -> Db -> bool)
    (entry : DataStoreTxEntry) :
  returns (insert_entry rejects entry).
Proof.
  unfold insert_entry, updateTx, updateStxEvent, updateFtEvent, updateNftEvent,
    updateSmartContractEvent, updateSmartContract.
  repeat first
    [ apply returns_bind; [|intro]
    | apply returns_for_each; intro
    | apply returns_query_insert
    | apply returns_ret ].
Qed.

Lemma returns_restoreOrphanedChain (h : Hash) (u : UpdatedEntities) :
  returns (restoreOrphanedChain h u).
Proof.
  intros c E.
  pose proof (restoreOrphanedChain_rec_restores _ h u c (need_top h (pending c)))
    as Hr.
  apply restores_returns in Hr. unfold state_after in Hr.
  fold (restoreOrphanedChain h u c) in Hr. rewrite E in Hr. now apply Hr.
Qed.

Lemma returns_handleReorg (blk : DbBlock) (tip : Z) : returns (handleReorg blk tip).
Proof.
  unfold handleReorg. destruct (1 <? block_height blk)%Z; [|apply returns_ret].
  apply returns_bind.
  - intro c. unfold query_rows. now destruct (select_parent _ _ _).
  - intros [|parent [|p2 ps]]; try apply returns_throw.
    destruct (negb (canonical parent) && (tip <? block_height blk)%Z);
      [apply returns_restoreOrphanedChain|apply returns_ret].
Qed.

(** ** [update], step by step *)

Lemma getChainTipHeight_run (c : Client) :
  getChainTipHeight c
  = mkRes (Ok (chain_tip (pending c))) c
      [Query SelectChainTip (length (chain_tip_rows (pending c)))].
Proof.
  unfold getChainTipHeight. rewrite bind_query_rows. cbn [fst snd].
  now rewrite client_eta.
Qed.

Lemma prelude_run (data : DataStoreUpdateData) (c : Client) :
  let tip := chain_tip (pending c) in
  let hr := handleReorg (block data) (blockHeight tip) c in
  prelude data c
  = mkRes (match res hr with
           | Ok _ => Ok tip
           | Throw e => Throw e
           | OutOfFuel => OutOfFuel
           end)
      (conn hr)
      (Begin :: Query SelectChainTip (length (chain_tip_rows (pending c)))
       :: events hr).
Proof.
  cbv zeta. unfold prelude. rewrite bind_run. cbn [query_begin res conn events].
  rewrite bind_run, getChainTipHeight_run. cbn [res conn events].
  rewrite bind_run.
  destruct (res (handleReorg (block data) (blockHeight (chain_tip (pending c))) c));
    unfold after_events, ret; cbn [res conn events app];
    rewrite ?app_nil_r; reflexivity.
Qed.

Lemma for_each_emit {A} (l : list A) (f : A -> Notification) (c : Client) :
  for_each l (fun a => emit (f a)) c
  = mkRes (Ok tt) c (map (fun a => Emit (f a)) l).
Proof.
  induction l as [|x l IH]; [reflexivity|].
  cbn [for_each]. rewrite bind_run. cbn [emit res conn events].
  now rewrite IH.
Qed.

Lemma commit_and_emit (data : DataStoreUpdateData) (c : Client) :
  (query_commit ;;;
   emit (blockUpdate (block data)) ;;;
   for_each (txs data) (fun entry => emit (txUpdate (tx entry)))) c
  = mkRes (Ok tt) (mkClient (pending c) (pending c))
      (Commit :: map Emit (batch_notifications data)).
Proof.
  rewrite bind_run. cbn [query_commit res conn events].
  rewrite bind_run. cbn [emit res conn events]. rewrite for_each_emit.
  unfold after_events, batch_notifications. cbn [res conn events app map].
  now rewrite map_map.
Qed.

Lemma write_batch_run (rejects : Statement -> Db -> bool)
    (data : DataStoreUpdateData) (c : Client) :
  let blk := block data in
  let c1 := mkClient (persisted c) (store_block blk (pending c)) in
  let ins := for_each (txs data) (insert_entry rejects) c1 in
  write_batch rejects data c
  = if block_known (pending c) blk then
      mkRes (Ok tt) (mkClient (pending c) (pending c))
        (Query (InsertBlock blk) 0 :: Commit :: map Emit (batch_notifications data))
    else if rejects (InsertBlock blk) (pending c) then
      mkRes (Throw (QueryFailed (InsertBlock blk))) c [Rejected (InsertBlock blk)]
    else
      match res ins with
      | Ok _ =>
          mkRes (Ok tt)
            (mkClient (pending (conn ins)) (pending (conn ins)))
            (Query (InsertBlock blk) 1
             :: events ins ++ Commit :: map Emit (batch_notifications data))
      | Throw e =>
          mkRes (Throw e) (conn ins) (Query (InsertBlock blk) 1 :: events ins)
      | OutOfFuel =>
          mkRes OutOfFuel (conn ins) (Query (InsertBlock blk) 1 :: events ins)
      end.
Proof.
  cbv zeta. unfold write_batch. rewrite bind_run.
  unfold updateBlock, query_insert. fold (block_known (pending c) (block data)).
  destruct (block_known (pending c) (block data)) eqn:Ek.
  - cbn [res conn events Nat.eqb]. rewrite bind_ret, commit_and_emit.
    reflexivity.
  - destruct (rejects (InsertBlock (block data)) (pending c)); [reflexivity|].
    cbn [res conn events Nat.eqb]. fold (store_block (block data) (pending c)).
    rewrite bind_run.
    destruct (res (for_each (txs data) (insert_entry rejects) _));
      cbn [res conn events after_events app]; try reflexivity.
    rewrite commit_and_emit. reflexivity.
Qed.

(** ** The inserts, when they all go through *)

Lemma bind_ok {A B} (m : M A) (k : A -> M B) (c : Client) (b : B) :
  res (bind m k c) = Ok b ->
  exists a,
    res (m c) = Ok a
    /\ res (k a (conn (m c))) = Ok b
    /\ conn (bind m k c) = conn (k a (conn (m c))).
Proof.
  rewrite bind_run. destruct (res (m c)) as [a| |]; try discriminate.
  cbn [after_events res conn]. intro E. now exists a.
Qed.

Lemma query_insert_ok (rejects : Statement -> Db -> bool) (s : Statement)
    (conflict : Db -> bool) (ins : Db -> Db) (c : Client) (n : nat) :
  res (query_insert rejects s conflict ins c) = Ok n ->
  conn (query_insert rejects s conflict ins c)
  = mkClient (persisted c)
      (if conflict (pending c) then pending c else ins (pending c)).
Proof.
  unfold query_insert. destruct (conflict (pending c)).
  - intros _. cbn [conn]. now rewrite client_eta.
  - destruct (rejects s (pending c)); [discriminate|reflexivity].
Qed.

Lemma for_each_plain_insert {E} (rejects : Statement -> Db -> bool)
    (stmt : Row E -> Statement) (get : Db -> list (Row E))
    (set : list (Row E) -> Db -> Db) (h : Hash) (l : list E) :
  (forall t db, get (set t db) = t) ->
  (forall t t' db, set t (set t' db) = set t db) ->
  (forall db, set (get db) db = db) ->
  forall c,
    res (for_each l
           (fun ev =>
              query_insert rejects (stmt (mkRow h ev)) (fun _ => false)
                (fun db => set (get db ++ [mkRow h ev]) db) ;;; ret tt) c)
    = Ok tt ->
    conn (for_each l
            (fun ev =>
               query_insert rejects (stmt (mkRow h ev)) (fun _ => false)
                 (fun db => set (get db ++ [mkRow h ev]) db) ;;; ret tt) c)
    = mkClient (persisted c) (set (get (pending c) ++ map (mkRow h) l) (pending c)).
Proof.
  intros Hgs Hss Hsg. induction l as [|ev l IH]; intros c Hok.
  - cbn. now rewrite app_nil_r, Hsg, client_eta.
  - cbn [for_each] in *.
    apply bind_ok in Hok as ([] & H1 & H2 & ->).
    apply bind_ok in H1 as (n & H1 & _ & E1).
    rewrite E1 in *. cbn [ret conn] in *.
    rewrite (query_insert_ok _ _ _ _ _ _ H1) in *. cbn [persisted pending] in *.
    rewrite (IH _ H2). cbn [persisted pending map].
    now rewrite Hgs, Hss, <- app_assoc.
Qed.

Lemma updateTx_ok (rejects : Statement -> Db -> bool) (t : DbTx) (c : Client)
    (n : nat) :
  res (updateTx rejects t c) = Ok n ->
  conn (updateTx rejects t c) = mkClient (persisted c) (store_tx t (pending c)).
Proof.
  intro H. unfold updateTx in *. rewrite (query_insert_ok _ _ _ _ _ _ H).
  reflexivity.
Qed.

Lemma stx_events_ok (rejects : Statement -> Db -> bool) (t : DbTx)
    (l : list DbStxEvent) :
  forall c,
    res (for_each l (updateStxEvent rejects t) c) = Ok tt ->
    conn (for_each l (updateStxEvent rejects t) c)
    = mkClient (persisted c)
        (set_stx_events
           (stx_events (pending c) ++ map (mkRow (tx_index_block_hash t)) l)
           (pending c)).
Proof.
  exact (for_each_plain_insert rejects InsertStxEvent stx_events set_stx_events
           (tx_index_block_hash t) l
           (fun _ _ => eq_refl) (fun _ _ _ => eq_refl)
           (fun db => match db with mkDb _ _ _ _ _ _ _ => eq_refl end)).
Qed.

Lemma ft_events_ok (rejects : Statement -> Db -> bool) (t : DbTx)
    (l : list DbFtEvent) :
  forall c,
    res (for_each l (updateFtEvent rejects t) c) = Ok tt ->
    conn (for_each l (updateFtEvent rejects t) c)
    = mkClient (persisted c)
        (set_ft_events
           (ft_events (pending c) ++ map (mkRow (tx_index_block_hash t)) l)
           (pending c)).
Proof.
  exact (for_each_plain_insert rejects InsertFtEvent ft_events set_ft_events
           (tx_index_block_hash t) l
           (fun _ _ => eq_refl) (fun _ _ _ => eq_refl)
           (fun db => match db with mkDb _ _ _ _ _ _ _ => eq_refl end)).
Qed.

Lemma nft_events_ok (rejects : Statement -> Db -> bool) (t : DbTx)
    (l : list DbNftEvent) :
  forall c,
    res (for_each l (updateNftEvent rejects t) c) = Ok tt ->
    conn (for_each l (updateNftEvent rejects t) c)
    = mkClient (persisted c)
        (set_nft_events
           (nft_events (pending c) ++ map (mkRow (tx_index_block_hash t)) l)
           (pending c)).
Proof.
  exact (for_each_plain_insert rejects InsertNftEvent nft_events set_nft_events
           (tx_index_block_hash t) l
           (fun _ _ => eq_refl) (fun _ _ _ => eq_refl)
           (fun db => match db with mkDb _ _ _ _ _ _ _ => eq_refl end)).
Qed.

Lemma contract_logs_ok (rejects : Statement -> Db -> bool) (t : DbTx)
    (l : list DbSmartContractEvent) :
  forall c,
    res (for_each l (updateSmartContractEvent rejects t) c) = Ok tt ->
    conn (for_each l (updateSmartContractEvent rejects t) c)
    = mkClient (persisted c)
        (set_contract_logs
           (contract_logs (pending c) ++ map (mkRow (tx_index_block_hash t)) l)
           (pending c)).
Proof.
  exact (for_each_plain_insert rejects InsertContractLog contract_logs
           set_contract_logs (tx_index_block_hash t) l
           (fun _ _ => eq_refl) (fun _ _ _ => eq_refl)
           (fun db => match db with mkDb _ _ _ _ _ _ _ => eq_refl end)).
Qed.

Lemma smart_contracts_ok (rejects : Statement -> Db -> bool) (t : DbTx)
    (l : list DbSmartContract) :
  forall c,
    res (for_each l (updateSmartContract rejects t) c) = Ok tt ->
    conn (for_each l (updateSmartContract rejects t) c)
    = mkClient (persisted c)
        (set_smart_contracts
           (smart_contracts (pending c) ++ map (mkRow (tx_index_block_hash t)) l)
           (pending c)).
Proof.
  exact (for_each_plain_insert rejects InsertSmartContract smart_contracts
           set_smart_contracts (tx_index_block_hash t) l
           (fun _ _ => eq_refl) (fun _ _ _ => eq_refl)
           (fun db => match db with mkDb _ _ _ _ _ _ _ => eq_refl end)).
Qed.

Lemma insert_entry_ok (rejects : Statement -> Db -> bool)
    (e : DataStoreTxEntry) (c : Client) :
  res (insert_entry rejects e c) = Ok tt ->
  conn (insert_entry rejects e c)
  = mkClient (persisted c) (store_entry (pending c) e).
Proof.
  unfold insert_entry. intro H.
  apply bind_ok in H as (n & H0 & H & ->).
  rewrite (updateTx_ok _ _ _ _ H0) in *.
  apply bind_ok in H as ([] & H1 & H & ->).
  rewrite (stx_events_ok _ _ _ _ H1) in *.
  apply bind_ok in H as ([] & H2 & H & ->).
  rewrite (ft_events_ok _ _ _ _ H2) in *.
  apply bind_ok in H as ([] & H3 & H & ->).
  rewrite (nft_events_ok _ _ _ _ H3) in *.
  apply bind_ok in H as ([] & H4 & H & ->).
  rewrite (contract_logs_ok _ _ _ _ H4) in *.
  rewrite (smart_contracts_ok _ _ _ _ H).
  reflexivity.
Qed.

Lemma insert_entries_ok (rejects : Statement -> Db -> bool)
    (l : list DataStoreTxEntry) :
  forall c,
    res (for_each l (insert_entry rejects) c) = Ok tt ->
    conn (for_each l (insert_entry rejects) c)
    = mkClient (persisted c) (fold_left store_entry l (pending c)).
Proof.
  induction l as [|e l IH]; intros c H.
  - cbn. now rewrite client_eta.
  - cbn [for_each fold_left] in *.
    apply bind_ok in H as ([] & H1 & H2 & ->).
    rewrite (insert_entry_ok _ _ _ H1) in *.
    now rewrite (IH _ H2).
Qed.

(** ** [update] as a whole *)

Lemma update_run (rejects : Statement -> Db -> bool)
    (data : DataStoreUpdateData) (db : Db) :
  let tip := chain_tip db in
  let hr := handleReorg (block data) (blockHeight tip) (connect db) in
  let data' :=
    if (block_height (block data) <=? blockHeight tip)%Z
    then mark_non_canonical data else data in
  let head := Begin :: Query SelectChainTip (length (chain_tip_rows db))
              :: events hr in
  let w := write_batch rejects data' (conn hr) in
  update rejects data db
  = match res hr with
    | Ok _ =>
        match res w with
        | Throw e =>
            mkRun (Throw e)
              (mkClient (persisted (conn w)) (persisted (conn w)))
              ((head ++ events w) ++ [Rollback]) data'
        | o => mkRun o (conn w) (head ++ events w) data'
        end
    | Throw e =>
        mkRun (Throw e)
          (mkClient (persisted (conn hr)) (persisted (conn hr)))
          (head ++ [Rollback]) data
    | OutOfFuel => mkRun OutOfFuel (conn hr) head data
    end.
Proof.
  cbv zeta. unfold update, update_try. fold (prelude data).
  pose proof (prelude_run data (connect db)) as Hp. cbv zeta in Hp.
  cbn [connect pending] in Hp. rewrite Hp. cbn [res conn events].
  destruct (res (handleReorg (block data) (blockHeight (chain_tip db)) (connect db)));
    cbn [outcome client trace batch]; try reflexivity.
  destruct (res (write_batch rejects _ _));
    cbn [outcome client trace batch query_rollback conn events]; reflexivity.
Qed.

Lemma statements_only_events {A} (m : M A) (c : Client) :
  statements_only m -> forallb is_statement (events (m c)) = true.
Proof. intro H. apply H. Qed.

Lemma statements_only_persisted {A} (m : M A) (c : Client) :
  statements_only m -> persisted (conn (m c)) = persisted c.
Proof. intro H. apply H. Qed.

Lemma notifications_app (a b : list Effect) :
  notifications (a ++ b) = notifications a ++ notifications b.
Proof. apply flat_map_app. Qed.

Lemma notifications_statements (stmts : list Effect) :
  forallb is_statement stmts = true -> notifications stmts = [].
Proof.
  induction stmts as [|e l IH]; [reflexivity|]. cbn [forallb].
  intro H. apply andb_prop in H as [He Hl].
  destruct e; try discriminate He; cbn; auto.
Qed.

Lemma notifications_emit (ns : list Notification) :
  notifications (map Emit ns) = ns.
Proof. induction ns as [|n ns IH]; [reflexivity|]. cbn. now f_equal. Qed.

(** The record of the part of [write_batch] before [COMMIT]. *)
Lemma write_batch_events (rejects : Statement -> Db -> bool)
    (data : DataStoreUpdateData) (c : Client) :
  exists stmts,
    forallb is_statement stmts = true
    /\ persisted (conn (write_batch rejects data c))
       = match res (write_batch rejects data c) with
         | Ok _ => pending (conn (write_batch rejects data c))
         | _ => persisted c
         end
    /\ match res (write_batch rejects data c) with
       | Ok _ =>
           events (write_batch rejects data c)
           = stmts ++ Commit :: map Emit (batch_notifications data)
       | Throw _ => events (write_batch rejects data c) = stmts
       | OutOfFuel => False
       end.
Proof.
  pose proof (write_batch_run rejects data c) as Hw. cbv zeta in Hw.
  set (c1 := mkClient (persisted c) (store_block (block data) (pending c))) in *.
  pose proof (statements_only_for_each (txs data) (insert_entry rejects)
                (statements_only_insert_entry rejects) c1) as [Hp He].
  pose proof (returns_for_each (txs data) (insert_entry rejects)
                (returns_insert_entry rejects) c1) as Hr.
  destruct (block_known (pending c) (block data)).
  - rewrite Hw. cbn [res conn events persisted pending].
    exists [Query (InsertBlock (block data)) 0]. repeat split.
  - destruct (rejects (InsertBlock (block data)) (pending c)).
    + rewrite Hw. cbn [res conn events].
      exists [Rejected (InsertBlock (block data))]. repeat split.
    + destruct (res (for_each (txs data) (insert_entry rejects) c1)) eqn:E;
        rewrite Hw; cbn [res conn events persisted pending].
      * exists (Query (InsertBlock (block data)) 1
                :: events (for_each (txs data) (insert_entry rejects) c1)).
        repeat split. cbn [forallb is_statement andb]. exact He.
      * exists (Query (InsertBlock (block data)) 1
                :: events (for_each (txs data) (insert_entry rejects) c1)).
        repeat split; [exact He|exact Hp].
      * now destruct Hr.
Qed.

Lemma handleReorg_events (blk : DbBlock) (tip : Z) (c : Client) :
  forallb is_statement (events (handleReorg blk tip c)) = true
  /\ persisted (conn (handleReorg blk tip c)) = persisted c
  /\ res (handleReorg blk tip c) <> OutOfFuel.
Proof.
  destruct (statements_only_handleReorg blk tip c) as [Hp He].
  repeat split; auto. apply returns_handleReorg.
Qed.

(** The shape of every record [update] leaves. *)
Lemma update_trace (rejects : Statement -> Db -> bool)
    (data : DataStoreUpdateData) (db : Db) :
  let r := update rejects data db in
  match outcome r with
  | Ok _ =>
      persisted (client r) = pending (client r)
      /\ exists stmts,
           forallb is_statement stmts = true
           /\ trace r
              = Begin :: stmts ++ Commit :: map Emit (batch_notifications (batch r))
  | Throw _ =>
      client r = connect db
      /\ exists stmts,
           forallb is_statement stmts = true
           /\ trace r = Begin :: stmts ++ [Rollback]
  | OutOfFuel => False
  end.
Proof.
  cbv zeta. pose proof (update_run rejects data db) as Hu. cbv zeta in Hu.
  set (tip := chain_tip db) in *.
  set (hr := handleReorg (block data) (blockHeight tip) (connect db)) in *.
  destruct (handleReorg_events (block data) (blockHeight tip) (connect db))
    as (He & Hp & Hr).
  fold hr in He, Hp, Hr. cbn [connect persisted] in Hp.
  set (data' := if (block_height (block data) <=? blockHeight tip)%Z
                then mark_non_canonical data else data) in *.
  destruct (res hr) eqn:Ehr.
  - destruct (write_batch_events rejects data' (conn hr)) as (stmts & Hs & Hwp & Hw).
    destruct (res (write_batch rejects data' (conn hr))) eqn:Ew;
      rewrite Hu; cbn [outcome client trace batch].
    + split; [exact Hwp|].
      exists (Query SelectChainTip (length (chain_tip_rows db))
              :: events hr ++ stmts).
      split.
      * cbn [forallb is_statement andb]. now rewrite forallb_app, He, Hs.
      * rewrite Hw. cbn [app]. now rewrite <- app_assoc.
    + split; [unfold connect; congruence|].
      exists (Query SelectChainTip (length (chain_tip_rows db))
              :: events hr ++ stmts).
      split.
      * cbn [forallb is_statement andb]. now rewrite forallb_app, He, Hs.
      * rewrite Hw. cbn [app]. now rewrite <- !app_assoc.
    + exact Hw.
  - rewrite Hu. cbn [outcome client trace batch].
    split; [unfold connect; congruence|].
    exists (Query SelectChainTip (length (chain_tip_rows db)) :: events hr).
    split; [exact He|reflexivity].
  - now destruct Hr.
Qed.

Lemma update_batch (rejects : Statement -> Db -> bool)
    (data : DataStoreUpdateData) (db : Db) :
  batch (update rejects data db) = data
  \/ batch (update rejects data db) = mark_non_canonical data.
Proof.
  pose proof (update_run rejects data db) as Hu. cbv zeta in Hu. rewrite Hu.
  destruct (res (handleReorg _ _ _)); cbn [batch]; auto.
  destruct (res (write_batch _ _ _)); cbn [batch];
    destruct (block_height (block data) <=? blockHeight (chain_tip db))%Z; auto.
Qed.

Lemma tx_indexes_notified (data : DataStoreUpdateData) :
  flat_map tx_index_of (batch_notifications data)
  = map (fun e => tx_index (tx e)) (txs data).
Proof.
  unfold batch_notifications. cbn [flat_map tx_index_of app].
  induction (txs data) as [|e l IH]; [reflexivity|]. cbn. now f_equal.
Qed.

Lemma tx_indexes_marked (data : DataStoreUpdateData) :
  map (fun e => tx_index (tx e)) (txs (mark_non_canonical data))
  = map (fun e => tx_index (tx e)) (txs data).
Proof. cbn. rewrite map_map. now apply map_ext. Qed.

(** C8 (as amended). The record of every run of [update] is [BEGIN],
    statements, and then either [COMMIT] followed by the blockUpdate of
    the batch's block and one txUpdate per transaction, or [ROLLBACK]
    and no notification at all; the txUpdates come in the order in which
    the batch lists its transactions, which is ascending [tx_index]
    whenever the batch lists them so. *)
Theorem update_notifies_after_commit (rejects : Statement -> Db -> bool)
    (data : DataStoreUpdateData) (db : Db) :
  let r := update rejects data db in
  match outcome r with
  | Ok _ =>
      exists stmts,
        forallb is_statement stmts = true
        /\ trace r
           = Begin :: stmts ++ Commit :: map Emit (batch_notifications (batch r))
  | Throw _ =>
      exists stmts,
        forallb is_statement stmts = true
        /\ trace r = Begin :: stmts ++ [Rollback]
  | OutOfFuel => False
  end
  /\ flat_map tx_index_of (notifications (trace r))
     = match outcome r with
       | Ok _ => map (fun e => tx_index (tx e)) (txs data)
       | _ => []
       end
  /\ (Sorted Z.le (map (fun e => tx_index (tx e)) (txs data)) ->
      Sorted Z.le (flat_map tx_index_of (notifications (trace r)))).
Proof.
  intro r. pose proof (update_trace rejects data db) as Ht. cbv zeta in Ht.
  fold r in Ht.
  assert (Hidx : flat_map tx_index_of (notifications (trace r))
                 = match outcome r with
                   | Ok _ => map (fun e => tx_index (tx e)) (txs data)
                   | _ => []
                   end).
  { destruct (outcome r).
    - destruct Ht as (_ & stmts & Hs & ->).
      change (Begin :: stmts ++ Commit :: ?l) with ([Begin] ++ stmts ++ [Commit] ++ l).
      rewrite !notifications_app, (notifications_statements stmts Hs).
      cbn [app notifications flat_map].
      fold (notifications (map Emit (batch_notifications (batch r)))).
      rewrite notifications_emit, tx_indexes_notified.
      destruct (update_batch rejects data db) as [E|E]; fold r in E; rewrite E;
        [reflexivity|apply tx_indexes_marked].
    - destruct Ht as (_ & stmts & Hs & ->).
      change (Begin :: stmts ++ ?l) with ([Begin] ++ stmts ++ l).
      rewrite !notifications_app, (notifications_statements stmts Hs).
      reflexivity.
    - contradiction. }
  split; [|split].
  - destruct (outcome r); [exact (proj2 Ht)|exact (proj2 Ht)|exact Ht].
  - exact Hidx.
  - intro Hsorted. rewrite Hidx. destruct (outcome r); auto.
Qed.

(** A batch of two transactions listed with [tx_index] 0 before
    [tx_index] 1 is notified in that order. *)
Lemma update_notifies_after_commit_witness :
  map (fun e => tx_index (tx e)) (txs in_order_batch) = [0; 1]%Z
  /\ flat_map tx_index_of
       (notifications (trace (update accepts_all in_order_batch forked)))
     = [0; 1]%Z
  /\ Sorted Z.le
       (flat_map tx_index_of
          (notifications (trace (update accepts_all in_order_batch forked)))).
Proof.
  split; [reflexivity|]. split; [reflexivity|].
  apply (update_notifies_after_commit accepts_all in_order_batch forked).
  repeat constructor. cbn. lia.
Defined.

(** C8 as first stated fails on the code: a batch that lists the
    transaction with [tx_index] 1 before the one with [tx_index] 0 is
    ingested, and its txUpdates come in that order. *)
Lemma update_notifies_in_batch_order :
  let r := update accepts_all out_of_order_batch forked in
  outcome r = Ok tt
  /\ flat_map tx_index_of (notifications (trace r)) = [1; 0]%Z
  /\ ~ Sorted Z.le (flat_map tx_index_of (notifications (trace r))).
Proof.
  cbv zeta. split; [reflexivity|]. split; [reflexivity|].
  assert (E : flat_map tx_index_of
                (notifications (trace (update accepts_all out_of_order_batch forked)))
              = [1; 0]%Z) by reflexivity.
  rewrite E. intro H. inversion H as [|? ? _ Hd]. inversion Hd. lia.
Qed.

Lemma update_try_uncommitted (rejects : Statement -> Db -> bool)
    (data : DataStoreUpdateData) (db : Db) (e : StoreError) :
  outcome (update_try rejects data (connect db)) = Throw e ->
  persisted (client (update_try rejects data (connect db))) = db.
Proof.
  unfold update_try. fold (prelude data).
  pose proof (prelude_run data (connect db)) as Hp. cbv zeta in Hp.
  cbn [connect pending] in Hp. rewrite Hp. cbn [res conn events].
  destruct (handleReorg_events (block data) (blockHeight (chain_tip db))
              (connect db)) as (_ & Hper & _).
  destruct (res (handleReorg _ _ _)); cbn [outcome client];
    [|intros _; exact Hper|discriminate].
  match goal with
  | |- context [write_batch rejects ?d ?c] =>
      destruct (write_batch_events rejects d c) as (stmts & _ & Hw & _);
      destruct (res (write_batch rejects d c)); try discriminate;
      intros _; rewrite Hw; exact Hper
  end.
Qed.

(** C9. Whatever error ends the [try] block of [update], in the reorg
    check, the block insert or an insert of a transaction or event, is
    thrown by [update] after a [ROLLBACK]: nothing had been committed
    when the error arose, the committed state and the connection's
    state afterwards are the state before the call, and the record is
    [BEGIN], statements and [ROLLBACK], with no [COMMIT] and no
    notification. *)
Theorem update_atomic (rejects : Statement -> Db -> bool)
    (data : DataStoreUpdateData) (db : Db) (e : StoreError) :
  outcome (update_try rejects data (connect db)) = Throw e ->
  let r := update rejects data db in
  outcome r = Throw e
  /\ persisted (client (update_try rejects data (connect db))) = db
  /\ persisted (client r) = db
  /\ pending (client r) = db
  /\ (exists stmts,
        forallb is_statement stmts = true
        /\ trace r = Begin :: stmts ++ [Rollback])
  /\ notifications (trace r) = [].
Proof.
  intros Ht r.
  assert (Ho : outcome r = Throw e).
  { subst r. unfold update. now rewrite Ht. }
  pose proof (update_trace rejects data db) as Hr. cbv zeta in Hr. fold r in Hr.
  rewrite Ho in Hr. destruct Hr as (Hc & stmts & Hs & Htr).
  split; [exact Ho|].
  split; [eapply update_try_uncommitted; exact Ht|].
  rewrite Hc. cbn [connect persisted pending].
  split; [reflexivity|]. split; [reflexivity|]. split; [eauto|].
  rewrite Htr. change (Begin :: stmts ++ ?l) with ([Begin] ++ stmts ++ l).
  now rewrite !notifications_app, (notifications_statements stmts Hs).
Qed.

Lemma update_atomic_witness :
  persisted (client (update accepts_all parentless_batch forked)) = forked
  /\ persisted (client (update rejects_stx_events sibling_batch forked)) = forked.
Proof.
  split.
  - apply (update_atomic accepts_all parentless_batch forked
             (ParentMissing 8 "0x08")).
    reflexivity.
  - apply (update_atomic rejects_stx_events sibling_batch forked
             (QueryFailed
                (InsertStxEvent
                   (mkRow "0xe2"
                      (sample_stx "0x7e" 0 (Some "ST000"%string)
                         (Some "ST111"%string) 100 false))))).
    reflexivity.
Defined.

(** ** The reorg check inserts nothing *)

Lemma total_inserted_app (a b : list Effect) :
  total_inserted (a ++ b) = total_inserted a + total_inserted b.
Proof. unfold total_inserted. now rewrite map_app, list_sum_app. Qed.

Lemma inserts_nothing_bind {A B} (m : M A) (k : A -> M B) :
  inserts_nothing m -> (forall a, inserts_nothing (k a)) ->
  inserts_nothing (bind m k).
Proof.
  intros Hm Hk c. rewrite bind_run. specialize (Hm c).
  destruct (res (m c)) as [a| |]; cbn [after_events events]; auto.
  rewrite total_inserted_app, Hm. apply Hk.
Qed.

Lemma inserts_nothing_query_rows {R} (s : Statement) (run : Db -> list R * Db) :
  (forall n, rows_inserted (Query s n) = 0) ->
  inserts_nothing (query_rows s run).
Proof.
  intros Hs c. unfold query_rows. destruct (run (pending c)).
  unfold total_inserted. cbn [events map list_sum fold_right].
  now rewrite Hs.
Qed.

Lemma inserts_nothing_query_count (s : Statement) (run : Db -> nat * Db) :
  (forall n, rows_inserted (Query s n) = 0) ->
  inserts_nothing (query_count s run).
Proof.
  intros Hs c. unfold query_count. destruct (run (pending c)).
  unfold total_inserted. cbn [events map list_sum fold_right].
  now rewrite Hs.
Qed.

Lemma inserts_nothing_ret {A} (a : A) : inserts_nothing (ret a).
Proof. intro c. reflexivity. Qed.

Lemma inserts_nothing_throw {A} (e : StoreError) : inserts_nothing (@throw A e).
Proof. intro c. reflexivity. Qed.

Ltac inserts_nothing :=
  repeat first
    [ apply inserts_nothing_bind; [|intro]
    | apply inserts_nothing_query_rows; reflexivity
    | apply inserts_nothing_query_count; reflexivity
    | apply inserts_nothing_ret
    | apply inserts_nothing_throw ].

Lemma inserts_nothing_markEntitiesCanonical (h : Hash) (flag : bool)
    (u : UpdatedEntities) :
  inserts_nothing (markEntitiesCanonical h flag u).
Proof. unfold markEntitiesCanonical. inserts_nothing. Qed.

Lemma inserts_nothing_restoreOrphanedChain_rec (fuel : nat) :
  forall h u, inserts_nothing (restoreOrphanedChain_rec fuel h u).
Proof.
  induction fuel as [|fuel IH]; intros h u; cbn [restoreOrphanedChain_rec].
  - intro c. reflexivity.
  - apply inserts_nothing_bind; [inserts_nothing|].
    intros [|row0 [|row1 rows]]; [inserts_nothing| |inserts_nothing].
    apply inserts_nothing_bind; [inserts_nothing|]. intro orphaned.
    apply inserts_nothing_bind.
    { destruct orphaned;
        [inserts_nothing|apply inserts_nothing_markEntitiesCanonical]. }
    intro u1.
    apply inserts_nothing_bind; [apply inserts_nothing_markEntitiesCanonical|].
    intro u2. apply inserts_nothing_bind; [inserts_nothing|].
    intros [|parent [|p2 ps]]; [inserts_nothing|apply IH|inserts_nothing].
Qed.

Lemma inserts_nothing_handleReorg (blk : DbBlock) (tip : Z) :
  inserts_nothing (handleReorg blk tip).
Proof.
  unfold handleReorg.
  destruct (1 <? block_height blk)%Z; [|apply inserts_nothing_ret].
  apply inserts_nothing_bind; [inserts_nothing|].
  intros [|parent [|p2 ps]]; [inserts_nothing| |inserts_nothing].
  destruct (negb (canonical parent) && (tip <? block_height blk)%Z);
    [|apply inserts_nothing_ret].
  intro c. apply inserts_nothing_restoreOrphanedChain_rec.
Qed.

(** ** What the reorg check leaves *)

Lemma restoreOrphanedChain_ok (h : Hash) (u u' : UpdatedEntities) (c : Client) :
  res (restoreOrphanedChain h u c) = Ok u' ->
  restores (pending c) h (Ok (pending (conn (restoreOrphanedChain h u c)))).
Proof.
  intro E.
  pose proof (restoreOrphanedChain_rec_restores _ h u c (need_top h (pending c)))
    as Hr.
  fold (restoreOrphanedChain h u c) in Hr. unfold state_after in Hr.
  now rewrite E in Hr.
Qed.

Lemma handleReorg_ok (blk : DbBlock) (tip : Z) (c : Client) (u : UpdatedEntities) :
  res (handleReorg blk tip c) = Ok u ->
  conn (handleReorg blk tip c) = c
  \/ exists p,
       (1 < block_height blk)%Z
       /\ parents_of blk (pending c) = [p]
       /\ canonical p = false
       /\ (tip < block_height blk)%Z
       /\ restores (pending c) (index_block_hash p)
            (Ok (pending (conn (handleReorg blk tip c)))).
Proof.
  intro E. destruct (Z.le_gt_cases (block_height blk) 1) as [Hh|Hh].
  - left. now rewrite handleReorg_genesis.
  - apply Z.gt_lt_iff, Z.gt_lt in Hh.
    pose proof (handleReorg_run blk tip c Hh) as Hrun. cbv zeta in Hrun.
    destruct (parents_of blk (pending c)) as [|p [|p2 ps]] eqn:Ep.
    + rewrite Hrun in E. discriminate E.
    + destruct (canonical p) eqn:Hc; [left; now rewrite Hrun|].
      destruct (tip <? block_height blk)%Z eqn:Ht; [|left; now rewrite Hrun].
      right. exists p. apply Z.ltb_lt in Ht. repeat split; auto.
      rewrite Hrun in *. cbn [after_events res conn] in *.
      eapply restoreOrphanedChain_ok; eauto.
    + rewrite Hrun in E. discriminate E.
Qed.

Lemma handleReorg_quiet (blk : DbBlock) (tip : Z) (c : Client) (u : UpdatedEntities) :
  res (handleReorg blk tip c) = Ok u ->
  (block_height blk <= tip)%Z ->
  conn (handleReorg blk tip c) = c.
Proof.
  intros E Hle. destruct (handleReorg_ok blk tip c u E) as [H|(p & _ & _ & _ & Hlt & _)];
    [exact H|lia].
Qed.

Lemma handleReorg_same_shape (blk : DbBlock) (tip : Z) (c : Client)
    (u : UpdatedEntities) :
  res (handleReorg blk tip c) = Ok u ->
  same_shape (pending c) (pending (conn (handleReorg blk tip c))).
Proof.
  intro E. destruct (handleReorg_ok blk tip c u E) as [->|(p & _ & _ & _ & _ & Hr)].
  - apply same_shape_refl.
  - eapply restores_same_shape; eauto.
Qed.

Lemma existsb_map {A B} (f : B -> bool) (g : A -> B) (l : list A) :
  existsb f (map g l) = existsb (fun a => f (g a)) l.
Proof. induction l as [|a l IH]; [reflexivity|]. cbn. now rewrite IH. Qed.

Lemma block_known_shape (db db' : Db) (blk : DbBlock) :
  same_shape db db' -> block_known db' blk = block_known db blk.
Proof.
  intros [E _]. unfold block_known.
  transitivity
    (existsb (fun b => String.eqb (index_block_hash b) (index_block_hash blk))
       (shape (blocks db'))).
  - unfold shape. now rewrite existsb_map.
  - rewrite E. unfold shape. now rewrite existsb_map.
Qed.

(** ** Rows that only get added *)

Lemma added_refl {R} `{Entity R} (t : list R) : added_non_canonical t t.
Proof. exists []. now rewrite app_nil_r. Qed.

Lemma added_trans {R} `{Entity R} (t1 t2 t3 : list R) :
  added_non_canonical t1 t2 -> added_non_canonical t2 t3 ->
  added_non_canonical t1 t3.
Proof.
  intros (n1 & -> & H1) (n2 & -> & H2). exists (n1 ++ n2).
  now rewrite app_assoc, forallb_app, H1, H2.
Qed.

Lemma added_marked {E} `{Entity E} (h : Hash) (t : list (Row E)) (l : list E) :
  added_non_canonical t (t ++ map (mkRow h) (map (with_canonical false) l)).
Proof.
  exists (map (mkRow h) (map (with_canonical false) l)). split; [reflexivity|].
  induction l as [|x l IH]; [reflexivity|].
  cbn [map forallb]. rewrite IH.
  change (canonical (mkRow h (with_canonical false x)))
    with (canonical (with_canonical false x)).
  now rewrite canonical_with.
Qed.

Lemma grows_refl (db : Db) : grows_non_canonical db db.
Proof. unfold grows_non_canonical. repeat split; apply added_refl. Qed.

Lemma grows_trans (db1 db2 db3 : Db) :
  grows_non_canonical db1 db2 -> grows_non_canonical db2 db3 ->
  grows_non_canonical db1 db3.
Proof.
  intros (A1 & A2 & A3 & A4 & A5 & A6 & A7) (B1 & B2 & B3 & B4 & B5 & B6 & B7).
  unfold grows_non_canonical. repeat split; eapply added_trans; eauto.
Qed.

Lemma store_tx_grows (t : DbTx) (db : Db) :
  added_non_canonical (txs_table db)
    (txs_table (store_tx (with_canonical false t) db)).
Proof.
  unfold store_tx. destruct (tx_known db (with_canonical false t)).
  - apply added_refl.
  - exists [with_canonical false t]. now split.
Qed.

Lemma store_tx_others (t : DbTx) (db : Db) :
  blocks (store_tx t db) = blocks db
  /\ stx_events (store_tx t db) = stx_events db
  /\ ft_events (store_tx t db) = ft_events db
  /\ nft_events (store_tx t db) = nft_events db
  /\ contract_logs (store_tx t db) = contract_logs db
  /\ smart_contracts (store_tx t db) = smart_contracts db.
Proof. unfold store_tx. destruct (tx_known db t); repeat split. Qed.

Lemma store_entry_grows (db : Db) (e : DataStoreTxEntry) :
  grows_non_canonical db (store_entry db (mark_entry_non_canonical e)).
Proof.
  unfold store_entry, mark_entry_non_canonical.
  cbn [tx stxEvents ftEvents nftEvents contractLogEvents smartContracts].
  destruct (store_tx_others (with_canonical false (tx e)) db)
    as (E1 & E2 & E3 & E4 & E5 & E6).
  unfold grows_non_canonical. db_fields.
  rewrite E1, E2, E3, E4, E5, E6.
  change (tx_index_block_hash (with_canonical false (tx e)))
    with (tx_index_block_hash (tx e)).
  split; [apply added_refl|]. split; [apply store_tx_grows|].
  repeat split; apply added_marked.
Qed.

Lemma store_entries_grow (l : list DataStoreTxEntry) :
  forall db db0,
    grows_non_canonical db db0 ->
    grows_non_canonical db
      (fold_left store_entry (map mark_entry_non_canonical l) db0).
Proof.
  induction l as [|e l IH]; intros db db0 H; [exact H|].
  cbn [map fold_left]. apply IH.
  eapply grows_trans; [exact H|apply store_entry_grows].
Qed.

Lemma written_grows (data : DataStoreUpdateData) (db : Db) :
  grows_non_canonical db (written (mark_non_canonical data) db).
Proof.
  unfold written, mark_non_canonical. cbn [block txs].
  apply store_entries_grow.
  unfold grows_non_canonical, store_block, set_blocks. db_fields.
  split; [|repeat split; apply added_refl].
  exists [with_canonical false (block data)]. now split.
Qed.

(** For a batch whose block does not rise above the chain tip height
    that [update] reads, every stored row stays as and where it is, and
    the committed state afterwards is either the state before or that
    state with the batch's block, transactions, STX, FT and NFT events,
    contract logs and smart contracts added, all with canonical = false;
    it is the latter whenever [update] returns and the block was not
    stored before. *)
Lemma update_at_or_below_tip (rejects : Statement -> Db -> bool)
    (data : DataStoreUpdateData) (db : Db) :
  (block_height (block data) <= blockHeight (chain_tip db))%Z ->
  let r := update rejects data db in
  let stored := written (mark_non_canonical data) db in
  grows_non_canonical db stored
  /\ (persisted (client r) = db \/ persisted (client r) = stored)
  /\ (outcome r = Ok tt -> block_known db (block data) = false ->
      persisted (client r) = stored /\ batch r = mark_non_canonical data).
Proof.
  intros Hle r stored. split; [apply written_grows|].
  subst r. pose proof (update_run rejects data db) as Hu. cbv zeta in Hu.
  set (tip := chain_tip db) in *.
  set (hr := handleReorg (block data) (blockHeight tip) (connect db)) in *.
  destruct (handleReorg_events (block data) (blockHeight tip) (connect db))
    as (_ & Hp & _). fold hr in Hp. cbn [connect persisted] in Hp.
  apply Z.leb_le in Hle. rewrite Hle in Hu. apply Z.leb_le in Hle.
  destruct (res hr) eqn:Ehr.
  - assert (Hc : conn hr = connect db)
      by (eapply handleReorg_quiet; [exact Ehr|exact Hle]).
    rewrite Hc in Hu.
    pose proof (write_batch_run rejects (mark_non_canonical data) (connect db))
      as Hw. cbv zeta in Hw. cbn [connect persisted pending] in Hw.
    change (block_known db (block (mark_non_canonical data)))
      with (block_known db (block data)) in Hw.
    destruct (block_known db (block data)) eqn:Ek.
    + rewrite Hu, Hw. cbn [res outcome client persisted]. split; [now left|].
      intros _ Hk. discriminate Hk.
    + destruct (rejects (InsertBlock (block (mark_non_canonical data))) db).
      * rewrite Hu, Hw. cbn [res conn outcome client persisted].
        split; [now left|]. intros Ho. discriminate Ho.
      * set (c1 := mkClient db (store_block (block (mark_non_canonical data)) db))
          in *.
        pose proof (insert_entries_ok rejects (txs (mark_non_canonical data)) c1)
          as Hok.
        pose proof (statements_only_for_each (txs (mark_non_canonical data))
                      (insert_entry rejects)
                      (statements_only_insert_entry rejects) c1) as [Hpi _].
        destruct (res (for_each (txs (mark_non_canonical data))
                         (insert_entry rejects) c1)) as [[]| |] eqn:Ei;
          rewrite Hu, Hw; cbn [res conn outcome client batch persisted pending].
        -- rewrite (Hok eq_refl). cbn [pending].
           split; [now right|]. now intros _ _.
        -- split; [left; exact Hpi|]. intro Ho. discriminate Ho.
        -- split; [left; exact Hpi|]. intro Ho. discriminate Ho.
  - rewrite Hu. cbn [outcome client persisted]. split; [now left|].
    intro Ho. discriminate Ho.
  - rewrite Hu. cbn [outcome client persisted]. split; [now left|].
    intro Ho. discriminate Ho.
Qed.

(** A sibling of the tip of [forked] is stored non-canonical. *)
Example update_sibling_of_tip :
  persisted (client (update accepts_all sibling_batch forked))
  = written (mark_non_canonical sibling_batch) forked
  /\ batch (update accepts_all sibling_batch forked)
     = mark_non_canonical sibling_batch.
Proof.
  apply (update_at_or_below_tip accepts_all sibling_batch forked).
  - cbn. lia.
  - reflexivity.
  - reflexivity.
Qed.

(** C4 at the state with a canonical block at height 1 under an orphan
    at height 2: a new block of height 1, which is not above the
    greatest canonical height, is compared with the height 0 that
    [getChainTipHeight] returns there, so [update] stores it and its
    transaction and event with canonical = true, next to the canonical
    block already at that height. *)
Theorem update_sibling_under_orphaned_top :
  let r := update accepts_all late_sibling_batch orphan_on_top in
  canonical_tip_height orphan_on_top = Some 1%Z
  /\ block_height (block late_sibling_batch) = 1%Z
  /\ blockHeight (chain_tip orphan_on_top) = 0%Z
  /\ outcome r = Ok tt
  /\ persisted (client r) = written late_sibling_batch orphan_on_top
  /\ map index_block_hash
       (filter (fun b => canonical b && Z.eqb (block_height b) 1)
          (blocks (persisted (client r))))
     = ["0x01"; "0xe1"]%string
  /\ map canonical (txs_table (persisted (client r))) = [true]
  /\ map canonical (stx_events (persisted (client r))) = [true].
Proof. cbv zeta. repeat split. Qed.

Lemma total_inserted_emit (ns : list Notification) :
  total_inserted (map Emit ns) = 0.
Proof. induction ns as [|n ns IH]; [reflexivity|exact IH]. Qed.

Lemma update_known_block (rejects : Statement -> Db -> bool)
    (data : DataStoreUpdateData) (db : Db) (u : UpdatedEntities) :
  block_known db (block data) = true ->
  res (handleReorg (block data) (blockHeight (chain_tip db)) (connect db)) = Ok u ->
  let r := update rejects data db in
  outcome r = Ok tt
  /\ total_inserted (trace r) = 0
  /\ persisted (client r)
     = pending (conn (handleReorg (block data) (blockHeight (chain_tip db))
                        (connect db)))
  /\ same_shape db (persisted (client r))
  /\ ((block_height (block data) <= blockHeight (chain_tip db))%Z ->
      persisted (client r) = db)
  /\ notifications (trace r) = batch_notifications (batch r)
  /\ length (notifications (trace r)) = S (length (txs data))
  /\ In (Query (InsertBlock (block (batch r))) 0) (trace r).
Proof.
  intros Hk Ehr r. subst r.
  pose proof (update_run rejects data db) as Hu. cbv zeta in Hu.
  set (tip := chain_tip db) in *.
  set (hr := handleReorg (block data) (blockHeight tip) (connect db)) in *.
  set (data' := if (block_height (block data) <=? blockHeight tip)%Z
                then mark_non_canonical data else data) in *.
  pose proof (handleReorg_same_shape _ _ _ _ Ehr) as Hs. fold hr in Hs.
  cbn [connect pending] in Hs.
  destruct (handleReorg_events (block data) (blockHeight tip) (connect db))
    as (He & _ & _). fold hr in He.
  pose proof (inserts_nothing_handleReorg (block data) (blockHeight tip)
                (connect db)) as Hn. fold hr in Hn.
  pose proof (write_batch_run rejects data' (conn hr)) as Hw. cbv zeta in Hw.
  assert (Hk' : block_known (pending (conn hr)) (block data') = true).
  { rewrite (block_known_shape _ _ _ Hs). subst data'.
    destruct (block_height (block data) <=? blockHeight tip)%Z; exact Hk. }
  rewrite Hk' in Hw. rewrite Ehr, Hw in Hu. cbn [res conn events] in Hu.
  rewrite Hu. cbn [outcome client trace batch persisted].
  assert (Hnote : notifications
                    ((Begin :: Query SelectChainTip (length (chain_tip_rows db))
                      :: events hr)
                     ++ Query (InsertBlock (block data')) 0 :: Commit
                        :: map Emit (batch_notifications data'))
                  = batch_notifications data').
  { change (?a :: ?b :: events hr) with ([a; b] ++ events hr).
    change (?a :: Commit :: ?l) with ([a; Commit] ++ l).
    rewrite !notifications_app, (notifications_statements _ He),
      notifications_emit. reflexivity. }
  split; [reflexivity|]. split; [|split; [|split; [|split; [|split; [|split]]]]].
  - change (?a :: ?b :: events hr) with ([a; b] ++ events hr).
    change (?a :: Commit :: ?l) with ([a; Commit] ++ l).
    rewrite !total_inserted_app, Hn, total_inserted_emit. reflexivity.
  - reflexivity.
  - exact Hs.
  - intro Hle. subst hr. now rewrite (handleReorg_quiet _ _ _ _ Ehr Hle).
  - exact Hnote.
  - rewrite Hnote. unfold batch_notifications. cbn [length].
    rewrite length_map. subst data'.
    destruct (block_height (block data) <=? blockHeight tip)%Z;
      [cbn; now rewrite length_map|reflexivity].
  - apply in_or_app. right. now left.
Qed.


(** C7 at a block delivered twice. The batch [genesis_batch] is
    delivered to the empty store and stored with canonical = true;
    delivered again it commits without inserting a row and leaves the
    state as it was, and yet emits a blockUpdate and a txUpdate, whose
    block and transaction carry canonical = false. The same happens
    when the canonical block of height 2 of [forked] is delivered
    again. *)
Theorem update_redelivery_notifies :
  let first := update accepts_all genesis_batch empty_db in
  let stored := persisted (client first) in
  let again := update accepts_all genesis_batch stored in
  let r := update accepts_all redelivered_batch forked in
  (outcome first = Ok tt
   /\ blocks stored = [sample_block "0x01" "0x00" 1 true]
   /\ txs_table stored = [sample_tx "0x71" "0x01" 0 true]
   /\ outcome again = Ok tt
   /\ persisted (client again) = stored
   /\ total_inserted (trace again) = 0
   /\ notifications (trace again)
      = [blockUpdate (sample_block "0x01" "0x00" 1 false);
         txUpdate (sample_tx "0x71" "0x01" 0 false)])
  /\ (block_known forked (block redelivered_batch) = true
      /\ outcome r = Ok tt
      /\ persisted (client r) = forked
      /\ total_inserted (trace r) = 0
      /\ In (sample_block "0x02" "0x01" 2 true) (blocks forked)
      /\ In (sample_tx "0x72" "0x02" 0 true) (txs_table forked)
      /\ notifications (trace r)
         = [blockUpdate (sample_block "0x02" "0x01" 2 false);
            txUpdate (sample_tx "0x72" "0x02" 0 false)]).
Proof.
  cbv zeta. split.
  - repeat split.
  - split; [reflexivity|]. split; [reflexivity|]. split; [reflexivity|].
    split; [reflexivity|]. split; [right; now left|].
    split; [right; now left|]. reflexivity.
Qed.

(** ** A restored parent stays canonical *)

Lemma flag_where_upper (w : DbBlock -> bool) (flag : bool) (t : list DbBlock)
    (k : Z) :
  (forall b, In b t -> w b = true -> (k <= block_height b)%Z ->
             with_canonical flag b = b) ->
  upper k (flag_where w flag t) = upper k t.
Proof.
  unfold upper, flag_where. induction t as [|b t IH]; intro H; [reflexivity|].
  cbn [map filter]. rewrite IH by (intros; apply H; auto; now right).
  destruct (w b) eqn:Ew; [|reflexivity].
  change (block_height (with_canonical flag b)) with (block_height b).
  destruct (k <=? block_height b)%Z eqn:Ek; [|reflexivity].
  rewrite H; auto; [now left|now apply Z.leb_le].
Qed.

Lemma restore_one_upper (h : Hash) (b : DbBlock) (db : Db) (k : Z) :
  orphaned_with h db = [b] -> (block_height b < k)%Z ->
  upper k (blocks (restore_one h b db)) = upper k (blocks db).
Proof.
  intros E Hk. rewrite blocks_restore_one.
  rewrite flag_where_upper.
  - apply flag_where_upper. intros x Hin Hw Hx.
    destruct (canonical x) eqn:Hc.
    + rewrite <- Hc. apply with_canonical_id.
    + assert (x = b).
      { apply (filter_singleton _ _ _ _ E Hin). now rewrite Hw, Hc. }
      subst x. lia.
  - intros x _ Hw Hx. unfold is_sibling in Hw.
    apply andb_prop in Hw as [Hw _]. apply Z.eqb_eq in Hw. lia.
Qed.

Lemma restores_upper (db : Db) (h : Hash) (r : Outcome Db) :
  restores db h r ->
  forall db' k,
    r = Ok db' ->
    (forall b, orphaned_with h db = [b] -> (block_height b < k)%Z) ->
    upper k (blocks db') = upper k (blocks db).
Proof.
  induction 1 as [| |db h b Eb Ep|db h b p r Eb Ep Hr IH|];
    intros db' k E Hk; try discriminate.
  - injection E as <-. apply restore_one_upper; auto.
  - rewrite (IH db' k E).
    + apply restore_one_upper; auto.
    + intros b0 E0.
      destruct (orphaned_parent_facts _ _ _ Ep) as (Hin & Hh & _ & Hc).
      apply (orphaned_with_self _ _ Hin Hc) in E0. subst b0.
      specialize (Hk b Eb). lia.
Qed.

Lemma filter_flag_where {R} `{Entity R} (q w : R -> bool) (flag : bool)
    (t : list R) :
  (forall r, q (with_canonical flag r) = q r) ->
  filter q (flag_where w flag t) = flag_where w flag (filter q t).
Proof.
  intro Hq. unfold flag_where. induction t as [|r t IH]; [reflexivity|].
  cbn [map filter]. rewrite IH.
  destruct (w r) eqn:Ew; [rewrite Hq|];
    destruct (q r); cbn [map]; now rewrite ?Ew.
Qed.

Lemma parents_of_restore_one (blk p : DbBlock) (db : Db) :
  parents_of blk db = [p] ->
  parents_of blk (restore_one (index_block_hash p) p db)
  = [with_canonical true p].
Proof.
  intro E. unfold parents_of in *. rewrite blocks_restore_one.
  rewrite !filter_flag_where by reflexivity. rewrite E.
  unfold flag_where. cbn [map]. rewrite String.eqb_refl.
  unfold is_sibling.
  change (index_block_hash (with_canonical true p)) with (index_block_hash p).
  rewrite String.eqb_refl. now rewrite andb_false_r.
Qed.

Lemma parents_of_upper (blk : DbBlock) (db db' : Db) :
  upper (block_height blk - 1) (blocks db')
  = upper (block_height blk - 1) (blocks db) ->
  parents_of blk db' = parents_of blk db.
Proof.
  intro E. unfold parents_of.
  assert (H : forall t,
             filter (fun b => Z.eqb (block_height b) (block_height blk - 1)
                              && String.eqb (index_block_hash b)
                                   (parent_index_block_hash blk)) t
             = filter (fun b => Z.eqb (block_height b) (block_height blk - 1)
                                && String.eqb (index_block_hash b)
                                     (parent_index_block_hash blk))
                 (upper (block_height blk - 1) t)).
  { intro t. unfold upper. rewrite filter_filter. apply filter_ext. intro b.
    destruct (Z.eqb_spec (block_height b) (block_height blk - 1)) as [->|];
      [|now rewrite andb_false_r].
    now rewrite Z.leb_refl. }
  now rewrite (H (blocks db')), (H (blocks db)), E.
Qed.

Lemma restores_parent_canonical (blk p : DbBlock) (db db' : Db) :
  parents_of blk db = [p] ->
  canonical p = false ->
  restores db (index_block_hash p) (Ok db') ->
  parents_of blk db' = [with_canonical true p].
Proof.
  intros Ep Hc Hr.
  destruct (filter_singleton_In _ _ _ Ep) as [Hin Hp].
  apply andb_prop in Hp as [Hh _]. apply Z.eqb_eq in Hh.
  inversion Hr as [| |? ? b Eb Ebp|? ? b q ? Eb Ebp Hq|]; subst.
  - apply (orphaned_with_self _ _ Hin Hc) in Eb. subst b.
    now apply parents_of_restore_one.
  - apply (orphaned_with_self _ _ Hin Hc) in Eb. subst b.
    rewrite <- (parents_of_restore_one blk p db Ep).
    apply parents_of_upper.
    apply (restores_upper _ _ _ Hq); [reflexivity|].
    intros b0 E0.
    destruct (orphaned_parent_facts _ _ _ Ebp) as (Hin' & Hh' & _ & Hc').
    apply (orphaned_with_self _ _ Hin' Hc') in E0. subst b0. lia.
Qed.

(** ** Delivering a batch again *)

Lemma blocks_store_entries (l : list DataStoreTxEntry) :
  forall db, blocks (fold_left store_entry l db) = blocks db.
Proof.
  induction l as [|e l IH]; intro db; [reflexivity|].
  cbn [fold_left]. rewrite IH. unfold store_entry. db_fields.
  apply store_tx_others.
Qed.

Lemma blocks_written (data : DataStoreUpdateData) (db : Db) :
  blocks (written data db) = blocks db ++ [block data].
Proof. unfold written. now rewrite blocks_store_entries. Qed.

Lemma block_known_appended (db db' : Db) (blk b' : DbBlock) :
  blocks db' = blocks db ++ [b'] ->
  index_block_hash b' = index_block_hash blk ->
  block_known db' blk = true.
Proof.
  intros E Hh. unfold block_known. rewrite E, existsb_app. cbn.
  now rewrite Hh, String.eqb_refl, orb_true_r.
Qed.

Lemma parents_of_blocks (blk : DbBlock) (db db' : Db) :
  blocks db' = blocks db -> parents_of blk db' = parents_of blk db.
Proof. intro E. unfold parents_of. now rewrite E. Qed.

Lemma parents_of_appended (blk b' : DbBlock) (db db' : Db) :
  blocks db' = blocks db ++ [b'] ->
  block_height b' = block_height blk ->
  parents_of blk db' = parents_of blk db.
Proof.
  intros E Hh. unfold parents_of. rewrite E, filter_app. cbn [filter].
  rewrite Hh.
  replace (block_height blk =? block_height blk - 1)%Z with false
    by (symmetry; apply Z.eqb_neq; lia).
  apply app_nil_r.
Qed.

Lemma sql_max_appended (l : list Z) (m x : Z) :
  sql_max l = Some m -> sql_max (l ++ [x]) = Some (Z.max m x).
Proof.
  destruct l as [|a l]; [discriminate|]. cbn [sql_max app].
  intro E. injection E as <-. now rewrite fold_left_app.
Qed.

Lemma chain_tip_blocks (db db' : Db) :
  blocks db' = blocks db -> chain_tip db' = chain_tip db.
Proof. intro E. unfold chain_tip, chain_tip_rows. now rewrite E. Qed.

Lemma chain_tip_appended (db db' : Db) (b' : DbBlock) :
  blocks db' = blocks db ++ [b'] ->
  canonical b' = false ->
  (0 < block_height b' <= blockHeight (chain_tip db))%Z ->
  chain_tip db' = chain_tip db.
Proof.
  intros E Hc Hh.
  assert (Hrows : chain_tip_rows db' = chain_tip_rows db).
  { unfold chain_tip, chain_tip_rows, sql_select in *. rewrite E.
    destruct (filter _ (blocks db)) as [|b0 rows] eqn:Er.
    { cbn in Hh. lia. }
    assert (Hb0 : In b0 (filter
                           (fun b => canonical b
                                     && match sql_max (map block_height (blocks db)) with
                                        | Some m => Z.eqb (block_height b) m
                                        | None => false
                                        end) (blocks db)))
      by (rewrite Er; now left).
    apply filter_In in Hb0 as [_ Hb0]. apply andb_prop in Hb0 as [_ Hb0].
    destruct (sql_max (map block_height (blocks db))) as [m|] eqn:Em;
      [|discriminate].
    apply Z.eqb_eq in Hb0. cbn [hd_error option_map nullish blockHeight] in Hh.
    rewrite map_app. cbn [map]. rewrite (sql_max_appended _ _ _ Em).
    replace (Z.max m (block_height b')) with m by lia.
    rewrite filter_app, Er. cbn [filter]. rewrite Hc. cbn [andb].
    apply app_nil_r. }
  unfold chain_tip. now rewrite Hrows.
Qed.

Lemma mark_non_canonical_twice (data : DataStoreUpdateData) :
  mark_non_canonical (mark_non_canonical data) = mark_non_canonical data.
Proof.
  unfold mark_non_canonical. cbn [block txs]. f_equal.
  rewrite map_map. apply map_ext. intro e.
  unfold mark_entry_non_canonical.
  cbn [tx stxEvents ftEvents nftEvents contractLogEvents smartContracts].
  f_equal; rewrite map_map; apply map_ext; intro x; apply with_canonical_twice.
Qed.

(** A batch that [update] marked non-canonical goes the same way when
    it is handed in again in the same state. *)
Lemma update_marked (rejects : Statement -> Db -> bool)
    (data : DataStoreUpdateData) (db : Db) :
  (block_height (block data) <= blockHeight (chain_tip db))%Z ->
  update rejects (mark_non_canonical data) db
  = mkRun (outcome (update rejects data db)) (client (update rejects data db))
      (trace (update rejects data db))
      (match res (handleReorg (block data) (blockHeight (chain_tip db))
                    (connect db)) with
       | Ok _ => mark_non_canonical data
       | _ => mark_non_canonical data
       end).
Proof.
  intro Hle. apply Z.leb_le in Hle.
  rewrite (update_run rejects (mark_non_canonical data) db),
    (update_run rejects data db). cbv zeta.
  change (block (mark_non_canonical data)) with (with_canonical false (block data)).
  change (block_height (with_canonical false (block data)))
    with (block_height (block data)).
  change (handleReorg (with_canonical false (block data)))
    with (handleReorg (block data)).
  rewrite Hle, mark_non_canonical_twice.
  destruct (res (handleReorg _ _ _)); cbn [outcome client trace]; try reflexivity.
  destruct (res (write_batch _ _ _)); reflexivity.
Qed.

Lemma write_batch_committed (rejects : Statement -> Db -> bool)
    (data : DataStoreUpdateData) (c : Client) :
  res (write_batch rejects data c) = Ok tt ->
  (persisted (conn (write_batch rejects data c)) = pending c
   /\ block_known (pending c) (block data) = true)
  \/ (persisted (conn (write_batch rejects data c)) = written data (pending c)
      /\ block_known (pending c) (block data) = false).
Proof.
  pose proof (write_batch_run rejects data c) as Hw. cbv zeta in Hw.
  destruct (block_known (pending c) (block data)).
  - rewrite Hw. intros _. now left.
  - destruct (rejects (InsertBlock (block data)) (pending c));
      [rewrite Hw; discriminate|].
    set (c1 := mkClient (persisted c) (store_block (block data) (pending c))) in *.
    pose proof (insert_entries_ok rejects (txs data) c1) as Hok.
    destruct (res (for_each (txs data) (insert_entry rejects) c1)) as [[]| |];
      rewrite Hw; try discriminate.
    intros _. right. cbn [conn persisted]. now rewrite (Hok eq_refl).
Qed.

(** After a batch went in, the reorg check of the same block finds
    nothing left to do. *)
Lemma reorg_check_settled (blk blk' : DbBlock) (db after : Db)
    (u : UpdatedEntities) :
  let tip := blockHeight (chain_tip db) in
  let hr := handleReorg blk tip (connect db) in
  res hr = Ok u ->
  (blocks after = blocks (pending (conn hr))
   \/ (blocks after = blocks (pending (conn hr)) ++ [blk']
       /\ block_height blk' = block_height blk
       /\ ((block_height blk <= tip)%Z -> canonical blk' = false))) ->
  exists evs,
    handleReorg blk (blockHeight (chain_tip after)) (connect after)
    = mkRes (Ok no_updates) (connect after) evs.
Proof.
  intros tip hr Ehr Hafter.
  destruct (Z.le_gt_cases (block_height blk) 1) as [Hh|Hh].
  { eexists. now apply handleReorg_genesis. }
  apply Z.gt_lt_iff, Z.gt_lt in Hh.
  assert (Hparents : forall base,
             blocks base = blocks (pending (conn hr)) ->
             parents_of blk after = parents_of blk base).
  { intros base Eb. destruct Hafter as [E|(E & Hh' & _)].
    - apply parents_of_blocks. congruence.
    - eapply parents_of_appended; [|exact Hh']. now rewrite Eb. }
  pose proof (handleReorg_run blk tip (connect db) Hh) as Hrun.
  cbv zeta in Hrun. fold hr in Hrun. cbn [connect pending] in Hrun.
  pose proof (handleReorg_run blk (blockHeight (chain_tip after))
                (connect after) Hh) as Hrun'.
  cbv zeta in Hrun'. cbn [connect pending] in Hrun'.
  destruct (parents_of blk db) as [|p [|p2 ps]] eqn:Ep.
  - rewrite Hrun in Ehr. discriminate Ehr.
  - destruct (canonical p) eqn:Hc.
    + rewrite Hrun in Hparents. cbn [conn connect pending] in Hparents.
      rewrite (Hparents db eq_refl), Ep, Hc in Hrun'. eexists; exact Hrun'.
    + destruct (tip <? block_height blk)%Z eqn:Ht.
      * rewrite Hrun in Ehr. cbn [after_events res] in Ehr.
        pose proof (restoreOrphanedChain_ok _ _ _ _ Ehr) as Hr.
        cbn [connect pending] in Hr.
        assert (Ec : conn hr = conn (restoreOrphanedChain (index_block_hash p)
                                       (incr_blocks no_updates) (connect db)))
          by now rewrite Hrun.
        rewrite <- Ec in Hr.
        pose proof (restores_parent_canonical blk p db _ Ep Hc Hr) as Ep'.
        rewrite (Hparents (pending (conn hr)) eq_refl), Ep' in Hrun'.
        change (canonical (with_canonical true p)) with true in Hrun'.
        eexists; exact Hrun'.
      * rewrite Hrun in Hafter, Hparents. cbn [conn connect pending] in *.
        apply Z.ltb_ge in Ht.
        assert (Etip : chain_tip after = chain_tip db).
        { destruct Hafter as [E|(E & Hh' & Hc')].
          - now apply chain_tip_blocks.
          - eapply chain_tip_appended; eauto. fold tip. lia. }
        rewrite (Hparents db eq_refl), Ep, Hc, Etip in Hrun'.
        fold tip in Hrun'.
        replace (tip <? block_height blk)%Z with false in Hrun'
          by (symmetry; apply Z.ltb_ge; lia).
        rewrite Etip. fold tip. eexists; exact Hrun'.
  - rewrite Hrun in Ehr. discriminate Ehr.
Qed.

Lemma update_batch_cases (rejects : Statement -> Db -> bool)
    (data : DataStoreUpdateData) (db : Db) :
  batch (update rejects data db) = data
  \/ (batch (update rejects data db) = mark_non_canonical data
      /\ (block_height (block data) <= blockHeight (chain_tip db))%Z).
Proof.
  pose proof (update_run rejects data db) as Hu. cbv zeta in Hu. rewrite Hu.
  destruct (res (handleReorg _ _ _)); cbn [batch]; auto.
  destruct (res (write_batch _ _ _)); cbn [batch];
    destruct (block_height (block data) <=? blockHeight (chain_tip db))%Z eqn:E;
    auto; right; (split; [reflexivity|now apply Z.leb_le]).
Qed.

Lemma update_committed (rejects : Statement -> Db -> bool)
    (data : DataStoreUpdateData) (db : Db) :
  let first := update rejects data db in
  let tip := blockHeight (chain_tip db) in
  let hr := handleReorg (block data) tip (connect db) in
  outcome first = Ok tt ->
  exists u,
    res hr = Ok u
    /\ ((persisted (client first) = pending (conn hr)
         /\ block_known (pending (conn hr)) (block data) = true)
        \/ (persisted (client first) = written (batch first) (pending (conn hr))
            /\ block_height (block (batch first)) = block_height (block data)
            /\ index_block_hash (block (batch first))
               = index_block_hash (block data)
            /\ ((block_height (block data) <= tip)%Z ->
                canonical (block (batch first)) = false))).
Proof.
  cbv zeta. pose proof (update_run rejects data db) as Hu. cbv zeta in Hu.
  set (tip := blockHeight (chain_tip db)) in *.
  set (hr := handleReorg (block data) tip (connect db)) in *.
  set (data' := if (block_height (block data) <=? tip)%Z
                then mark_non_canonical data else data) in *.
  intro Ho. rewrite Hu in Ho |- *.
  destruct (res hr) as [u| |] eqn:Ehr; try discriminate Ho.
  exists u. split; [reflexivity|].
  destruct (res (write_batch rejects data' (conn hr))) as [[]| |] eqn:Ew;
    try discriminate Ho.
  cbn [client batch].
  destruct (write_batch_committed rejects data' (conn hr) Ew) as [[E Hk]|[E Hk]].
  - left. split; [exact E|]. subst data'.
    destruct (block_height (block data) <=? tip)%Z; exact Hk.
  - right. split; [exact E|]. subst data'.
    destruct (block_height (block data) <=? tip)%Z eqn:El.
    + repeat split.
    + repeat split. intro Hle. apply Z.leb_le in Hle. congruence.
Qed.

(** C3. Handing [update] a batch a second time, as it came or as the
    first call left it, from the state the first call committed leaves
    that state as it is. When the first call returned, the second one
    returns too, its block insert affects no row, and it inserts no row
    at all; when the first call threw, so that nothing of the batch was
    committed, the second one commits nothing either. *)
Theorem update_idempotent (rejects : Statement -> Db -> bool)
    (data again : DataStoreUpdateData) (db : Db) :
  let first := update rejects data db in
  again = data \/ again = batch first ->
  let second := update rejects again (persisted (client first)) in
  persisted (client second) = persisted (client first)
  /\ (outcome first = Ok tt ->
      outcome second = Ok tt
      /\ In (Query (InsertBlock (block (batch second))) 0) (trace second)
      /\ total_inserted (trace second) = 0).
Proof.
  intros first Hagain second.
  pose proof (update_trace rejects data db) as Ht. cbv zeta in Ht. fold first in Ht.
  destruct (outcome first) as [[]| |] eqn:Ho; [| |contradiction].
  - (* the first call committed *)
    destruct (update_committed rejects data db Ho) as (u & Ehr & Hafter).
    fold first in Hafter.
    set (tip := blockHeight (chain_tip db)) in *.
    set (hr := handleReorg (block data) tip (connect db)) in *.
    set (after := persisted (client first)) in *.
    assert (Hhead : block (again) = block data
                    \/ block again = with_canonical false (block data)).
    { destruct Hagain as [-> | ->]; [now left|].
      destruct (update_batch rejects data db) as [E|E]; fold first in E;
        rewrite E; [now left|now right]. }
    assert (Hknown : block_known after (block data) = true).
    { destruct Hafter as [[E Hk]|(E & Hh & Hi & _)].
      - now rewrite E.
      - eapply block_known_appended; [|exact Hi].
        rewrite E. apply blocks_written. }
    destruct (reorg_check_settled (block data) (block (batch first)) db after u Ehr)
      as (evs & Hquiet).
    { fold tip hr. destruct Hafter as [[E Hk]|(E & Hh & Hi & Hc)].
      - left. now rewrite E.
      - right. split; [|split; assumption]. rewrite E. apply blocks_written. }
    assert (Hknown' : block_known after (block again) = true)
      by (destruct Hhead as [-> | ->]; exact Hknown).
    assert (Hquiet' : handleReorg (block again) (blockHeight (chain_tip after))
                        (connect after)
                      = mkRes (Ok no_updates) (connect after) evs)
      by (destruct Hhead as [-> | ->]; exact Hquiet).
    destruct (update_known_block rejects again after no_updates Hknown')
      as (H1 & H2 & H3 & _ & _ & _ & _ & H4).
    { now rewrite Hquiet'. }
    fold second in H1, H2, H3, H4. rewrite Hquiet' in H3.
    split; [exact H3|]. intros _. repeat split; assumption.
  - (* the first call threw *)
    destruct Ht as [Hc _]. split; [|discriminate].
    rewrite Hc. cbn [connect persisted].
    assert (Hsame : outcome second = outcome first).
    { subst second. rewrite Hc. cbn [connect persisted].
      destruct Hagain as [-> | ->]; [reflexivity|].
      destruct (update_batch_cases rejects data db) as [E|[E Hle]];
        fold first in E; rewrite E; [reflexivity|].
      now rewrite (update_marked rejects data db Hle). }
    pose proof (update_trace rejects again (persisted (client first))) as Ht2.
    cbv zeta in Ht2. fold second in Ht2. rewrite Hsame, Ho in Ht2.
    destruct Ht2 as [Hc2 _]. rewrite Hc2, Hc. reflexivity.
Qed.

Lemma update_idempotent_witness :
  let first := update accepts_all out_of_order_batch forked in
  let second := update accepts_all (batch first) (persisted (client first)) in
  persisted (client second) = persisted (client first).
Proof.
  exact (proj1 (update_idempotent accepts_all out_of_order_batch
                  (batch (update accepts_all out_of_order_batch forked)) forked
                  (or_intror eq_refl))).
Defined.

(** ** The scenarios of the specification *)

(** A block on top of the orphaned sibling of [forked] makes the sibling
    and its transaction canonical and the former tip and its
    transaction non-canonical. *)
Example scenario_fork_victory :
  let db := ingest_all [sample_batch "0xf3" "0xf2" 3 []] forked in
  map (fun b => (index_block_hash b, canonical b)) (blocks db)
  = [("0x01", true); ("0x02", false); ("0xf2", true); ("0xf3", true)]%string
  /\ map (fun t => (tx_id t, canonical t)) (txs_table db)
     = [("0x71", true); ("0x72", false); ("0x7f", true)]%string.
Proof. split; reflexivity. Qed.

(** The balance of ST111 is 100 while [X] is canonical and 0 once [X']
    has taken its place, and the event row is still stored. *)
Example scenario_balance_under_reorg :
  balance (getStxBalance (ingest_all (firstn 3 balance_scenario) empty_db) "ST111")
  = 100%Z
  /\ balance (getStxBalance (ingest_all balance_scenario empty_db) "ST111") = 0%Z
  /\ length (stx_events (ingest_all balance_scenario empty_db)) = 1.
Proof. repeat split. Qed.

(** * The read queries, and what [update] makes them answer *)

(** ** Sorting and paging *)

Lemma insert_by_perm {R} (before : R -> R -> bool) (x : R) (l : list R) :
  Permutation (x :: l) (insert_by before x l).
Proof.
  induction l as [|y l IH]; cbn; [apply Permutation_refl|].
  destruct (before x y); [apply Permutation_refl|].
  eapply perm_trans; [apply perm_swap|]. now apply perm_skip.
Qed.

Lemma stable_sort_perm {R} (before : R -> R -> bool) (l : list R) :
  Permutation l (stable_sort before l).
Proof.
  induction l as [|x l IH]; cbn; [apply perm_nil|].
  eapply perm_trans; [apply perm_skip, IH|]. apply insert_by_perm.
Qed.

Lemma stable_sort_In {R} (before : R -> R -> bool) (l : list R) (x : R) :
  In x (stable_sort before l) <-> In x l.
Proof.
  split; apply Permutation_in;
    [apply Permutation_sym|]; apply stable_sort_perm.
Qed.

Lemma stable_sort_length {R} (before : R -> R -> bool) (l : list R) :
  length (stable_sort before l) = length l.
Proof. symmetry. apply Permutation_length, stable_sort_perm. Qed.

Lemma insert_by_sorted {R} (before : R -> R -> bool) (x : R) (l : list R) :
  orders before ->
  StronglySorted (fun a b => before a b = true) l ->
  StronglySorted (fun a b => before a b = true) (insert_by before x l).
Proof.
  intros [Htot Htr] Hs. induction Hs as [|y l Hs IH Hy]; cbn.
  - constructor; constructor.
  - destruct (before x y) eqn:E.
    + constructor; [now constructor|].
      constructor; [exact E|].
      rewrite Forall_forall in *. intros z Hz. eapply Htr; eauto.
    + constructor; [exact IH|].
      rewrite Forall_forall in *. intros z Hz.
      apply (Permutation_in _ (Permutation_sym (insert_by_perm before x l))) in Hz.
      destruct Hz as [<-|Hz]; [|auto].
      destruct (Htot x y) as [H|H]; [congruence|exact H].
Qed.

Lemma stable_sort_sorted {R} (before : R -> R -> bool) (l : list R) :
  orders before ->
  StronglySorted (fun a b => before a b = true) (stable_sort before l).
Proof.
  intro Ho. induction l as [|x l IH]; cbn; [constructor|].
  now apply insert_by_sorted.
Qed.

Lemma desc_by_orders {R} (keys : list (R -> Z)) : orders (desc_by keys).
Proof.
  induction keys as [|k ks [Htot Htr]]; split; cbn; auto.
  - intros x y. destruct (Htot x y) as [H|H]; rewrite H.
    + destruct (Z.lt_total (k x) (k y)) as [L|[L|L]].
      * right. apply Z.ltb_lt in L. now rewrite L.
      * left. rewrite L, Z.eqb_refl. now rewrite orb_true_r.
      * left. apply Z.ltb_lt in L. now rewrite L.
    + destruct (Z.lt_total (k x) (k y)) as [L|[L|L]].
      * right. apply Z.ltb_lt in L. now rewrite L.
      * right. rewrite L, Z.eqb_refl. now rewrite orb_true_r.
      * left. apply Z.ltb_lt in L. now rewrite L.
  - intros x y z Hxy Hyz.
    apply orb_prop in Hxy, Hyz. apply orb_true_iff.
    destruct Hxy as [Hxy|Hxy], Hyz as [Hyz|Hyz].
    + left. apply Z.ltb_lt in Hxy, Hyz. apply Z.ltb_lt. lia.
    + apply andb_prop in Hyz as [Hyz _]. apply Z.eqb_eq in Hyz.
      left. now rewrite <- Hyz.
    + apply andb_prop in Hxy as [Hxy _]. apply Z.eqb_eq in Hxy.
      left. now rewrite Hxy.
    + apply andb_prop in Hxy as [Hxy Hxy'], Hyz as [Hyz Hyz'].
      apply Z.eqb_eq in Hxy, Hyz. right.
      rewrite Hxy, Hyz, Z.eqb_refl. cbn. eauto.
Qed.

Lemma desc_by_refl {R} (keys : list (R -> Z)) (x : R) : desc_by keys x x = true.
Proof.
  destruct (desc_by_orders keys) as [Htot _]. now destruct (Htot x x).
Qed.

Lemma StronglySorted_weaken {A} (P Q : A -> A -> Prop) (l : list A) :
  (forall x y, P x y -> Q x y) -> StronglySorted P l -> StronglySorted Q l.
Proof.
  intros HPQ Hs. induction Hs as [|x l Hs IH Hx]; constructor; [exact IH|].
  eapply Forall_impl; [|exact Hx]. auto.
Qed.

Lemma StronglySorted_map {A B} (Q : B -> B -> Prop) (f : A -> B) (l : list A) :
  StronglySorted (fun x y => Q (f x) (f y)) l -> StronglySorted Q (map f l).
Proof.
  intro Hs. induction Hs as [|x l Hs IH Hx]; cbn; constructor; [exact IH|].
  rewrite Forall_forall in *. intros y Hy.
  apply in_map_iff in Hy as (z & <- & Hz). auto.
Qed.

Lemma StronglySorted_skipn {A} (P : A -> A -> Prop) (n : nat) (l : list A) :
  StronglySorted P l -> StronglySorted P (skipn n l).
Proof.
  revert l. induction n as [|n IH]; intros l Hs; [exact Hs|].
  destruct l as [|x l]; [constructor|]. cbn. apply IH.
  now inversion Hs.
Qed.

Lemma StronglySorted_firstn {A} (P : A -> A -> Prop) (n : nat) (l : list A) :
  StronglySorted P l -> StronglySorted P (firstn n l).
Proof.
  revert l. induction n as [|n IH]; intros l Hs; [constructor|].
  destruct l as [|x l]; [constructor|]. cbn.
  inversion Hs as [|? ? Hs' Hx]; subst. constructor; [now apply IH|].
  rewrite Forall_forall in *. intros y Hy. apply Hx.
  eapply (In_nth_error) in Hy as [i Hi].
  assert (Hl : nth_error l i = Some y).
  { rewrite nth_error_firstn in Hi.
    destruct (i <? n); [exact Hi|discriminate]. }
  eapply nth_error_In; eauto.
Qed.

Lemma In_firstn_skipn {A} (n m : nat) (l : list A) (x : A) :
  In x (firstn n (skipn m l)) -> In x l.
Proof.
  intro H. apply (In_nth_error) in H as [i Hi].
  rewrite nth_error_firstn in Hi.
  destruct (i <? n); [|discriminate].
  rewrite nth_error_skipn in Hi. eapply nth_error_In; eauto.
Qed.

Lemma sql_limit_offset_got {R} (limit offset : Z) (rows page : list R) :
  sql_limit_offset limit offset rows = Got page ->
  (0 <= limit)%Z /\ (0 <= offset)%Z
  /\ page = firstn (Z.to_nat limit) (skipn (Z.to_nat offset) rows).
Proof.
  unfold sql_limit_offset.
  destruct (limit <? 0)%Z eqn:El; [discriminate|].
  destruct (offset <? 0)%Z eqn:Eo; [discriminate|]. cbn.
  intro H. injection H as <-.
  apply Z.ltb_ge in El, Eo. auto.
Qed.

Lemma sql_limit_offset_fails {R} (limit offset : Z) (rows : list R) (e : ReadError) :
  sql_limit_offset limit offset rows = Fails e <->
  ((limit < 0)%Z \/ (offset < 0)%Z) /\ e = NegativePaging.
Proof.
  unfold sql_limit_offset.
  destruct (limit <? 0)%Z eqn:El; destruct (offset <? 0)%Z eqn:Eo; cbn;
    try apply Z.ltb_lt in El; try apply Z.ltb_lt in Eo;
    try apply Z.ltb_ge in El; try apply Z.ltb_ge in Eo;
    split; try (intro H; injection H as <-; auto);
    try (intros [_ ->]; reflexivity); try discriminate.
  intros [[H|H] _]; lia.
Qed.

(** The first row of a sorted selection. *)
Lemma first_of_sorted {R} (keys : list (R -> Z)) (w : R -> bool) (t : list R) :
  match firstn 1 (sql_order_by_desc keys (sql_select w t)) with
  | [] => forall r, In r t -> w r = false
  | row :: _ =>
      In row t /\ w row = true
      /\ forall r, In r t -> w r = true -> desc_by keys row r = true
  end.
Proof.
  unfold sql_order_by_desc, sql_select.
  pose proof (stable_sort_sorted (desc_by keys) (filter w t) (desc_by_orders keys))
    as Hs.
  pose proof (stable_sort_In (desc_by keys) (filter w t)) as Hin.
  destruct (stable_sort (desc_by keys) (filter w t)) as [|row rows]; cbn.
  - intros r Hr. destruct (w r) eqn:E; [|reflexivity].
    exfalso. apply (Hin r). apply filter_In. auto.
  - assert (Hrow : In row (filter w t)) by (apply Hin; now left).
    apply filter_In in Hrow as [H1 H2]. repeat split; auto.
    intros r Hr Hw.
    assert (Hr' : In r (row :: rows)) by (apply Hin, filter_In; auto).
    destruct Hr' as [<-|Hr']; [apply desc_by_refl|].
    inversion Hs as [|? ? _ Hall]; subst.
    rewrite Forall_forall in Hall. auto.
Qed.

Lemma rank_lt (a b : bool) : (rank a < rank b)%Z <-> a = false /\ b = true.
Proof. destruct a, b; cbn; split; try lia; intros [? ?]; congruence. Qed.

Lemma rank_eq (a b : bool) : rank a = rank b <-> a = b.
Proof. destruct a, b; cbn; split; congruence. Qed.

(** [ORDER BY canonical DESC, height DESC LIMIT 1]: what the row that
    comes first has over every other row. *)
Lemma canonical_then_highest {R} `{Entity R} (height : R -> Z) (row r : R) :
  desc_by [fun x => rank (canonical x); height] row r = true ->
  (canonical r = true -> canonical row = true)
  /\ (canonical r = canonical row -> (height r <= height row)%Z).
Proof.
  cbn. rewrite andb_true_r. intro Hd. apply orb_prop in Hd as [Hd|Hd].
  - apply Z.ltb_lt, rank_lt in Hd as [Hr Hrow]. split; congruence.
  - apply andb_prop in Hd as [He Hh]. apply Z.eqb_eq, rank_eq in He.
    split; [congruence|]. intros _.
    apply orb_prop in Hh as [Hh|Hh];
      [apply Z.ltb_lt in Hh|apply Z.eqb_eq in Hh]; lia.
Qed.

Lemma parseBlockQueryResult_id (row : DbBlock) : parseBlockQueryResult row = row.
Proof. now destruct row. Qed.

(** X1. [getBlock] finds a block exactly when some stored block has the
    [block_hash]; the block it returns is a stored block with that hash,
    it is canonical whenever a stored block with that hash is, and no
    stored block with that hash and the same canonical flag is
    higher. *)
Theorem getBlock_prefers_canonical (blockHash : Hash) (db : Db) :
  match getBlock blockHash db with
  | not_found => forall b, In b (blocks db) -> block_hash b <> blockHash
  | found b =>
      In b (blocks db) /\ block_hash b = blockHash
      /\ forall b', In b' (blocks db) -> block_hash b' = blockHash ->
           (canonical b' = true -> canonical b = true)
           /\ (canonical b' = canonical b ->
               (block_height b' <= block_height b)%Z)
  end.
Proof.
  unfold getBlock.
  pose proof (first_of_sorted [fun b => rank (canonical b); block_height]
                (fun b => String.eqb (block_hash b) blockHash) (blocks db)) as H.
  destruct (firstn 1 _) as [|row rows].
  - intros b Hb E. apply String.eqb_eq in E. specialize (H b Hb). congruence.
  - destruct H as (Hin & Hw & Hmax). rewrite parseBlockQueryResult_id.
    apply String.eqb_eq in Hw. repeat split; try assumption;
      apply String.eqb_eq in H0;
      destruct (canonical_then_highest block_height row b' (Hmax b' H H0)); auto.
Qed.

Lemma let_pair_fst {A B C} (p : A * B) (f : B -> C) :
  fst (let (n, t) := p in (n, f t)) = fst p.
Proof. now destruct p. Qed.

Lemma mark_table_count {R} `{Stored R} (h : Hash) (flag : bool) (t : list R) :
  fst (mark_table h flag t) = differing h flag t.
Proof. unfold mark_table, sql_update, differing. cbn. apply length_map. Qed.

Lemma markEntitiesCanonical_counts (h : Hash) (flag : bool) (u : UpdatedEntities)
    (c : Client) :
  let db := pending c in
  res (markEntitiesCanonical h flag u c)
  = Ok (mkUpdated (upd_blocks u)
          (upd_txs u + differing h flag (txs_table db))
          (upd_stxEvents u + differing h flag (stx_events db))
          (upd_ftEvents u + differing h flag (ft_events db))
          (upd_nftEvents u + differing h flag (nft_events db))
          (upd_contractLogs u + differing h flag (contract_logs db))
          (upd_smartContracts u + differing h flag (smart_contracts db)))
  /\ conn (markEntitiesCanonical h flag u c)
     = mkClient (persisted c) (flag_entities h flag db).
Proof.
  cbv zeta. unfold markEntitiesCanonical.
  rewrite bind_query_count, let_pair_snd, let_pair_fst, mark_table_flag,
    mark_table_count.
  cbn [persisted pending]. rewrite bind_query_count, let_pair_snd, let_pair_fst,
    mark_table_flag, mark_table_count.
  cbn [persisted pending]. rewrite bind_query_count, let_pair_snd, let_pair_fst,
    mark_table_flag, mark_table_count.
  cbn [persisted pending]. rewrite bind_query_count, let_pair_snd, let_pair_fst,
    mark_table_flag, mark_table_count.
  cbn [persisted pending]. rewrite bind_query_count, let_pair_snd, let_pair_fst,
    mark_table_flag, mark_table_count.
  cbn [persisted pending]. rewrite bind_query_count, let_pair_snd, let_pair_fst,
    mark_table_flag, mark_table_count.
  cbn [persisted pending]. rewrite !after_events_app.
  unfold ret, after_events. cbn [res conn events].
  split; reflexivity.
Qed.

Lemma flag_where_twice {R} `{Stored R} (h : Hash) (flag : bool) (t : list R) :
  flag_where (fun r => String.eqb (stored_under r) h) flag
    (flag_where (fun r => String.eqb (stored_under r) h) flag t)
  = flag_where (fun r => String.eqb (stored_under r) h) flag t.
Proof.
  unfold flag_where. rewrite map_map. apply map_ext. intro r.
  destruct (String.eqb (stored_under r) h) eqn:E.
  - now rewrite stored_under_with, E, with_canonical_twice.
  - now rewrite E.
Qed.

Lemma flag_entities_twice (h : Hash) (flag : bool) (db : Db) :
  flag_entities h flag (flag_entities h flag db) = flag_entities h flag db.
Proof.
  unfold flag_entities. db_fields. f_equal; apply flag_where_twice.
Qed.

Lemma differing_flagged {R} `{Stored R} (h : Hash) (flag : bool) (t : list R) :
  differing h flag (flag_where (fun r => String.eqb (stored_under r) h) flag t) = 0.
Proof.
  unfold differing, flag_where. induction t as [|r t IH]; [reflexivity|].
  cbn [map filter]. destruct (String.eqb (stored_under r) h) eqn:E.
  - rewrite stored_under_with, E, canonical_with, eqb_reflx. exact IH.
  - rewrite E. exact IH.
Qed.

(** X2. [markEntitiesCanonical] returns; it gives the flag to every
    transaction, event, contract log and smart contract stored under
    the hash and leaves every other row and the blocks as they are, so
    that afterwards no row under the hash differs from the flag; and it
    adds to each counter the number of rows of that table whose flag
    differed, the block counter apart. *)
Theorem markEntitiesCanonical_exact (h : Hash) (flag : bool) (u : UpdatedEntities)
    (c : Client) :
  let r := markEntitiesCanonical h flag u c in
  let db := pending c in
  let db' := pending (conn r) in
  res r
  = Ok (mkUpdated (upd_blocks u)
          (upd_txs u + differing h flag (txs_table db))
          (upd_stxEvents u + differing h flag (stx_events db))
          (upd_ftEvents u + differing h flag (ft_events db))
          (upd_nftEvents u + differing h flag (nft_events db))
          (upd_contractLogs u + differing h flag (contract_logs db))
          (upd_smartContracts u + differing h flag (smart_contracts db)))
  /\ db' = flag_entities h flag db
  /\ blocks db' = blocks db
  /\ persisted (conn r) = persisted c
  /\ differing h flag (txs_table db') + differing h flag (stx_events db')
     + differing h flag (ft_events db') + differing h flag (nft_events db')
     + differing h flag (contract_logs db') + differing h flag (smart_contracts db')
     = 0.
Proof.
  cbv zeta. destruct (markEntitiesCanonical_counts h flag u c) as [Hr Hc].
  cbv zeta in Hr, Hc. rewrite Hr, Hc. cbn [pending persisted].
  repeat split. unfold flag_entities. db_fields.
  now rewrite !differing_flagged.
Qed.

(** X3. A second [markEntitiesCanonical] with the same hash and flag
    changes no row and counts none: it returns the counters it was
    given and leaves the connection as the first call left it. *)
Theorem markEntitiesCanonical_idempotent (h : Hash) (flag : bool)
    (u : UpdatedEntities) (c : Client) :
  let first := markEntitiesCanonical h flag u c in
  exists u',
    res first = Ok u'
    /\ res (markEntitiesCanonical h flag u' (conn first)) = Ok u'
    /\ conn (markEntitiesCanonical h flag u' (conn first)) = conn first.
Proof.
  cbv zeta. destruct (markEntitiesCanonical_counts h flag u c) as [Hr Hc].
  cbv zeta in Hr, Hc. eexists. split; [exact Hr|].
  match goal with
  | |- context [markEntitiesCanonical h flag ?u' ?c'] =>
      destruct (markEntitiesCanonical_counts h flag u' c') as [Hr' Hc']
  end.
  cbv zeta in Hr', Hc'. rewrite Hr', Hc', Hc. cbn [pending persisted].
  rewrite flag_entities_twice. split; [|reflexivity].
  unfold flag_entities. db_fields. rewrite !differing_flagged.
  cbn [upd_blocks upd_txs upd_stxEvents upd_ftEvents upd_nftEvents
       upd_contractLogs upd_smartContracts].
  now rewrite !Nat.add_0_r.
Qed.

(** ** When [update] returns *)

Lemma succeeds_ret {A} (a : A) : succeeds (ret a).
Proof. intro c. now exists a. Qed.

Lemma succeeds_bind {A B} (m : M A) (k : A -> M B) :
  succeeds m -> (forall a, succeeds (k a)) -> succeeds (bind m k).
Proof.
  intros Hm Hk c. rewrite bind_run. destruct (Hm c) as [a Ha]. rewrite Ha.
  destruct (Hk a (conn (m c))) as [b Hb]. exists b. exact Hb.
Qed.

Lemma succeeds_for_each {A} (l : list A) (f : A -> M unit) :
  (forall a, succeeds (f a)) -> succeeds (for_each l f).
Proof.
  intro Hf. induction l as [|a l IH]; cbn [for_each].
  - apply succeeds_ret.
  - apply succeeds_bind; auto.
Qed.

Lemma succeeds_query_insert (rejects : Statement -> Db -> bool) (s : Statement)
    (conflict : Db -> bool) (ins : Db -> Db) :
  (forall s d, rejects s d = false) ->
  succeeds (query_insert rejects s conflict ins).
Proof.
  intros Hr c. unfold query_insert. destruct (conflict (pending c)); [now exists 0|].
  rewrite Hr. now exists 1.
Qed.

Lemma succeeds_insert_entry (rejects : Statement -> Db -> bool)
    (e : DataStoreTxEntry) :
  (forall s d, rejects s d = false) -> succeeds (insert_entry rejects e).
Proof.
  intro Hr. unfold insert_entry, updateTx, updateStxEvent, updateFtEvent,
    updateNftEvent, updateSmartContractEvent, updateSmartContract.
  repeat first
    [ apply succeeds_bind; [|intro]
    | apply succeeds_for_each; intro
    | apply succeeds_query_insert; exact Hr
    | apply succeeds_ret ].
Qed.

Lemma handleReorg_settled (blk : DbBlock) (tip : Z) (c : Client) :
  settled blk tip (pending c) ->
  res (handleReorg blk tip c) = Ok no_updates
  /\ conn (handleReorg blk tip c) = c.
Proof.
  intros [Hh|(p & Hp & Hc)].
  - now rewrite handleReorg_genesis.
  - destruct (Z.le_gt_cases (block_height blk) 1) as [Hh|Hh];
      [now rewrite handleReorg_genesis|].
    apply Z.gt_lt_iff, Z.gt_lt in Hh.
    pose proof (handleReorg_run blk tip c Hh) as Hrun. cbv zeta in Hrun.
    rewrite Hp in Hrun. destruct (canonical p); [now rewrite Hrun|].
    destruct Hc as [Hc|Hc]; [discriminate|].
    apply Z.ltb_ge in Hc. rewrite Hc in Hrun. now rewrite Hrun.
Qed.

(** [update] when the reorg check has nothing to restore. *)
Lemma update_settled (rejects : Statement -> Db -> bool)
    (data : DataStoreUpdateData) (db : Db) :
  settled (block data) (blockHeight (chain_tip db)) db ->
  let r := update rejects data db in
  let data' :=
    if (block_height (block data) <=? blockHeight (chain_tip db))%Z
    then mark_non_canonical data else data in
  batch r = data'
  /\ (outcome r = Ok tt ->
      persisted (client r)
      = if block_known db (block data) then db else written data' db)
  /\ ((forall s d, rejects s d = false) -> outcome r = Ok tt).
Proof.
  intros Hs r data'. subst r.
  pose proof (update_run rejects data db) as Hu. cbv zeta in Hu.
  destruct (handleReorg_settled (block data) (blockHeight (chain_tip db))
              (connect db) Hs) as [Hr Hc].
  rewrite Hr, Hc in Hu. fold data' in Hu.
  pose proof (write_batch_run rejects data' (connect db)) as Hw.
  cbv zeta in Hw. cbn [connect persisted pending] in Hw.
  assert (Hb : block data' = block data \/ block data' = with_canonical false (block data)).
  { subst data'. destruct (_ <=? _)%Z; auto. }
  assert (Hk : block_known db (block data') = block_known db (block data)).
  { destruct Hb as [-> | ->]; reflexivity. }
  rewrite Hk in Hw.
  split; [|split].
  - rewrite Hu. destruct (res (write_batch rejects data' (connect db))); reflexivity.
  - rewrite Hu, Hw. destruct (block_known db (block data)); [reflexivity|].
    destruct (rejects (InsertBlock (block data')) db); [discriminate|].
    set (c1 := mkClient db (store_block (block data') db)).
    pose proof (insert_entries_ok rejects (txs data') c1) as Hok.
    destruct (res (for_each (txs data') (insert_entry rejects) c1))
      as [[]| |] eqn:Ei; try discriminate.
    intros _. cbn [res outcome client persisted]. now rewrite (Hok eq_refl).
  - intro Hacc. rewrite Hu, Hw. destruct (block_known db (block data)); [reflexivity|].
    rewrite Hacc.
    destruct (succeeds_for_each (txs data') (insert_entry rejects)
                (fun e => succeeds_insert_entry rejects e Hacc)
                (mkClient db (store_block (block data') db))) as [[] Hi].
    now rewrite Hi.
Qed.



(** ** The errors of [update] *)

Lemma throws_only_ret {A} (P : StoreError -> Prop) (a : A) : throws_only P (ret a).
Proof. intros c e. discriminate. Qed.

Lemma throws_only_bind {A B} (P : StoreError -> Prop) (m : M A) (k : A -> M B) :
  throws_only P m -> (forall a, throws_only P (k a)) -> throws_only P (bind m k).
Proof.
  intros Hm Hk c e. rewrite bind_run. specialize (Hm c).
  destruct (res (m c)) as [a|e'|]; cbn [after_events res].
  - apply Hk.
  - intro E. injection E as <-. now apply Hm.
  - discriminate.
Qed.

Lemma throws_only_for_each {A} (P : StoreError -> Prop) (l : list A)
    (f : A -> M unit) :
  (forall a, throws_only P (f a)) -> throws_only P (for_each l f).
Proof.
  intro Hf. induction l as [|x l IH]; cbn [for_each].
  - apply throws_only_ret.
  - apply throws_only_bind; auto.
Qed.

Lemma throws_only_query_insert (rejects : Statement -> Db -> bool) (s : Statement)
    (conflict : Db -> bool) (ins : Db -> Db) :
  throws_only (refusal rejects) (query_insert rejects s conflict ins).
Proof.
  intros c e. unfold query_insert.
  destruct (conflict (pending c)); [discriminate|].
  destruct (rejects s (pending c)) eqn:E; [|discriminate].
  intro H. injection H as <-. now exists (pending c).
Qed.

Lemma throws_only_insert_entry (rejects : Statement -> Db -> bool)
    (entry : DataStoreTxEntry) :
  throws_only (refusal rejects) (insert_entry rejects entry).
Proof.
  unfold insert_entry, updateTx, updateStxEvent, updateFtEvent, updateNftEvent,
    updateSmartContractEvent, updateSmartContract.
  repeat first
    [ apply throws_only_bind; [|intro]
    | apply throws_only_for_each; intro
    | apply throws_only_query_insert
    | apply throws_only_ret ].
Qed.

Lemma write_batch_throws (rejects : Statement -> Db -> bool)
    (data : DataStoreUpdateData) :
  throws_only (refusal rejects) (write_batch rejects data).
Proof.
  intros c e. rewrite write_batch_run. cbv zeta.
  destruct (block_known (pending c) (block data)); [discriminate|].
  destruct (rejects (InsertBlock (block data)) (pending c)) eqn:E.
  - intro H. injection H as <-. now exists (pending c).
  - match goal with
    | |- context [for_each ?l ?f ?c1] =>
        pose proof (throws_only_for_each (refusal rejects) l f
                      (throws_only_insert_entry rejects) c1) as Hi;
        destruct (res (for_each l f c1)); try discriminate
    end.
    intro H. injection H as <-. now apply Hi.
Qed.

Lemma restores_throws (db : Db) (h : Hash) (r : Outcome Db) :
  restores db h r -> forall e, r = Throw e -> is_restore_error e = true.
Proof.
  induction 1; intros e0 E; try discriminate; try (injection E as <-; reflexivity).
  now apply IHrestores.
Qed.

Lemma restoreOrphanedChain_throws (h : Hash) (u : UpdatedEntities) :
  throws_only (fun e => is_restore_error e = true) (restoreOrphanedChain h u).
Proof.
  intros c e E.
  pose proof (restoreOrphanedChain_rec_restores _ h u c (need_top h (pending c)))
    as Hr.
  fold (restoreOrphanedChain h u c) in Hr. unfold state_after in Hr.
  rewrite E in Hr. eapply restores_throws; eauto.
Qed.

Lemma handleReorg_throws (blk : DbBlock) (tip : Z) (c : Client) (e : StoreError) :
  res (handleReorg blk tip c) = Throw e -> reorg_error blk tip (pending c) e.
Proof.
  intro E. destruct (Z.le_gt_cases (block_height blk) 1) as [Hh|Hh].
  - rewrite handleReorg_genesis in E by exact Hh. discriminate E.
  - apply Z.gt_lt_iff, Z.gt_lt in Hh. split; [exact Hh|].
    pose proof (handleReorg_run blk tip c Hh) as Hrun. cbv zeta in Hrun.
    destruct (parents_of blk (pending c)) as [|p [|p2 ps]] eqn:Ep.
    + rewrite Hrun in E. injection E as <-. auto.
    + destruct (canonical p) eqn:Hc; [rewrite Hrun in E; discriminate E|].
      destruct (tip <? block_height blk)%Z eqn:Ht;
        [|rewrite Hrun in E; discriminate E].
      rewrite Hrun in E. cbn [after_events res] in E.
      apply restoreOrphanedChain_throws in E. apply Z.ltb_lt in Ht.
      destruct e; try discriminate E; eauto.
    + rewrite Hrun in E. injection E as <-. cbn [length]. repeat split. lia.
Qed.

(** How [update] can end. *)
Lemma update_outcomes (rejects : Statement -> Db -> bool)
    (data : DataStoreUpdateData) (db : Db) :
  let r := update rejects data db in
  match outcome r with
  | Ok _ => True
  | OutOfFuel => False
  | Throw e =>
      (reorg_error (block data) (blockHeight (chain_tip db)) db e
       \/ refusal rejects e)
      /\ persisted (client r) = db
  end.
Proof.
  cbv zeta. pose proof (update_run rejects data db) as Hu. cbv zeta in Hu.
  destruct (handleReorg_events (block data) (blockHeight (chain_tip db))
              (connect db)) as (_ & Hper & Hfuel).
  pose proof (handleReorg_throws (block data) (blockHeight (chain_tip db))
                (connect db)) as Hthrow.
  destruct (res (handleReorg _ _ _)) as [u|e|] eqn:Ehr.
  - match type of Hu with
    | context [write_batch rejects ?d ?c] =>
        pose proof (write_batch_throws rejects d c) as Hw;
        pose proof (write_batch_run rejects d c) as Hrun;
        destruct (res (write_batch rejects d c)) as [[]|e|] eqn:Ew
    end; rewrite Hu; cbn [outcome client persisted]; auto.
    + split; [right; now apply Hw|].
      match goal with
      | |- context [write_batch rejects ?d ?c] =>
          destruct (write_batch_events rejects d c) as (stmts & _ & Hp & _)
      end.
      rewrite Hp, Ew. exact Hper.
    + cbv zeta in Hrun. rewrite Hrun in Ew.
      destruct (block_known _ _); [discriminate|].
      destruct (rejects _ _); [discriminate|].
      match type of Ew with
      | context [for_each ?l ?f ?c1] =>
          pose proof (returns_for_each l f (returns_insert_entry rejects) c1) as Hi;
          destruct (res (for_each l f c1)); try discriminate; now apply Hi
      end.
  - rewrite Hu. cbn [outcome client persisted]. split; [left; now apply Hthrow|].
    exact Hper.
  - now destruct Hfuel.
Qed.


(** ** Rows are kept *)

Lemma kept_refl {R} `{Entity R} (t : list R) : kept t t.
Proof. exists []. now rewrite app_nil_r. Qed.

Lemma kept_shape {R} `{Entity R} (t t' t'' : list R) :
  shape t' = shape t -> kept t' t'' -> kept t t''.
Proof. intros E [new Hn]. exists new. now rewrite <- E. Qed.

Lemma kept_app {R} `{Entity R} (t new : list R) : kept t (t ++ new).
Proof. exists (shape new). unfold shape. apply map_app. Qed.

Lemma keeps_rows_refl (db : Db) : keeps_rows db db.
Proof. unfold keeps_rows. repeat split; apply kept_refl. Qed.

Lemma store_entries_tables (l : list DataStoreTxEntry) :
  forall db,
    let db' := fold_left store_entry l db in
    let rows {E} (get : DataStoreTxEntry -> list E) :=
      flat_map (fun e => map (mkRow (tx_index_block_hash (tx e))) (get e)) l in
    (exists new, txs_table db' = txs_table db ++ new)
    /\ stx_events db' = stx_events db ++ rows stxEvents
    /\ ft_events db' = ft_events db ++ rows ftEvents
    /\ nft_events db' = nft_events db ++ rows nftEvents
    /\ contract_logs db' = contract_logs db ++ rows contractLogEvents
    /\ smart_contracts db' = smart_contracts db ++ rows smartContracts.
Proof.
  induction l as [|e l IH]; intro db; cbv zeta.
  - cbn [fold_left flat_map]. rewrite !app_nil_r.
    split; [exists []; now rewrite app_nil_r|]. repeat split.
  - cbn [fold_left flat_map].
    destruct (IH (store_entry db e)) as ([new Ht] & E1 & E2 & E3 & E4 & E5).
    cbv zeta in *. rewrite Ht, E1, E2, E3, E4, E5.
    unfold store_entry. db_fields.
    destruct (store_tx_others (tx e) db) as (_ & F1 & F2 & F3 & F4 & F5).
    rewrite F1, F2, F3, F4, F5, <- !app_assoc. repeat split.
    unfold store_tx. destruct (tx_known db (tx e)).
    + now exists new.
    + cbn [txs_table set_txs]. exists (tx e :: new). now rewrite <- app_assoc.
Qed.

Lemma written_tables (data : DataStoreUpdateData) (db : Db) :
  let db' := written data db in
  blocks db' = blocks db ++ [block data]
  /\ (exists new, txs_table db' = txs_table db ++ new)
  /\ stx_events db' = stx_events db ++ batch_rows stxEvents data
  /\ ft_events db' = ft_events db ++ batch_rows ftEvents data
  /\ nft_events db' = nft_events db ++ batch_rows nftEvents data
  /\ contract_logs db' = contract_logs db ++ batch_rows contractLogEvents data
  /\ smart_contracts db' = smart_contracts db ++ batch_rows smartContracts data.
Proof.
  cbv zeta. split; [apply blocks_written|].
  unfold written.
  destruct (store_entries_tables (txs data) (store_block (block data) db))
    as (Ht & E1 & E2 & E3 & E4 & E5).
  cbv zeta in *. unfold batch_rows. repeat split; assumption.
Qed.

Lemma written_keeps_rows (data : DataStoreUpdateData) (db : Db) :
  keeps_rows db (written data db).
Proof.
  destruct (written_tables data db) as (E0 & [new Et] & E1 & E2 & E3 & E4 & E5).
  cbv zeta in *. unfold keeps_rows.
  rewrite E0, Et, E1, E2, E3, E4, E5. repeat split; apply kept_app.
Qed.

Lemma same_shape_keeps_rows (db db' db'' : Db) :
  same_shape db db' -> keeps_rows db' db'' -> keeps_rows db db''.
Proof.
  intros (S0 & S1 & S2 & S3 & S4 & S5 & S6) (K0 & K1 & K2 & K3 & K4 & K5 & K6).
  unfold keeps_rows. repeat split; eapply kept_shape; eauto.
Qed.

(** X6. Whatever [update] does and however it ends, the state it
    leaves committed has every row of the state before in its place,
    with every column but [canonical] as it was: tables only grow at
    their end, and only flags are rewritten. *)
Theorem update_keeps_rows (rejects : Statement -> Db -> bool)
    (data : DataStoreUpdateData) (db : Db) :
  keeps_rows db (persisted (client (update rejects data db))).
Proof.
  pose proof (update_outcomes rejects data db) as Ho. cbv zeta in Ho.
  pose proof (update_committed rejects data db) as Hc. cbv zeta in Hc.
  destruct (outcome (update rejects data db)) as [[]|e|]; [| |contradiction].
  - destruct (Hc eq_refl) as (u & Hr & H).
    pose proof (handleReorg_same_shape _ _ _ _ Hr) as Hs.
    cbn [connect pending] in Hs.
    destruct H as [[-> _]|[-> _]]; eapply same_shape_keeps_rows; eauto.
    + apply keeps_rows_refl.
    + apply written_keeps_rows.
  - destruct Ho as [_ ->]. apply keeps_rows_refl.
Qed.

(** ** What the canonical rows are *)

Lemma added_canonical {R} `{Entity R} (t t' : list R) :
  added_non_canonical t t' -> filter canonical t' = filter canonical t.
Proof.
  intros (new & -> & Hn). rewrite filter_app.
  replace (filter canonical new) with (@nil R); [apply app_nil_r|].
  symmetry. induction new as [|x new IH]; [reflexivity|].
  cbn [forallb filter] in *. apply andb_prop in Hn as [Hx Hn].
  destruct (canonical x); [discriminate|auto].
Qed.

Lemma grows_canonical_rows (db db' : Db) :
  grows_non_canonical db db' -> canonical_rows db' = canonical_rows db.
Proof.
  intros (A0 & A1 & A2 & A3 & A4 & A5 & A6). unfold canonical_rows.
  f_equal; now apply added_canonical.
Qed.

(** X7. A batch whose block does not rise above the chain tip height
    that [update] reads changes no canonical row: whether [update]
    returns or throws, the canonical rows of every table of the
    committed state are those of the state before. *)
Theorem update_sibling_unseen (rejects : Statement -> Db -> bool)
    (data : DataStoreUpdateData) (db : Db) :
  (block_height (block data) <= blockHeight (chain_tip db))%Z ->
  canonical_rows (persisted (client (update rejects data db))) = canonical_rows db.
Proof.
  intro Hle.
  destruct (update_at_or_below_tip rejects data db Hle) as (Hg & [-> | ->] & _).
  - reflexivity.
  - now apply grows_canonical_rows.
Qed.

Lemma update_sibling_unseen_witness :
  canonical_rows (persisted (client (update accepts_all sibling_batch forked)))
  = canonical_rows forked.
Proof.
  apply (update_sibling_unseen accepts_all sibling_batch forked).
  vm_compute. discriminate.
Defined.

(** ** A batch on the canonical tip *)

Lemma sum_Z_app (l l' : list Z) : sum_Z (l ++ l') = (sum_Z l + sum_Z l')%Z.
Proof.
  unfold sum_Z. induction l as [|x l IH]; cbn; [reflexivity|].
  rewrite IH. lia.
Qed.

Lemma canonical_amounts_written (role : DbStxEvent -> option Address)
    (a : Address) (data : DataStoreUpdateData) (db : Db) :
  canonical_amounts role a (written data db)
  = canonical_amounts role a db ++ batch_amounts role a data.
Proof.
  destruct (written_tables data db) as (_ & _ & E & _). cbv zeta in E.
  unfold canonical_amounts, batch_amounts. rewrite E, filter_app, map_app.
  f_equal. unfold batch_rows.
  induction (txs data) as [|e l IH]; [reflexivity|].
  cbn [flat_map]. rewrite !filter_app, !map_app, IH. f_equal.
  induction (stxEvents e) as [|ev evs IHe]; [reflexivity|].
  cbn [map filter].
  change (canonical (mkRow (tx_index_block_hash (tx e)) ev)) with (canonical ev).
  cbn [row_data].
  destruct (canonical ev && sql_eq_text (role ev) a); cbn [map]; now rewrite IHe.
Qed.

(** X8. When [update] returns for a new block whose reorg check has
    nothing to restore, each address's totals grow by the amounts of
    the batch's canonical STX events, as [update] left the batch, that
    name the address as recipient or as sender, and the balance by
    their difference. *)
Theorem update_adds_to_balance (rejects : Statement -> Db -> bool)
    (data : DataStoreUpdateData) (db : Db) (a : Address) :
  let r := update rejects data db in
  let received := sum_Z (batch_amounts stx_recipient a (batch r)) in
  let sent := sum_Z (batch_amounts stx_sender a (batch r)) in
  outcome r = Ok tt ->
  settled (block data) (blockHeight (chain_tip db)) db ->
  block_known db (block data) = false ->
  totalReceived (getStxBalance (persisted (client r)) a)
  = (totalReceived (getStxBalance db a) + received)%Z
  /\ totalSent (getStxBalance (persisted (client r)) a)
     = (totalSent (getStxBalance db a) + sent)%Z
  /\ balance (getStxBalance (persisted (client r)) a)
     = (balance (getStxBalance db a) + received - sent)%Z.
Proof.
  intros r received sent Ho Hs Hk. subst r received sent.
  destruct (update_settled rejects data db Hs) as (Hb & Hp & _).
  rewrite (Hp Ho), Hk, Hb.
  match goal with
  | |- context [written ?d db] => set (data' := d)
  end.
  destruct (getStxBalance_totals (written data' db) a) as [Hr' Hs'].
  destruct (getStxBalance_totals db a) as [Hr0 Hs0].
  assert (Hbal : forall d, balance (getStxBalance d a)
                        = (totalReceived (getStxBalance d a)
                           - totalSent (getStxBalance d a))%Z) by reflexivity.
  rewrite !Hbal, Hr', Hs', Hr0, Hs0, !canonical_amounts_written, !sum_Z_app.
  repeat split; lia.
Qed.

Lemma update_adds_to_balance_witness :
  balance
    (getStxBalance
       (persisted (client (update accepts_all out_of_order_batch forked))) "ST111")
  = (balance (getStxBalance forked "ST111") + 200 - 0)%Z.
Proof.
  apply (update_adds_to_balance accepts_all out_of_order_batch forked "ST111").
  - reflexivity.
  - right. exists (sample_block "0x02" "0x01" 2 true). split; [reflexivity|].
    now left.
  - reflexivity.
Defined.

Lemma chain_tip_height (db : Db) :
  blockHeight (chain_tip db) = 0%Z
  \/ exists b, In b (blocks db) /\ block_height b = blockHeight (chain_tip db).
Proof.
  unfold chain_tip, chain_tip_rows, sql_select.
  destruct (filter _ (blocks db)) as [|b0 rows] eqn:E; [now left|].
  right. exists b0. split; [|reflexivity].
  assert (H : In b0 (b0 :: rows)) by now left.
  rewrite <- E in H. now apply filter_In in H.
Qed.

Lemma chain_tip_on_top (bs : list DbBlock) (blk : DbBlock) (db' : Db) :
  blocks db' = bs ++ [blk] ->
  canonical blk = true ->
  (forall b, In b bs -> (block_height b < block_height blk)%Z) ->
  chain_tip db'
  = mkChainTip (block_height blk) (block_hash blk) (index_block_hash blk).
Proof.
  intros E Hc Hlow.
  destruct (getChainTipHeight_canonical_top db' blk) as (_ & b0 & Hb0 & ->).
  - rewrite E. apply in_or_app. right. now left.
  - exact Hc.
  - intros x Hx. rewrite E in Hx. apply in_app_or in Hx as [Hx|[<-|[]]]; [|lia].
    specialize (Hlow x Hx). lia.
  - assert (Hnone : forall l : list DbBlock,
               (forall b, In b l -> (block_height b < block_height blk)%Z) ->
               filter (fun x => canonical x
                                && Z.eqb (block_height x) (block_height blk)) l
               = []).
    { induction l as [|x l IH]; intro Hl; [reflexivity|]. cbn [filter].
      replace (block_height x =? block_height blk)%Z with false.
      - rewrite andb_false_r. apply IH. intros b Hb. apply Hl. now right.
      - symmetry. apply Z.eqb_neq. specialize (Hl x (or_introl eq_refl)). lia. }
    rewrite E, filter_app, (Hnone bs Hlow) in Hb0.
    cbn [app filter] in Hb0. rewrite Hc, Z.eqb_refl in Hb0.
    cbn [andb hd_error] in Hb0. now injection Hb0 as <-.
Qed.

(** X9. When [update] returns for a new block that is delivered as
    canonical, has a positive height and is higher than every stored
    block, [getChainTipHeight] afterwards returns that block's height
    and hashes, whether or not the reorg check restored a chain. *)
Theorem update_moves_tip (rejects : Statement -> Db -> bool)
    (data : DataStoreUpdateData) (db : Db) :
  let r := update rejects data db in
  let blk := block data in
  outcome r = Ok tt ->
  block_known db blk = false ->
  canonical blk = true ->
  (0 < block_height blk)%Z ->
  (forall b, In b (blocks db) -> (block_height b < block_height blk)%Z) ->
  res (getChainTipHeight (connect (persisted (client r))))
  = Ok (mkChainTip (block_height blk) (block_hash blk) (index_block_hash blk)).
Proof.
  intros r blk Ho Hk Hc Hpos Hlow. subst r blk.
  rewrite getChainTipHeight_run. cbn [res connect pending].
  assert (Htip : (blockHeight (chain_tip db) < block_height (block data))%Z).
  { destruct (chain_tip_height db) as [->|(b & Hb & <-)]; auto. }
  destruct (update_committed rejects data db Ho) as (u & Hr & H).
  pose proof (handleReorg_same_shape _ _ _ _ Hr) as Hs.
  cbn [connect pending] in Hs.
  destruct H as [[_ Hk']|(Hp & _)].
  { rewrite (block_known_shape _ _ _ Hs) in Hk'. congruence. }
  assert (Hb : batch (update rejects data db) = data).
  { destruct (update_batch_cases rejects data db) as [E|[_ Hle]]; [exact E|lia]. }
  rewrite Hb in Hp. f_equal.
  eapply chain_tip_on_top.
  - rewrite Hp. apply blocks_written.
  - exact Hc.
  - intros b Hin. apply (in_map block_height) in Hin.
    rewrite (same_shape_heights _ _ Hs) in Hin.
    apply in_map_iff in Hin as (b' & <- & Hin'). auto.
Qed.

Lemma update_moves_tip_witness :
  res (getChainTipHeight
         (connect (persisted (client (update accepts_all out_of_order_batch forked)))))
  = Ok (mkChainTip 3 "0x03" "0x03").
Proof.
  apply (update_moves_tip accepts_all out_of_order_batch forked).
  - reflexivity.
  - reflexivity.
  - reflexivity.
  - reflexivity.
  - intros b [<-|[<-|[<-|[]]]]; reflexivity.
Defined.

(** ** Pages *)

Lemma page_of_sorted {R} (keys : list (R -> Z)) (w : R -> bool) (t : list R)
    (limit offset : Z) (page : list R) :
  sql_limit_offset limit offset (sql_order_by_desc keys (sql_select w t)) = Got page ->
  (0 <= limit)%Z /\ (0 <= offset)%Z
  /\ is_page (fun x y => desc_by keys x y = true) (filter w t) page
       (Z.to_nat limit) (Z.to_nat offset).
Proof.
  intro H. apply sql_limit_offset_got in H as (Hl & Ho & ->).
  split; [exact Hl|]. split; [exact Ho|].
  unfold sql_order_by_desc, sql_select.
  set (s := stable_sort (desc_by keys) (filter w t)).
  set (n := Z.to_nat limit). set (m := Z.to_nat offset).
  assert (Hlen : length s = length (filter w t)) by apply stable_sort_length.
  exists (firstn m s), (skipn n (skipn m s)).
  rewrite (firstn_skipn n (skipn m s)), (firstn_skipn m s).
  split; [apply Permutation_sym, stable_sort_perm|].
  split; [apply stable_sort_sorted, desc_by_orders|].
  rewrite length_firstn, length_firstn, length_skipn, Hlen. split; reflexivity.
Qed.

Lemma is_page_weaken {R} (P Q : R -> R -> Prop) (all page : list R)
    (limit offset : nat) :
  (forall x y, P x y -> Q x y) ->
  is_page P all page limit offset -> is_page Q all page limit offset.
Proof.
  intros HPQ (above & below & Hp & Hs & Hl).
  exists above, below. split; [exact Hp|]. split; [|exact Hl].
  eapply StronglySorted_weaken; eauto.
Qed.

Lemma is_page_In {R} (before : R -> R -> Prop) (all page : list R)
    (limit offset : nat) (x : R) :
  is_page before all page limit offset -> In x page -> In x all.
Proof.
  intros (above & below & Hp & _) Hx.
  eapply Permutation_in; [exact Hp|].
  apply in_or_app. right. apply in_or_app. now left.
Qed.

Lemma desc_by_one {R} (k : R -> Z) (x y : R) :
  desc_by [k] x y = true -> (k y <= k x)%Z.
Proof.
  cbn. rewrite andb_true_r. intro H. apply orb_prop in H as [H|H];
    [apply Z.ltb_lt in H|apply Z.eqb_eq in H]; lia.
Qed.

Lemma desc_by_two {R} (k1 k2 : R -> Z) (x y : R) :
  desc_by [k1; k2] x y = true -> lex_ge (k1 x) (k2 x) (k1 y) (k2 y).
Proof.
  cbn [desc_by]. intro H. apply orb_prop in H as [H|H].
  - left. now apply Z.ltb_lt.
  - apply andb_prop in H as [H1 H2]. apply Z.eqb_eq in H1.
    right. split; [exact H1|]. now apply (desc_by_one k2).
Qed.

Lemma map_parseBlockQueryResult (rows : list DbBlock) :
  map parseBlockQueryResult rows = rows.
Proof.
  induction rows as [|r rows IH]; [reflexivity|].
  cbn [map]. now rewrite parseBlockQueryResult_id, IH.
Qed.

(** X10. [getBlocks] throws exactly when [limit] or [offset] is
    negative. Otherwise [total] is the number of canonical blocks,
    whatever the page asked for, and [results] holds the
    canonical blocks [offset + 1] to [offset + limit] in an order of
    descending height: at most [limit] of them, none when [offset]
    reaches the total. *)
Theorem getBlocks_page (limit offset : Z) (db : Db) :
  match getBlocks limit offset db with
  | Fails e => e = NegativePaging /\ ((limit < 0)%Z \/ (offset < 0)%Z)
  | Got p =>
      (0 <= limit)%Z /\ (0 <= offset)%Z
      /\ total p = length (filter canonical (blocks db))
      /\ is_page (fun b b' => (block_height b' <= block_height b)%Z)
           (filter canonical (blocks db)) (results p)
           (Z.to_nat limit) (Z.to_nat offset)
  end.
Proof.
  unfold getBlocks.
  destruct (sql_limit_offset limit offset _) as [rows|e] eqn:E; cbn [read_bind].
  - apply page_of_sorted in E as (Hl & Ho & Hp).
    cbn [total results]. rewrite map_parseBlockQueryResult.
    repeat split; try assumption.
    eapply is_page_weaken; [|exact Hp]. intros x y. apply desc_by_one.
  - apply sql_limit_offset_fails in E as [H ->]. auto.
Qed.

(** ** Transactions *)

Ltac none_columns :=
  repeat match goal with
         | H : _ && _ = true |- _ => apply andb_prop in H as [? H]
         | H : is_none ?x = true |- _ =>
             destruct x; [discriminate H|clear H]
         end.

Lemma parseTxQueryResult_cases (row : DbTx) :
  match parseTxQueryResult row with
  | Fails e =>
      e = BigIntOfNull
      /\ type_id row = TokenTransfer /\ token_transfer_amount row = None
  | Got t =>
      required_columns t = required_columns row
      /\ only_own_columns t = true
      /\ (only_own_columns row = true -> t = row)
      /\ parseTxQueryResult t = Got t
  end.
Proof.
  destruct row as [id ix ibh bh h bt ty st c pc fee sp sa ohm
                   rcp amt memo scid scsrc ccid ccfn ccargs pm1 pm2 cb].
  unfold parseTxQueryResult; cbn [type_id token_transfer_amount].
  destruct ty; [destruct amt|..]; cbn; repeat split;
    intro H; unfold only_own_columns in H; cbn in H; none_columns; reflexivity.
Qed.


Lemma parseTxQueryResult_fails (row : DbTx) (e : ReadError) :
  parseTxQueryResult row = Fails e ->
  e = BigIntOfNull /\ type_id row = TokenTransfer /\ token_transfer_amount row = None.
Proof.
  unfold parseTxQueryResult.
  destruct (type_id row); try discriminate.
  destruct (token_transfer_amount row); [discriminate|].
  intro H. now injection H as <-.
Qed.

Lemma first_choice_of_sorted {R} `{Entity R} (height : R -> Z) (w : R -> bool)
    (t : list R) :
  match firstn 1 (sql_order_by_desc [fun r => rank (canonical r); height]
                    (sql_select w t)) with
  | [] => forall r, In r t -> w r = false
  | row :: _ => first_choice height w t row
  end.
Proof.
  pose proof (first_of_sorted [fun r => rank (canonical r); height] w t) as Hf.
  destruct (firstn 1 _) as [|row rows]; [exact Hf|].
  destruct Hf as (Hin & Hw & Hmax). repeat split; auto;
    destruct (canonical_then_highest height row r (Hmax r H0 H1)); auto.
Qed.

(** X12. [getTx] answers [found: false] exactly when no stored
    transaction has the id. Otherwise it parses a stored transaction
    with that id, a canonical one whenever there is one and none lower
    than another of the same flag, and returns what
    [parseTxQueryResult] makes of it, its error included. *)
Theorem getTx_prefers_canonical (txId : Hash) (db : Db) :
  let with_id t := String.eqb (tx_id t) txId in
  match getTx txId db with
  | Got not_found => forall t, In t (txs_table db) -> tx_id t <> txId
  | Got (found t) =>
      exists row,
        first_choice tx_block_height with_id (txs_table db) row
        /\ parseTxQueryResult row = Got t
  | Fails e =>
      exists row,
        first_choice tx_block_height with_id (txs_table db) row
        /\ parseTxQueryResult row = Fails e
  end.
Proof.
  cbv zeta. unfold getTx.
  pose proof (first_choice_of_sorted tx_block_height
                (fun t => String.eqb (tx_id t) txId) (txs_table db)) as Hf.
  destruct (firstn 1 _) as [|row rows].
  - intros t Ht E. apply String.eqb_eq in E. specialize (Hf t Ht). congruence.
  - destruct (parseTxQueryResult row) as [t|e] eqn:Ep; cbn [read_bind]; eauto.
Qed.

Lemma read_all_got {A B} (f : A -> Read B) (rows : list A) (l : list B) :
  read_all f rows = Got l -> Forall2 (fun r b => f r = Got b) rows l.
Proof.
  revert l. induction rows as [|r rows IH]; intros l H; cbn [read_all] in H.
  - injection H as <-. constructor.
  - destruct (f r) as [b|e] eqn:Er; cbn [read_bind] in H; [|discriminate].
    destruct (read_all f rows) as [bs|e]; cbn [read_bind] in H; [|discriminate].
    injection H as <-. constructor; auto.
Qed.

Lemma read_all_fails {A B} (f : A -> Read B) (rows : list A) (e : ReadError) :
  read_all f rows = Fails e -> exists r, In r rows /\ f r = Fails e.
Proof.
  induction rows as [|r rows IH]; intro H; cbn [read_all] in H; [discriminate|].
  destruct (f r) as [b|e'] eqn:Er; cbn [read_bind] in H.
  - destruct (read_all f rows) as [bs|e']; cbn [read_bind] in H; [discriminate|].
    destruct (IH H) as (r' & Hin & Hr). exists r'. split; [now right|exact Hr].
  - injection H as <-. exists r. split; [now left|exact Er].
Qed.

Lemma tx_listing_run (w : DbTx -> bool) (limit offset : Z) (db : Db) :
  let listing :=
    (rows <- sql_limit_offset limit offset
               (sql_order_by_desc [tx_block_height; tx_index]
                  (sql_select w (txs_table db))) ;;
     parsed <- read_all parseTxQueryResult rows ;;
     Got (rows, parsed))%read in
  match listing with
  | Got (rows, parsed) =>
      tx_listing w limit offset db (Got parsed) /\ length rows = length parsed
  | Fails e => tx_listing w limit offset db (Fails e)
  end.
Proof.
  cbv zeta.
  destruct (sql_limit_offset limit offset _) as [rows|e] eqn:E; cbn [read_bind].
  - apply page_of_sorted in E as (Hl & Ho & Hp).
    assert (Hp' : is_page tx_order (filter w (txs_table db)) rows
                    (Z.to_nat limit) (Z.to_nat offset)).
    { eapply is_page_weaken; [|exact Hp]. intros x y. apply desc_by_two. }
    destruct (read_all parseTxQueryResult rows) as [parsed|e] eqn:Er;
      cbn [read_bind].
    + apply read_all_got in Er. split.
      * unfold tx_listing. eauto.
      * eapply Forall2_length; eauto.
    + apply read_all_fails in Er as (row & Hin & Hrow).
      pose proof (parseTxQueryResult_fails row e Hrow) as (-> & Hty & Ham).
      unfold tx_listing. repeat split; try assumption.
      exists row. apply (is_page_In _ _ _ _ _ _ Hp') in Hin.
      apply filter_In in Hin as [Hin Hw]. auto.
  - apply sql_limit_offset_fails in E as [H ->]. exact H.
Qed.



(** X14. [getAddressTxs] lists the canonical transactions that the
    address sent, or received as a token transfer, a page at a time as
    [getTxList] does. Its [total] is the number of all of them when the
    page holds a row, and 0 when the page is empty: also when such
    transactions exist and [offset] reaches their number or [limit] is
    0. *)
Theorem getAddressTxs_page (stxAddress : Address) (limit offset : Z) (db : Db) :
  let all := filter (sent_or_received stxAddress) (txs_table db) in
  match getAddressTxs stxAddress limit offset db with
  | Got p =>
      tx_listing (sent_or_received stxAddress) limit offset db (Got (results p))
      /\ total p = match results p with [] => 0 | _ :: _ => length all end
      /\ (length all <= Z.to_nat offset \/ limit = 0%Z ->
          results p = [] /\ total p = 0)
  | Fails e => tx_listing (sent_or_received stxAddress) limit offset db (Fails e)
  end.
Proof.
  cbv zeta. unfold getAddressTxs.
  fold (sent_or_received stxAddress).
  change (fun t : DbTx =>
            canonical t
            && (String.eqb (sender_address t) stxAddress
                || sql_eq_text (token_transfer_recipient_address t) stxAddress))
    with (sent_or_received stxAddress).
  pose proof (tx_listing_run (sent_or_received stxAddress) limit offset db) as Hrun.
  cbv zeta in Hrun.
  destruct (sql_limit_offset limit offset _) as [rows|e]; cbn [read_bind] in *;
    [|exact Hrun].
  destruct (read_all parseTxQueryResult rows) as [parsed|e];
    cbn [read_bind total results] in *; [|exact Hrun].
  destruct Hrun as [Hl Hlen]. split; [exact Hl|].
  assert (Ht : (if Nat.ltb 0 (length rows)
                then length (sql_select (sent_or_received stxAddress) (txs_table db))
                else 0)
               = match parsed with
                 | [] => 0
                 | _ :: _ => length (filter (sent_or_received stxAddress) (txs_table db))
                 end).
  { destruct rows, parsed; try discriminate Hlen; reflexivity. }
  split; [exact Ht|].
  intro Hempty. destruct Hl as (_ & _ & rows' & (above & below & _ & _ & _ & Hp) & Hf).
  assert (Hr : length rows' = 0).
  { rewrite Hp. destruct Hempty as [H| ->]; [lia|reflexivity]. }
  apply Forall2_length in Hf. rewrite Hr in Hf.
  destruct parsed; [|discriminate Hf]. split; [reflexivity|].
  now rewrite Ht.
Qed.

(** ** Events *)

Lemma by_key_orders {A} (k : A -> Z) : orders (fun a b => (k a - k b <=? 0)%Z).
Proof.
  split.
  - intros x y. destruct (Z.le_ge_cases (k x) (k y)); [left|right];
      apply Z.leb_le; lia.
  - intros x y z Hxy Hyz. apply Z.leb_le in Hxy, Hyz. apply Z.leb_le. lia.
Qed.

Lemma stx_event_of_row (r : Row DbStxEvent) : stx_event_of r = StxAsset (row_data r).
Proof. destruct r as [h []]. reflexivity. Qed.

Lemma ft_event_of_row (r : Row DbFtEvent) :
  ft_event_of r = FungibleTokenAsset (row_data r).
Proof. destruct r as [h []]. reflexivity. Qed.

Lemma nft_event_of_row (r : Row DbNftEvent) :
  nft_event_of r = NonFungibleTokenAsset (row_data r).
Proof. destruct r as [h []]. reflexivity. Qed.

Lemma log_event_of_row (r : Row DbSmartContractEvent) :
  log_event_of r = SmartContractLog (row_data r).
Proof. destruct r as [h []]. reflexivity. Qed.

Lemma getTxEvents_sorts (txId indexBlockHash : Hash) (db : Db) :
  getTxEvents txId indexBlockHash db
  = js_sort (fun a b => (event_index a - event_index b)%Z)
      (events_of_tx txId indexBlockHash db).
Proof.
  unfold getTxEvents, events_of_tx, sql_select.
  now rewrite (map_ext _ _ stx_event_of_row), (map_ext _ _ ft_event_of_row),
    (map_ext _ _ nft_event_of_row), (map_ext _ _ log_event_of_row).
Qed.

(** X15. [getTxEvents] returns the STX, FT and NFT events and the
    contract logs stored with the transaction id under the block hash,
    canonical or not, each as often as it is stored, in ascending
    order of [event_index]; smart contracts are not among them. *)
Theorem getTxEvents_sorted_complete (txId indexBlockHash : Hash) (db : Db) :
  Permutation (events_of_tx txId indexBlockHash db)
    (getTxEvents txId indexBlockHash db)
  /\ StronglySorted (fun a b => (event_index a <= event_index b)%Z)
       (getTxEvents txId indexBlockHash db).
Proof.
  rewrite getTxEvents_sorts. unfold js_sort. split.
  - apply stable_sort_perm.
  - eapply StronglySorted_weaken;
      [|apply stable_sort_sorted, (by_key_orders event_index)].
    intros a b H. apply Z.leb_le in H. lia.
Qed.

(** ** Smart contracts *)

(** X16. [getSmartContract] answers [found: false] exactly when no
    stored contract has the id; otherwise it returns a stored contract
    with that id, a canonical one whenever there is one, and none lower
    than another of the same flag. *)
Theorem getSmartContract_prefers_canonical (contractId : string) (db : Db) :
  let with_id (r : Row DbSmartContract) :=
    String.eqb (sc_contract_id (row_data r)) contractId in
  match getSmartContract contractId db with
  | not_found =>
      forall r, In r (smart_contracts db) ->
                sc_contract_id (row_data r) <> contractId
  | found s =>
      exists row,
        first_choice (fun r => sc_block_height (row_data r)) with_id
          (smart_contracts db) row
        /\ s = row_data row
  end.
Proof.
  cbv zeta. unfold getSmartContract.
  pose proof (first_choice_of_sorted (fun r => sc_block_height (row_data r))
                (fun r => String.eqb (sc_contract_id (row_data r)) contractId)
                (smart_contracts db)) as Hf.
  destruct (firstn 1 _) as [|row rows].
  - intros r Hr E. apply String.eqb_eq in E. specialize (Hf r Hr). congruence.
  - exists row. split; [exact Hf|]. now destruct row as [h []].
Qed.

(** ** The events of an address *)




(** ** Balances by asset *)

Lemma sql_lookup_cons {V} (k k' : string) (v : V) (l : list (string * V)) :
  sql_lookup k ((k', v) :: l) = if String.eqb k' k then Some v else sql_lookup k l.
Proof. unfold sql_lookup. cbn [find fst]. now destruct (String.eqb k' k). Qed.

Lemma sql_lookup_app {V} (k : string) (l l' : list (string * V)) :
  sql_lookup k (l ++ l')
  = match sql_lookup k l with
    | Some v => Some v
    | None => sql_lookup k l'
    end.
Proof.
  unfold sql_lookup. induction l as [|[k' v'] l IH]; [reflexivity|].
  cbn [app find fst]. destruct (String.eqb k' k); [reflexivity|exact IH].
Qed.

Lemma sql_lookup_none {V} (k : string) (l : list (string * V)) :
  sql_lookup k l = None <-> ~ In k (map fst l).
Proof.
  unfold sql_lookup. induction l as [|[k' v'] l IH]; cbn [find map fst In].
  - split; auto.
  - destruct (String.eqb k' k) eqn:E.
    + apply String.eqb_eq in E. cbn. split; [discriminate|]. intro H. now destruct H; left.
    + apply String.eqb_neq in E. rewrite IH. split; [intros H [H'|H']; auto|auto].
Qed.

Lemma sql_lookup_In {V} (k : string) (v : V) (l : list (string * V)) :
  sql_lookup k l = Some v -> In (k, v) l.
Proof.
  unfold sql_lookup. induction l as [|[k' v'] l IH]; cbn [find fst]; [discriminate|].
  destruct (String.eqb k' k) eqn:E.
  - apply String.eqb_eq in E. cbn. intro H. injection H as <-. left. now rewrite E.
  - intro H. right. auto.
Qed.

Lemma In_sql_lookup {V} (k : string) (v : V) (l : list (string * V)) :
  NoDup (map fst l) -> In (k, v) l -> sql_lookup k l = Some v.
Proof.
  unfold sql_lookup. induction l as [|[k' v'] l IH]; intros Hn Hin; [destruct Hin|].
  cbn [map fst] in Hn. inversion Hn as [|? ? Hk Hn']; subst.
  cbn [find fst]. destruct Hin as [E|Hin].
  - injection E as -> ->. now rewrite String.eqb_refl.
  - destruct (String.eqb k' k) eqn:E; [|now apply IH].
    apply String.eqb_eq in E. subst k'. exfalso. apply Hk.
    apply in_map_iff. now exists (k, v).
Qed.

Lemma sql_lookup_perm {V} (k : string) (l l' : list (string * V)) :
  NoDup (map fst l) -> Permutation l l' -> sql_lookup k l' = sql_lookup k l.
Proof.
  intros Hn Hp.
  assert (Hn' : NoDup (map fst l'))
    by (eapply Permutation_NoDup; [apply Permutation_map; exact Hp|exact Hn]).
  destruct (sql_lookup k l) as [v|] eqn:E.
  - apply In_sql_lookup; [exact Hn'|].
    eapply Permutation_in; [exact Hp|]. now apply sql_lookup_In.
  - apply sql_lookup_none. apply sql_lookup_none in E. intro H. apply E.
    eapply Permutation_in; [apply Permutation_map, Permutation_sym; exact Hp|exact H].
Qed.

Lemma sql_lookup_map {V W} (k : string) (f : string * V -> W) (l : list (string * V)) :
  sql_lookup k (map (fun r => (fst r, f r)) l)
  = option_map (fun v => f (k, v)) (sql_lookup k l).
Proof.
  unfold sql_lookup. induction l as [|[k' v'] l IH]; [reflexivity|].
  cbn [map find fst]. destruct (String.eqb k' k) eqn:E; [|exact IH].
  apply String.eqb_eq in E. now subst k'.
Qed.

(** A [Map] built from pairs with distinct keys holds the pairs in
    their order. *)
Lemma map_set_fresh {V} (k : string) (v : V) (m : list (string * V)) :
  ~ In k (map fst m) -> map_set k v m = m ++ [(k, v)].
Proof.
  induction m as [|[k' v'] m IH]; intro H; [reflexivity|].
  cbn [map_set]. cbn [map fst In] in H.
  destruct (String.eqb k' k) eqn:E.
  - apply String.eqb_eq in E. exfalso. auto.
  - cbn [app]. rewrite IH; auto.
Qed.

Lemma js_Map_distinct {V} (pairs : list (string * V)) :
  NoDup (map fst pairs) -> js_Map pairs = pairs.
Proof.
  unfold js_Map. intro Hn.
  assert (H : forall m,
             NoDup (map fst (m ++ pairs)) ->
             fold_left (fun m kv => map_set (fst kv) (snd kv) m) pairs m
             = m ++ pairs).
  { clear Hn. induction pairs as [|[k v] pairs IH]; intros m Hn.
    - cbn. now rewrite app_nil_r.
    - cbn [fold_left fst snd]. rewrite map_set_fresh.
      + rewrite IH; rewrite <- app_assoc; [reflexivity|exact Hn].
      + rewrite map_app in Hn. cbn [map fst] in Hn.
        apply NoDup_remove_2 in Hn. intro H. apply Hn.
        apply in_or_app. now left. }
  apply (H []). exact Hn.
Qed.

Lemma group_by_keys {R} (key : R -> string) (agg : list R -> Z) (rows : list R) :
  map fst (sql_group_by key agg rows) = nodup string_dec (map key rows).
Proof.
  unfold sql_group_by. rewrite map_map. cbn [fst]. apply map_id.
Qed.

Lemma sql_lookup_group_by {R} (key : R -> string) (agg : list R -> Z)
    (rows : list R) (k : string) :
  sql_lookup k (sql_group_by key agg rows)
  = match filter (fun r => String.eqb (key r) k) rows with
    | [] => None
    | g => Some (agg g)
    end.
Proof.
  destruct (filter (fun r => String.eqb (key r) k) rows) as [|r g] eqn:E.
  - apply sql_lookup_none. rewrite group_by_keys, nodup_In.
    intro H. apply in_map_iff in H as (r & Hk & Hr).
    assert (Hin : In r (filter (fun r => String.eqb (key r) k) rows)).
    { apply filter_In. split; [exact Hr|]. now apply String.eqb_eq. }
    now rewrite E in Hin.
  - rewrite <- E. apply In_sql_lookup.
    + rewrite group_by_keys. apply NoDup_nodup.
    + unfold sql_group_by. apply in_map_iff. exists k. split; [reflexivity|].
      apply nodup_In. apply in_map_iff.
      assert (Hin : In r (filter (fun r => String.eqb (key r) k) rows))
        by (rewrite E; now left).
      apply filter_In in Hin as [Hin Hk]. apply String.eqb_eq in Hk. eauto.
Qed.

Lemma selected_keys {V} (keep : string * V -> bool) (rows : list (string * V)) :
  NoDup (map fst rows) -> NoDup (map fst (filter keep rows)).
Proof.
  intro Hkeys. induction rows as [|r rows IH]; [constructor|].
  cbn [map] in Hkeys. apply NoDup_cons_iff in Hkeys as [Hr Hrows].
  cbn [filter]. destruct (keep r); [|now apply IH].
  cbn [map]. apply NoDup_cons; [|now apply IH].
  intro Hin. apply Hr. apply in_map_iff in Hin as (r' & E & Hr').
  apply filter_In in Hr' as [Hr' _]. rewrite <- E. now apply in_map.
Qed.

Lemma full_join_keys (credit debit : list (string * Z)) :
  NoDup (map fst credit) -> NoDup (map fst debit) ->
  NoDup (map fst (sql_full_join credit debit)).
Proof.
  intros Hc Hd. unfold sql_full_join. rewrite map_app, !map_map. cbn [fst].
  apply NoDup_app.
  - exact Hc.
  - now apply selected_keys.
  - intros k Hk1 Hk2. apply in_map_iff in Hk2 as (d & <- & Hd2).
    apply filter_In in Hd2 as [_ Hd2].
    destruct (sql_lookup (fst d) credit) eqn:E; [discriminate|].
    apply sql_lookup_none in E. auto.
Qed.

Lemma sql_lookup_full_join (credit debit : list (string * Z)) (k : string) :
  sql_lookup k (sql_full_join credit debit)
  = match sql_lookup k credit, sql_lookup k debit with
    | Some c, d => Some (Some c, d)
    | None, Some d => Some (None, Some d)
    | None, None => None
    end.
Proof.
  unfold sql_full_join. rewrite sql_lookup_app.
  rewrite (sql_lookup_map k (fun c => (Some (snd c), sql_lookup (fst c) debit))).
  destruct (sql_lookup k credit) as [c|] eqn:Ec; [reflexivity|].
  cbn [option_map].
  induction debit as [|[k' d'] debit IH]; [reflexivity|].
  cbn [filter fst]. rewrite (sql_lookup_cons k k' d' debit).
  destruct (String.eqb k' k) eqn:E.
  - apply String.eqb_eq in E. subst k'. rewrite Ec. cbn [map fst snd].
    now rewrite sql_lookup_cons, String.eqb_refl.
  - destruct (sql_lookup k' credit); [exact IH|].
    cbn [map fst snd]. now rewrite sql_lookup_cons, E.
Qed.

Lemma moved_of_transfers {E} `{Entity E} (asset_of : E -> string)
    (sender recipient role : E -> option Address) (a : Address) (asset : string)
    (t : list (Row E)) :
  (forall e, sql_eq_text (role e) a = true ->
             sql_eq_text (sender e) a || sql_eq_text (recipient e) a = true) ->
  filter (fun e => String.eqb (asset_of (row_data e)) asset)
    (sql_select (fun e => sql_eq_text (role (row_data e)) a)
       (transfers_of sender recipient a t))
  = moved asset_of role a asset t.
Proof.
  intro Hrole. unfold moved, transfers_of, sql_select.
  rewrite !filter_filter. apply filter_ext. intro e.
  specialize (Hrole (row_data e)).
  destruct (canonical e), (sql_eq_text (role (row_data e)) a),
    (String.eqb (asset_of (row_data e)) asset); cbn [andb];
    rewrite ?andb_false_r, ?andb_true_r; try reflexivity;
    now rewrite Hrole.
Qed.

Lemma balances_by_asset {E B} `{Entity E} (cmp : string -> string -> Z)
    (sender recipient : E -> option Address) (asset_of : E -> string)
    (agg : list (Row E) -> Z) (f : option Z * option Z -> B)
    (a : Address) (asset : string) (t : list (Row E)) :
  let transfers := transfers_of sender recipient a t in
  let by_asset := sql_group_by (fun e => asset_of (row_data e)) agg in
  let credit :=
    by_asset (sql_select (fun e => sql_eq_text (recipient (row_data e)) a)
                transfers) in
  let debit :=
    by_asset (sql_select (fun e => sql_eq_text (sender (row_data e)) a)
                transfers) in
  let m :=
    js_Map (map (fun r => (fst r, f (snd r)))
              (js_sort (fun r1 r2 => cmp (fst r1) (fst r2))
                 (sql_full_join credit debit))) in
  NoDup (map fst m)
  /\ map_get asset m
     = match moved asset_of recipient a asset t, moved asset_of sender a asset t with
       | [], [] => None
       | [], s => Some (f (None, Some (agg s)))
       | r, [] => Some (f (Some (agg r), None))
       | r, s => Some (f (Some (agg r), Some (agg s)))
       end.
Proof.
  cbv zeta.
  set (credit := sql_group_by _ agg (sql_select (fun e => sql_eq_text (recipient _) a) _)).
  set (debit := sql_group_by _ agg (sql_select (fun e => sql_eq_text (sender _) a) _)).
  set (join := sql_full_join credit debit).
  set (rows := js_sort _ join).
  assert (Hj : NoDup (map fst join)).
  { apply full_join_keys; unfold credit, debit; rewrite group_by_keys;
      apply NoDup_nodup. }
  assert (Hp : Permutation join rows) by apply stable_sort_perm.
  assert (Hk : NoDup (map fst (map (fun r => (fst r, f (snd r))) rows))).
  { rewrite map_map. cbn [fst].
    eapply Permutation_NoDup; [apply Permutation_map; exact Hp|exact Hj]. }
  rewrite (js_Map_distinct _ Hk). split; [exact Hk|].
  unfold map_get.
  rewrite (sql_lookup_map asset (fun r => f (snd r))), (sql_lookup_perm asset join rows Hj Hp).
  unfold join. rewrite sql_lookup_full_join. unfold credit, debit.
  rewrite !sql_lookup_group_by.
  rewrite (moved_of_transfers asset_of sender recipient recipient)
    by (intros e ->; apply orb_true_r).
  rewrite (moved_of_transfers asset_of sender recipient sender)
    by (intros e ->; reflexivity).
  destruct (moved asset_of recipient a asset t), (moved asset_of sender a asset t);
    reflexivity.
Qed.

(** X18. [getFungibleTokenBalances] has one entry per asset. An asset
    has an entry exactly when a canonical FT event of that asset names
    the address as recipient or as sender; the entry's totals are the
    sums of the amounts of those events, received and sent, and its
    balance is their difference. *)
Theorem getFungibleTokenBalances_by_asset (localeCompare : string -> string -> Z)
    (stxAddress : Address) (asset : string) (db : Db) :
  let received := ft_moved ft_recipient stxAddress asset db in
  let sent := ft_moved ft_sender stxAddress asset db in
  let balances := getFungibleTokenBalances localeCompare stxAddress db in
  NoDup (map fst balances)
  /\ map_get asset balances
     = match received, sent with
       | [], [] => None
       | _, _ =>
           Some (mkStxBalance (sum_Z received - sum_Z sent)
                   (sum_Z sent) (sum_Z received))
       end.
Proof.
  cbv zeta. unfold getFungibleTokenBalances.
  pose proof (balances_by_asset localeCompare ft_sender ft_recipient
                ft_asset_identifier
                (fun g => fold_left Z.add (map (fun e => ft_amount (row_data e)) g) 0%Z)
                (fun p => mkStxBalance (nullish (fst p) 0 - nullish (snd p) 0)%Z
                            (nullish (snd p) 0%Z) (nullish (fst p) 0%Z))
                stxAddress asset (ft_events db)) as [Hn Hl].
  cbv zeta in Hn, Hl. cbn [fst snd] in Hn, Hl.
  split; [exact Hn|]. rewrite Hl. unfold ft_moved.
  destruct (moved ft_asset_identifier ft_recipient stxAddress asset (ft_events db)),
    (moved ft_asset_identifier ft_sender stxAddress asset (ft_events db));
    cbn [fst snd nullish]; rewrite ?fold_left_add_acc; try reflexivity;
    cbn [map sum_Z fold_right]; f_equal; f_equal; lia.
Qed.

(** X19. [getNonFungibleTokenCounts] has one entry per asset. An asset
    has an entry exactly when a canonical NFT event of that asset names
    the address as recipient or as sender; the entry's totals are the
    numbers of those events, received and sent, and its count is their
    difference. *)
Theorem getNonFungibleTokenCounts_by_asset (localeCompare : string -> string -> Z)
    (stxAddress : Address) (asset : string) (db : Db) :
  let received := nft_moved nft_recipient stxAddress asset db in
  let sent := nft_moved nft_sender stxAddress asset db in
  let counts := getNonFungibleTokenCounts localeCompare stxAddress db in
  NoDup (map fst counts)
  /\ map_get asset counts
     = if ((received =? 0) && (sent =? 0))%Z then None
       else Some (mkNftCount (received - sent) sent received).
Proof.
  cbv zeta. unfold getNonFungibleTokenCounts.
  pose proof (balances_by_asset localeCompare nft_sender nft_recipient
                nft_asset_identifier
                (fun g => Z.of_nat (length g))
                (fun p => mkNftCount (nullish (fst p) 0 - nullish (snd p) 0)%Z
                            (nullish (snd p) 0%Z) (nullish (fst p) 0%Z))
                stxAddress asset (nft_events db)) as [Hn Hl].
  cbv zeta in Hn, Hl. cbn [fst snd] in Hn, Hl.
  split; [exact Hn|]. rewrite Hl. unfold nft_moved.
  destruct (moved nft_asset_identifier nft_recipient stxAddress asset (nft_events db)),
    (moved nft_asset_identifier nft_sender stxAddress asset (nft_events db));
    cbn [fst snd nullish length]; try reflexivity;
    rewrite ?Nat2Z.inj_succ;
    repeat match goal with
           | |- context [(Z.succ ?x =? 0)%Z] =>
               replace (Z.succ x =? 0)%Z with false
                 by (symmetry; apply Z.eqb_neq; lia)
           end;
    cbn [Z.of_nat Z.eqb andb]; rewrite ?andb_false_r; reflexivity.
Qed.

(** ** Reads that see canonical rows only *)

Lemma filter_canonical_twice {R} `{Entity R} (t : list R) :
  filter canonical (filter canonical t) = filter canonical t.
Proof.
  rewrite filter_filter. apply filter_ext. intro x. now destruct (canonical x).
Qed.

Lemma filter_canonical_and {R} `{Entity R} (p : R -> bool) (t : list R) :
  filter (fun x => canonical x && p x) (filter canonical t)
  = filter (fun x => canonical x && p x) t.
Proof.
  rewrite filter_filter. apply filter_ext. intro x. now destruct (canonical x).
Qed.

Lemma transfers_of_canonical {E} `{Entity E} (sender recipient : E -> option Address)
    (a : Address) (t : list (Row E)) :
  transfers_of sender recipient a (filter canonical t)
  = transfers_of sender recipient a t.
Proof. unfold transfers_of, sql_select. apply filter_canonical_and. Qed.

(** X20. The listings read canonical rows only: [getBlocks],
    [getTxList], [getAddressTxs] and [getAddressAssetEvents] answer in
    a state as they do in that state without its non-canonical rows. *)
Theorem listings_see_canonical_rows (TransactionType : Type)
    (getTxTypeId : TransactionType -> DbTxTypeId)
    (txTypeFilter : list TransactionType) (stxAddress : Address)
    (limit offset : Z) (db : Db) :
  getBlocks limit offset (canonical_rows db) = getBlocks limit offset db
  /\ getTxList TransactionType getTxTypeId limit offset txTypeFilter
       (canonical_rows db)
     = getTxList TransactionType getTxTypeId limit offset txTypeFilter db
  /\ getAddressTxs stxAddress limit offset (canonical_rows db)
     = getAddressTxs stxAddress limit offset db
  /\ getAddressAssetEvents stxAddress limit offset (canonical_rows db)
     = getAddressAssetEvents stxAddress limit offset db.
Proof.
  unfold getBlocks, getTxList, getAddressTxs, getAddressAssetEvents,
    canonical_rows, sql_select.
  cbn [blocks txs_table stx_events ft_events nft_events].
  rewrite !transfers_of_canonical, !filter_canonical_twice, !filter_canonical_and.
  repeat split.
Qed.

(** X21. The balances read canonical rows only: [getStxBalance],
    [getFungibleTokenBalances] and [getNonFungibleTokenCounts] answer
    in a state as they do in that state without its non-canonical
    rows. *)
Theorem balances_see_canonical_rows (localeCompare : string -> string -> Z)
    (stxAddress : Address) (db : Db) :
  getStxBalance (canonical_rows db) stxAddress = getStxBalance db stxAddress
  /\ getFungibleTokenBalances localeCompare stxAddress (canonical_rows db)
     = getFungibleTokenBalances localeCompare stxAddress db
  /\ getNonFungibleTokenCounts localeCompare stxAddress (canonical_rows db)
     = getNonFungibleTokenCounts localeCompare stxAddress db.
Proof.
  unfold getStxBalance, getFungibleTokenBalances, getNonFungibleTokenCounts,
    canonical_rows.
  cbn [stx_events ft_events nft_events].
  rewrite !transfers_of_canonical. unfold sql_select at 3 6.
  rewrite !filter_canonical_and.
  repeat split.
Qed.

(** ** Reading back what [update] wrote *)

Lemma shape_column {R A} `{Entity R} (col : R -> A) (t t' : list R) :
  (forall c r, col (with_canonical c r) = col r) ->
  shape t' = shape t -> map col t' = map col t.
Proof.
  intros Hcol E.
  assert (Hs : forall l : list R, map col (shape l) = map col l).
  { intro l. unfold shape. rewrite map_map. apply map_ext. intro r. apply Hcol. }
  now rewrite <- (Hs t'), E, Hs.
Qed.

Lemma none_with_column {R} (col : R -> string) (v : string) (t : list R) :
  ~ In v (map col t) -> filter (fun r => String.eqb (col r) v) t = [].
Proof.
  induction t as [|r t IH]; intro H; [reflexivity|].
  cbn [map In] in H. cbn [filter].
  destruct (String.eqb (col r) v) eqn:E.
  - apply String.eqb_eq in E. exfalso. auto.
  - apply IH. auto.
Qed.

Lemma stable_sort_one {R} (before : R -> R -> bool) (x : R) :
  stable_sort before [x] = [x].
Proof. reflexivity. Qed.

(** What [update] commits when it returns for a block that was not
    stored: the batch as it left it, written to the state the reorg
    check left. *)
Lemma update_new_block (rejects : Statement -> Db -> bool)
    (data : DataStoreUpdateData) (db : Db) :
  let r := update rejects data db in
  outcome r = Ok tt ->
  block_known db (block data) = false ->
  exists db0,
    same_shape db db0 /\ persisted (client r) = written (batch r) db0.
Proof.
  intros r Ho Hk. subst r.
  destruct (update_committed rejects data db Ho) as (u & Hr & H).
  pose proof (handleReorg_same_shape _ _ _ _ Hr) as Hs.
  cbn [connect pending] in Hs.
  destruct H as [[_ Hk']|(Hp & _)].
  - rewrite (block_known_shape _ _ _ Hs) in Hk'. congruence.
  - eauto.
Qed.

Lemma batch_block (rejects : Statement -> Db -> bool)
    (data : DataStoreUpdateData) (db : Db) :
  block (batch (update rejects data db))
  = (if (block_height (block data) <=? blockHeight (chain_tip db))%Z
     then with_canonical false (block data) else block data)
  \/ block (batch (update rejects data db)) = block data.
Proof.
  destruct (update_batch_cases rejects data db) as [->|[-> Hle]]; [now right|].
  left. apply Z.leb_le in Hle. now rewrite Hle.
Qed.

(** X22. When [update] returns for a block whose [block_hash] and
    [index_block_hash] no stored block has, [getBlock] of the
    [block_hash] afterwards returns the block as [update] stored it:
    the delivered block, with [canonical] false when its height does
    not rise above the chain tip that [update] read. *)
Theorem update_then_getBlock (rejects : Statement -> Db -> bool)
    (data : DataStoreUpdateData) (db : Db) :
  let r := update rejects data db in
  let blk := block data in
  outcome r = Ok tt ->
  (forall b, In b (blocks db) ->
             block_hash b <> block_hash blk
             /\ index_block_hash b <> index_block_hash blk) ->
  getBlock (block_hash blk) (persisted (client r)) = found (block (batch r))
  /\ block (batch r)
     = if (block_height blk <=? blockHeight (chain_tip db))%Z
       then with_canonical false blk else blk.
Proof.
  intros r blk Ho Hnew. subst r blk.
  assert (Hk : block_known db (block data) = false).
  { unfold block_known. apply not_true_is_false. intro H.
    apply existsb_exists in H as (b & Hb & E). apply String.eqb_eq in E.
    now destruct (Hnew b Hb). }
  destruct (update_new_block rejects data db Ho Hk) as (db0 & Hs & Hp).
  assert (Hb : block (batch (update rejects data db))
               = if (block_height (block data) <=? blockHeight (chain_tip db))%Z
                 then with_canonical false (block data) else block data).
  { pose proof (update_run rejects data db) as Hu. cbv zeta in Hu. rewrite Hu.
    destruct (res (handleReorg _ _ _)); cbn [batch];
      try (rewrite Hu in Ho; discriminate Ho).
    destruct (res (write_batch _ _ _)); cbn [batch]; try reflexivity;
      destruct (_ <=? _)%Z; reflexivity. }
  split; [|exact Hb].
  assert (Hh : block_hash (block (batch (update rejects data db)))
               = block_hash (block data)).
  { rewrite Hb. now destruct (_ <=? _)%Z. }
  unfold getBlock, sql_order_by_desc, sql_select.
  rewrite Hp, blocks_written, filter_app.
  rewrite (none_with_column block_hash).
  - cbn [app filter]. rewrite Hh, String.eqb_refl.
    rewrite stable_sort_one. cbn [firstn]. now rewrite parseBlockQueryResult_id.
  - destruct Hs as [Hs _].
    rewrite (shape_column (A:=string) block_hash (blocks db) (blocks db0));
      [|reflexivity|exact Hs].
    intro H. apply in_map_iff in H as (b & E & Hb'). now destruct (Hnew b Hb').
Qed.

Lemma update_then_getBlock_witness :
  getBlock "0x03" (persisted (client (update accepts_all out_of_order_batch forked)))
  = found (sample_block "0x03" "0x02" 3 true).
Proof.
  apply (update_then_getBlock accepts_all out_of_order_batch forked).
  - reflexivity.
  - intros b [<-|[<-|[<-|[]]]]; split; discriminate.
Defined.

Lemma txs_store_entry (d : Db) (e : DataStoreTxEntry) :
  txs_table (store_entry d e)
  = if tx_known d (tx e) then txs_table d else txs_table d ++ [tx e].
Proof.
  unfold store_entry, store_tx. cbn [txs_table].
  now destruct (tx_known d (tx e)).
Qed.

Lemma tx_known_In (d : Db) (t : DbTx) : In t (txs_table d) -> tx_known d t = true.
Proof.
  intro H. unfold tx_known. apply existsb_exists. exists t. split; [exact H|].
  now rewrite !String.eqb_refl.
Qed.

Lemma tx_known_with_id (d : Db) (t : DbTx) :
  filter (fun r => String.eqb (tx_id r) (tx_id t)) (txs_table d) = [] ->
  tx_known d t = false.
Proof.
  intro H. unfold tx_known. apply not_true_is_false. intro Hk.
  apply existsb_exists in Hk as (r & Hr & E). apply andb_prop in E as [E _].
  assert (Hin : In r (filter (fun r => String.eqb (tx_id r) (tx_id t)) (txs_table d)))
    by (apply filter_In; auto).
  now rewrite H in Hin.
Qed.

Lemma store_entries_keep_tx (t0 : DbTx) (l : list DataStoreTxEntry) :
  forall d,
    filter (fun r => String.eqb (tx_id r) (tx_id t0)) (txs_table d) = [t0] ->
    (forall e, In e l -> tx_id (tx e) = tx_id t0 -> tx e = t0) ->
    filter (fun r => String.eqb (tx_id r) (tx_id t0))
      (txs_table (fold_left store_entry l d)) = [t0].
Proof.
  induction l as [|e l IH]; intros d Hd Hl; [exact Hd|].
  cbn [fold_left]. apply IH; [|intros e' He'; apply Hl; now right].
  rewrite txs_store_entry.
  destruct (String.eqb (tx_id (tx e)) (tx_id t0)) eqn:E.
  - apply String.eqb_eq in E. rewrite (Hl e (or_introl eq_refl) E).
    rewrite tx_known_In; [exact Hd|].
    assert (H : In t0 [t0]) by now left.
    rewrite <- Hd in H. now apply filter_In in H.
  - destruct (tx_known d (tx e)); [exact Hd|].
    rewrite filter_app, Hd. cbn [filter]. now rewrite E.
Qed.

Lemma store_entries_add_tx (t0 : DbTx) (l : list DataStoreTxEntry) :
  forall d,
    filter (fun r => String.eqb (tx_id r) (tx_id t0)) (txs_table d) = [] ->
    In t0 (map tx l) ->
    (forall e, In e l -> tx_id (tx e) = tx_id t0 -> tx e = t0) ->
    filter (fun r => String.eqb (tx_id r) (tx_id t0))
      (txs_table (fold_left store_entry l d)) = [t0].
Proof.
  induction l as [|e l IH]; intros d Hd Hin Hl; [destruct Hin|].
  cbn [fold_left].
  destruct (String.eqb (tx_id (tx e)) (tx_id t0)) eqn:E.
  - apply String.eqb_eq in E. pose proof (Hl e (or_introl eq_refl) E) as Et.
    apply store_entries_keep_tx; [|intros e' He'; apply Hl; now right].
    rewrite txs_store_entry, Et, (tx_known_with_id d t0 Hd), filter_app, Hd.
    cbn [filter app]. now rewrite String.eqb_refl.
  - apply IH; [|destruct Hin as [Hin|Hin]; [|exact Hin]
               |intros e' He'; apply Hl; now right].
    + rewrite txs_store_entry. destruct (tx_known d (tx e)); [exact Hd|].
      rewrite filter_app, Hd. cbn [filter]. now rewrite E.
    + subst t0. now rewrite String.eqb_refl in E.
Qed.

(** X23. When [update] returns for a block that was not stored, a
    transaction of the batch whose id no stored transaction has, and no
    other transaction of the batch, is what [getTx] of that id reads
    afterwards: [getTx] returns what [parseTxQueryResult] makes of the
    transaction as [update] stored it, which is the transaction itself
    when it fills no column of another type and, as a token transfer,
    has its amount. *)
Theorem update_then_getTx (rejects : Statement -> Db -> bool)
    (data : DataStoreUpdateData) (db : Db) (t : DbTx) :
  let r := update rejects data db in
  outcome r = Ok tt ->
  block_known db (block data) = false ->
  In t (map tx (txs (batch r))) ->
  (forall t', In t' (txs_table db) -> tx_id t' <> tx_id t) ->
  (forall e, In e (txs (batch r)) -> tx_id (tx e) = tx_id t -> tx e = t) ->
  getTx (tx_id t) (persisted (client r))
  = (parsed <- parseTxQueryResult t ;; Got (found parsed))%read
  /\ (only_own_columns t = true ->
      (type_id t = TokenTransfer -> token_transfer_amount t <> None) ->
      getTx (tx_id t) (persisted (client r)) = Got (found t)).
Proof.
  intros r Ho Hk Hin Hfresh Huniq. subst r.
  destruct (update_new_block rejects data db Ho Hk) as (db0 & Hs & Hp).
  assert (Hrows : filter (fun r => String.eqb (tx_id r) (tx_id t))
                    (txs_table (persisted (client (update rejects data db))))
                  = [t]).
  { rewrite Hp. unfold written. apply store_entries_add_tx; auto.
    cbn [store_block set_blocks txs_table].
    apply none_with_column.
    destruct Hs as (_ & Hs & _).
    rewrite (shape_column (A:=string) tx_id (txs_table db) (txs_table db0));
      [|reflexivity|exact Hs].
    intro H. apply in_map_iff in H as (t' & E & Ht'). now apply (Hfresh t'). }
  assert (Hget : getTx (tx_id t) (persisted (client (update rejects data db)))
                 = (parsed <- parseTxQueryResult t ;; Got (found parsed))%read).
  { unfold getTx, sql_order_by_desc, sql_select. rewrite Hrows.
    now rewrite stable_sort_one. }
  split; [exact Hget|].
  intros Hown Hamount. rewrite Hget.
  pose proof (parseTxQueryResult_cases t) as Hparse.
  destruct (parseTxQueryResult t) as [parsed|e]; cbn [read_bind].
  - destruct Hparse as (_ & _ & Hid & _). now rewrite (Hid Hown).
  - destruct Hparse as (_ & Hty & Ham). now destruct (Hamount Hty).
Qed.

Lemma update_then_getTx_witness :
  let r := update accepts_all out_of_order_batch forked in
  let t := sample_tx "0x7a" "0x03" 0 true in
  getTx (tx_id t) (persisted (client r)) = Got (found t).
Proof.
  cbv zeta.
  refine (proj2 (update_then_getTx accepts_all out_of_order_batch forked
                   (sample_tx "0x7a" "0x03" 0 true) _ _ _ _ _) _ _).
  - vm_compute. reflexivity.
  - vm_compute. reflexivity.
  - vm_compute. right. left. reflexivity.
  - intros t' H. vm_compute in H.
    destruct H as [<-|[<-|[<-|[]]]]; vm_compute; discriminate.
  - intros e H. vm_compute in H.
    destruct H as [<-|[<-|[]]]; vm_compute; intro E;
      [discriminate E|reflexivity].
  - vm_compute. reflexivity.
  - vm_compute. discriminate.
Defined.

Lemma In_batch_rows {E} (get : DataStoreTxEntry -> list E)
    (data : DataStoreUpdateData) (e : DataStoreTxEntry) (ev : E) :
  In e (txs data) -> In ev (get e) ->
  In (mkRow (tx_index_block_hash (tx e)) ev) (batch_rows get data).
Proof.
  intros He Hev. unfold batch_rows. apply in_flat_map. exists e.
  split; [exact He|]. now apply in_map.
Qed.

(** X24. When [update] returns for a block that was not stored,
    [getTxEvents] of a transaction of the batch and its block hash
    afterwards holds every STX, FT and NFT event and contract log of
    that entry that carries the transaction's id. *)
Theorem update_then_getTxEvents (rejects : Statement -> Db -> bool)
    (data : DataStoreUpdateData) (db : Db) (e : DataStoreTxEntry) :
  let r := update rejects data db in
  let read :=
    getTxEvents (tx_id (tx e)) (tx_index_block_hash (tx e)) (persisted (client r)) in
  outcome r = Ok tt ->
  block_known db (block data) = false ->
  In e (txs (batch r)) ->
  (forall ev, In ev (stxEvents e) -> stx_tx_id ev = tx_id (tx e) ->
              In (StxAsset ev) read)
  /\ (forall ev, In ev (ftEvents e) -> ft_tx_id ev = tx_id (tx e) ->
                 In (FungibleTokenAsset ev) read)
  /\ (forall ev, In ev (nftEvents e) -> nft_tx_id ev = tx_id (tx e) ->
                 In (NonFungibleTokenAsset ev) read)
  /\ (forall ev, In ev (contractLogEvents e) -> log_tx_id ev = tx_id (tx e) ->
                 In (SmartContractLog ev) read).
Proof.
  intros r read Ho Hk He. subst r read.
  destruct (update_new_block rejects data db Ho Hk) as (db0 & _ & Hp).
  rewrite Hp.
  destruct (written_tables (batch (update rejects data db)) db0)
    as (_ & _ & E1 & E2 & E3 & E4 & _). cbv zeta in E1, E2, E3, E4.
  assert (Hread : forall ev,
             In ev (events_of_tx (tx_id (tx e)) (tx_index_block_hash (tx e))
                      (written (batch (update rejects data db)) db0)) ->
             In ev (getTxEvents (tx_id (tx e)) (tx_index_block_hash (tx e))
                      (written (batch (update rejects data db)) db0))).
  { intros ev. rewrite getTxEvents_sorts. apply Permutation_in, stable_sort_perm. }
  unfold events_of_tx in Hread. rewrite E1, E2, E3, E4 in Hread.
  repeat split; intros ev Hev Hid; apply Hread; rewrite !in_app_iff.
  - left. apply in_map_iff. exists (mkRow (tx_index_block_hash (tx e)) ev).
    split; [reflexivity|].
    apply filter_In. split.
    + apply in_or_app. right. apply (In_batch_rows stxEvents); eauto.
    + unfold of_tx. cbn [row_data row_index_block_hash].
      now rewrite Hid, !String.eqb_refl.
  - right. left. apply in_map_iff. exists (mkRow (tx_index_block_hash (tx e)) ev).
    split; [reflexivity|].
    apply filter_In. split.
    + apply in_or_app. right. apply (In_batch_rows ftEvents); eauto.
    + unfold of_tx. cbn [row_data row_index_block_hash].
      now rewrite Hid, !String.eqb_refl.
  - right. right. left. apply in_map_iff. exists (mkRow (tx_index_block_hash (tx e)) ev).
    split; [reflexivity|].
    apply filter_In. split.
    + apply in_or_app. right. apply (In_batch_rows nftEvents); eauto.
    + unfold of_tx. cbn [row_data row_index_block_hash].
      now rewrite Hid, !String.eqb_refl.
  - right. right. right. apply in_map_iff. exists (mkRow (tx_index_block_hash (tx e)) ev).
    split; [reflexivity|].
    apply filter_In. split.
    + apply in_or_app. right. apply (In_batch_rows contractLogEvents); eauto.
    + unfold of_tx. cbn [row_data row_index_block_hash].
      now rewrite Hid, !String.eqb_refl.
Qed.

Lemma update_then_getTxEvents_witness :
  let r := update accepts_all out_of_order_batch forked in
  let e := sample_entry "0x7a" "0x03" 0 in
  In (StxAsset (sample_stx "0x7a" 0 (Some "ST000"%string) (Some "ST111"%string)
                  100 true))
    (getTxEvents (tx_id (tx e)) (tx_index_block_hash (tx e)) (persisted (client r))).
Proof.
  cbv zeta.
  refine (proj1 (update_then_getTxEvents accepts_all out_of_order_batch forked
                   (sample_entry "0x7a" "0x03" 0) _ _ _) _ _ _).
  - vm_compute. reflexivity.
  - vm_compute. reflexivity.
  - vm_compute. right. left. reflexivity.
  - vm_compute. left. reflexivity.
  - vm_compute. reflexivity.
Defined.
